(** * mpi_trap2.c: parallel trapezoidal rule over point-to-point messages

    A shallow embedding of [Class_assignments/Trap2_broadcast_to_n/mpi_trap2.c].
    Every MPI process runs the same [main]; what a process does is a function of
    its rank and of the group size.  A process is embedded as a tree of
    communication actions ([proc]); a group of processes runs under a small-step
    semantics with one FIFO channel per ordered pair of ranks.

    - C [double] is the kernel's binary64 [float].
    - C [int] is [Z]; [/] and [%] are [Z.quot] and [Z.rem] (truncation towards
      zero).  The product of two ints on line 67 is reduced to 32 bits.  The
      two conversions from [double] to [int] in [Get_input] (lines 113 and
      115) are undefined when the value is not an [int]; the sums and
      differences of ranks that follow them are then within [int].
    - [log] of libm is a parameter of the embedding: every definition that
      depends on it takes it as its first argument.
    - A variable that the C code leaves uninitialised enters a function as an
      argument holding an arbitrary value. *)

From Stdlib Require Import ZArith List Bool Lia Floats.
Import ListNotations.
Local Open Scope Z_scope.

(** ** C scalars *)

(** Two's complement reduction of a mathematical integer to a 32-bit [int]. *)
Definition int_wrap (z : Z) : Z := (z + 2 ^ 31) mod 2 ^ 32 - 2 ^ 31.

Definition in_int (z : Z) : Prop := - 2 ^ 31 <= z < 2 ^ 31.

(** [x * y] on [int]. *)
Definition int_mul (x y : Z) : Z := int_wrap (x * y).

(** Conversion [int -> double]; exact on the whole range of [int]. *)
Definition double_of_int (z : Z) : float :=
  match z with
  | Z0 => 0%float
  | Zpos _ => PrimFloat.of_uint63 (Uint63.of_Z z)
  | Zneg p => PrimFloat.opp (PrimFloat.of_uint63 (Uint63.of_Z (Zpos p)))
  end.

(** ** The integrand and the serial rule *)

(** [f], lines 186-188. *)
Definition f (x : float) : float := (x * x)%float.

(** The state threaded through [Trap]: the running [estimate] and the points at
    which [f] has been called so far, oldest first. *)
Definition call_f (x : float) (evaluated : list float) : float * list float :=
  (f x, evaluated ++ [x]).

(** The loop of lines 171-174, [iters] iterations left, loop variable [i]. *)
Fixpoint Trap_loop (iters : nat) (i : Z) (left_endpt base_len : float)
    (estimate : float) (evaluated : list float) : float * list float :=
  match iters with
  | O => (estimate, evaluated)
  | S iters' =>
      let x := (left_endpt + double_of_int i * base_len)%float in
      let '(fx, evaluated) := call_f x evaluated in
      Trap_loop iters' (i + 1) left_endpt base_len (estimate + fx)%float evaluated
  end.

(** [Trap], lines 162-178, together with the record of the calls of [f]. *)
Definition Trap_calls (left_endpt right_endpt : float) (trap_count : Z)
    (base_len : float) : float * list float :=
  let '(fl, evaluated) := call_f left_endpt [] in
  let '(fr, evaluated) := call_f right_endpt evaluated in
  let estimate := ((fl + fr) / 2)%float in
  let '(estimate, evaluated) :=
    Trap_loop (Z.to_nat (trap_count - 1)) 1 left_endpt base_len estimate evaluated in
  ((estimate * base_len)%float, evaluated).

Definition Trap (left_endpt right_endpt : float) (trap_count : Z)
    (base_len : float) : float :=
  fst (Trap_calls left_endpt right_endpt trap_count base_len).

(** The interior points of the rule, as the formula names them. *)
Definition interior_points (left_endpt base_len : float) (trap_count : Z) : list float :=
  map (fun i => (left_endpt + double_of_int (Z.of_nat i) * base_len)%float)
      (seq 1 (Z.to_nat (trap_count - 1))).

(** A sum accumulated from the left, starting from [init]. *)
Definition sum_from (init : float) (terms : list float) : float :=
  fold_left PrimFloat.add terms init.

(** ** Processes *)

(** The payload of one message: one [MPI_DOUBLE] or one [MPI_INT]. *)
Inductive value : Type :=
| VDouble (d : float)
| VInt (z : Z).

(** The four [printf] statements of the program. *)
Inductive output : Type :=
| out_I_am (my_rank : Z)                     (* line 120 *)
| out_input_values (a b : float) (n : Z)     (* line 125 *)
| out_trapezoids (n : Z)                     (* line 86 *)
| out_estimate (a b total_int : float).      (* lines 87-88 *)

(** The ways in which the program can leave defined behaviour. *)
Inductive fault : Type :=
| remainder_by_zero      (* [x % 0] *)
| type_mismatch          (* a message of one type received into the other *)
| null_stream            (* [fscanf] on the NULL that [fopen] returned *)
| int_conversion.        (* a [double] that is not an [int] converted to [int] *)

(** What a process does next.  Every message of the program has tag 0 and
    travels in MPI_COMM_WORLD, so neither is recorded.  [Undefined] stands for
    an execution that C or MPI leaves undefined. *)
Inductive proc (A : Type) : Type :=
| Ret (x : A)
| MPI_Send (v : value) (dest : Z) (k : proc A)
| MPI_Recv (source : Z) (k : value -> proc A)
| printf (o : output) (k : proc A)
| Undefined (why : fault).

Arguments Ret {A} x.
Arguments MPI_Send {A} v dest k.
Arguments MPI_Recv {A} source k.
Arguments printf {A} o k.
Arguments Undefined {A} why.

Fixpoint bind {A B : Type} (p : proc A) (g : A -> proc B) : proc B :=
  match p with
  | Ret x => g x
  | MPI_Send v dest k => MPI_Send v dest (bind k g)
  | MPI_Recv source k => MPI_Recv source (fun v => bind (k v) g)
  | printf o k => printf o (bind k g)
  | Undefined why => Undefined why
  end.

Notation "x <- p ;; q" := (bind p (fun x => q))
  (at level 61, p at next level, right associativity).
Notation "' pat <- p ;; q" := (bind p (fun x => match x with pat => q end))
  (at level 61, pat pattern, p at next level, right associativity).

(** [MPI_Recv(buf, 1, MPI_DOUBLE, source, ...)]: a message of the other type
    does not match the receive buffer. *)
Definition recv_double {A : Type} (source : Z) (k : float -> proc A) : proc A :=
  MPI_Recv source (fun v => match v with VDouble d => k d | VInt _ => Undefined type_mismatch end).

(** [MPI_Recv(buf, 1, MPI_INT, source, ...)]. *)
Definition recv_int {A : Type} (source : Z) (k : Z -> proc A) : proc A :=
  MPI_Recv source (fun v => match v with VInt z => k z | VDouble _ => Undefined type_mismatch end).

(** ** Get_input *)

(** [ceil(x)] for a finite [x], as an integer; an infinity or a NaN has none. *)
Definition ceil (x : float) : option Z :=
  match Prim2SF x with
  | S754_zero _ => Some 0
  | S754_finite s m e =>
      let num := if s then Z.neg m else Z.pos m in
      Some (if 0 <=? e then num * 2 ^ e else - ((- num) / 2 ^ (- e)))
  | S754_infinity _ | S754_nan => None
  end.

(** Lines 112-113: [count], computed in double precision from the [log] of
    libm.  The assignment converts the [double] that [ceil] returns to [int],
    which is undefined ([None]) when it is not an [int]. *)
Definition Get_input_count (log : float -> float) (comm_sz : Z) : option Z :=
  let baseChangeResult := (log (double_of_int comm_sz) / log 2)%float in
  match ceil baseChangeResult with
  | Some count => if (- 2 ^ 31 <=? count) && (count <? 2 ^ 31) then Some count else None
  | None => None
  end.

(** Line 115: [pow(2, count)] converted to [int].  The power is [2 ^ count]
    itself; for a negative [count] it is below 1 and truncates to 0, which is
    what [2 ^ count] is in [Z]; from [count = 31] on it is not an [int]. *)
Definition Get_input_divisor (count : Z) : option Z :=
  if count <=? 30 then Some (2 ^ count) else None.

(** The number of iterations that the comment on line 110 announces,
    [ceil(log2 comm_sz)] over the reals, to compare [Get_input_count] with. *)
Definition exact_count (comm_sz : Z) : Z := Z.log2_up comm_sz.

(** The three branches of lines 131-143. *)
Inductive role : Type := Sender | Receiver | Idle.

(** The tests of lines 131 and 137, in the order C evaluates them.  [None] is
    a remainder by zero. *)
Definition role_of (my_rank comm_sz divisor core_difference : Z) : option role :=
  if divisor =? 0 then None
  else if (Z.rem my_rank divisor =? 0) && (my_rank + core_difference <? comm_sz)
  then Some Sender
  else if core_difference =? 0 then None
  else if Z.rem my_rank core_difference =? 0 then Some Receiver
  else Some Idle.

(** The loop of lines 130-146 with [iters] iterations left; [a], [b], [n] are
    the contents of [*a_p], [*b_p], [*n_p]. *)
Fixpoint bcast_loop (iters : nat) (my_rank comm_sz divisor core_difference : Z)
    (a b : float) (n : Z) : proc (float * float * Z) :=
  match iters with
  | O => Ret (a, b, n)
  | S iters' =>
      let next := bcast_loop iters' my_rank comm_sz
                             (divisor ÷ 2) (core_difference ÷ 2) in
      match role_of my_rank comm_sz divisor core_difference with
      | None => Undefined remainder_by_zero
      | Some Sender =>
          MPI_Send (VDouble a) (my_rank + core_difference)
            (MPI_Send (VDouble b) (my_rank + core_difference)
               (MPI_Send (VInt n) (my_rank + core_difference)
                  (next a b n)))
      | Some Receiver =>
          recv_double (my_rank - core_difference) (fun a =>
            recv_double (my_rank - core_difference) (fun b =>
              recv_int (my_rank - core_difference) (fun n =>
                next a b n)))
      | Some Idle => next a b n
      end
  end.

(** The values of [(divisor, core_difference)] at the start of each iteration,
    first iteration first. *)
Fixpoint loop_operands (iters : nat) (divisor core_difference : Z) : list (Z * Z) :=
  match iters with
  | O => []
  | S iters' =>
      (divisor, core_difference)
        :: loop_operands iters' (divisor ÷ 2) (core_difference ÷ 2)
  end.

(** The body of the loop, lines 131-143, run once with each pair of
    [operands], in order. *)
Fixpoint bcast_over (operands : list (Z * Z)) (my_rank comm_sz : Z)
    (a b : float) (n : Z) : proc (float * float * Z) :=
  match operands with
  | [] => Ret (a, b, n)
  | (divisor, core_difference) :: operands' =>
      let next := bcast_over operands' my_rank comm_sz in
      match role_of my_rank comm_sz divisor core_difference with
      | None => Undefined remainder_by_zero
      | Some Sender =>
          MPI_Send (VDouble a) (my_rank + core_difference)
            (MPI_Send (VDouble b) (my_rank + core_difference)
               (MPI_Send (VInt n) (my_rank + core_difference)
                  (next a b n)))
      | Some Receiver =>
          recv_double (my_rank - core_difference) (fun a =>
            recv_double (my_rank - core_difference) (fun b =>
              recv_int (my_rank - core_difference) (fun n =>
                next a b n)))
      | Some Idle => next a b n
      end
  end.

(** What [fscanf(fp, "%lf %lf %d", ...)] converted before it stopped. *)
Inductive scanned : Type :=
| scanned_none
| scanned_a (a : float)
| scanned_ab (a b : float)
| scanned_abn (a b : float) (n : Z).

(** The input file as [fopen] and [fscanf] see it. *)
Inductive input_file : Type :=
| file_absent
| file_with (s : scanned).

(** [fscanf] assigns the converted items and leaves the others as they were. *)
Definition fscanf (s : scanned) (a b : float) (n : Z) : float * float * Z :=
  match s with
  | scanned_none => (a, b, n)
  | scanned_a a' => (a', b, n)
  | scanned_ab a' b' => (a', b', n)
  | scanned_abn a' b' n' => (a', b', n')
  end.

(** Lines 119-127, for the process of rank 0.  With no file [fopen] returns
    NULL and [fscanf] is called on it. *)
Definition read_input (file : input_file) (my_rank : Z) (a b : float) (n : Z)
    : proc (float * float * Z) :=
  printf (out_I_am my_rank)
    match file with
    | file_absent => Undefined null_stream
    | file_with s =>
        let '(a, b, n) := fscanf s a b n in
        printf (out_input_values a b n) (Ret (a, b, n))
    end.

(** Lines 119-146: [Get_input] once [count] and [divisor] are set. *)
Definition Get_input_from (count divisor : Z) (file : input_file)
    (my_rank comm_sz : Z) (a b : float) (n : Z) : proc (float * float * Z) :=
  let core_difference := divisor ÷ 2 in
  ' (a, b, n) <- (if my_rank =? 0 then read_input file my_rank a b n
                  else Ret (a, b, n)) ;;
  bcast_loop (Z.to_nat count) my_rank comm_sz divisor core_difference a b n.

(** [Get_input], lines 107-148. *)
Definition Get_input (log : float -> float) (file : input_file)
    (my_rank comm_sz : Z) (a b : float) (n : Z) : proc (float * float * Z) :=
  match Get_input_count log comm_sz with
  | None => Undefined int_conversion
  | Some count =>
      match Get_input_divisor count with
      | None => Undefined int_conversion
      | Some divisor => Get_input_from count divisor file my_rank comm_sz a b n
      end
  end.

(** ** main *)

(** Lines 61-68. *)
Record partition : Type := Partition {
  h : float;
  local_n : Z;
  local_a : float;
  local_b : float
}.

Definition main_partition (my_rank comm_sz : Z) (a b : float) (n : Z) : partition :=
  let h := ((b - a) / double_of_int n)%float in
  let local_n := n ÷ comm_sz in
  let local_a := (a + double_of_int (int_mul my_rank local_n) * h)%float in
  let local_b := (local_a + double_of_int local_n * h)%float in
  Partition h local_n local_a local_b.

(** The loop of lines 77-81. *)
Fixpoint Reduce_loop (iters : nat) (source : Z) (total_int : float) : proc float :=
  match iters with
  | O => Ret total_int
  | S iters' =>
      recv_double source (fun local_int =>
        Reduce_loop iters' (source + 1) (total_int + local_int)%float)
  end.

(** Lines 72-82; the result is the content of [total_int] afterwards. *)
Definition Reduce (my_rank comm_sz : Z) (local_int total_int : float) : proc float :=
  if negb (my_rank =? 0) then MPI_Send (VDouble local_int) 0 (Ret total_int)
  else Reduce_loop (Z.to_nat (comm_sz - 1)) 1 local_int.

(** Lines 61-89: what [main] does once [Get_input] has returned. *)
Definition main_after_input (my_rank comm_sz : Z) (a b : float) (n : Z)
    (total_int : float) : proc unit :=
  let p := main_partition my_rank comm_sz a b n in
  let local_int := Trap (local_a p) (local_b p) (local_n p) (h p) in
  total_int <- Reduce my_rank comm_sz local_int total_int ;;
  if my_rank =? 0
  then printf (out_trapezoids n) (printf (out_estimate a b total_int) (Ret tt))
  else Ret tt.

(** [main], lines 44-95, for the process of rank [my_rank] in a group of
    [comm_sz]. *)
Definition main (log : float -> float) (file : input_file) (my_rank comm_sz : Z)
    (a b : float) (n : Z) (total_int : float) : proc unit :=
  ' (a, b, n) <- Get_input log file my_rank comm_sz a b n ;;
  main_after_input my_rank comm_sz a b n total_int.

(** ** A group of processes *)

(** Facts about one process that the semantics and the theorems refer to. *)
Definition result {A : Type} (p : proc A) : option A :=
  match p with Ret x => Some x | _ => None end.

Definition waiting_on {A : Type} (p : proc A) : option Z :=
  match p with MPI_Recv source _ => Some source | _ => None end.

(** [p] makes no call of [printf], whatever it receives. *)
Inductive silent {A : Type} : proc A -> Prop :=
| silent_ret x : silent (Ret x)
| silent_send v dest k : silent k -> silent (MPI_Send v dest k)
| silent_recv source k : (forall v, silent (k v)) -> silent (MPI_Recv source k)
| silent_undefined why : silent (Undefined why).

(** [p] only sends, and returns [x]. *)
Inductive sends_then_returns {A : Type} (x : A) : proc A -> Prop :=
| str_ret : sends_then_returns x (Ret x)
| str_send v dest k :
    sends_then_returns x k -> sends_then_returns x (MPI_Send v dest k).

(** [p] never leaves defined behaviour by [w], whatever it receives. *)
Inductive never {A : Type} (w : fault) : proc A -> Prop :=
| never_ret x : never w (Ret x)
| never_send v dest k : never w k -> never w (MPI_Send v dest k)
| never_recv source k : (forall v, never w (k v)) -> never w (MPI_Recv source k)
| never_printf o k : never w k -> never w (printf o k)
| never_other w' : w' <> w -> never w (Undefined w').

(** [p] sends nothing to [dest], whatever it receives. *)
Inductive no_send_to {A : Type} (dest : Z) : proc A -> Prop :=
| nst_ret x : no_send_to dest (Ret x)
| nst_send v d k : d <> dest -> no_send_to dest k -> no_send_to dest (MPI_Send v d k)
| nst_recv source k :
    (forall v, no_send_to dest (k v)) -> no_send_to dest (MPI_Recv source k)
| nst_printf o k : no_send_to dest k -> no_send_to dest (printf o k)
| nst_undefined why : no_send_to dest (Undefined why).

(** [p] cannot return before it has received a message from [source]. *)
Inductive awaits {A : Type} (source : Z) : proc A -> Prop :=
| awaits_here k : awaits source (MPI_Recv source k)
| awaits_send v d k : awaits source k -> awaits source (MPI_Send v d k)
| awaits_recv s k : (forall v, awaits source (k v)) -> awaits source (MPI_Recv s k)
| awaits_printf o k : awaits source k -> awaits source (printf o k)
| awaits_undefined why : awaits source (Undefined why).

Section Network.
Context {A : Type}.

(** The size of the group, the processes by rank, the messages in flight
    from [s] to [d] (oldest first), and the lines printed so far with the
    rank that printed them. *)
Record net : Type := Net {
  size : Z;
  procs : Z -> proc A;
  chan : Z -> Z -> list value;
  out : list (Z * output)
}.

Definition set_proc (r : Z) (p : proc A) (ps : Z -> proc A) : Z -> proc A :=
  fun x => if x =? r then p else ps x.

Definition set_chan (s d : Z) (q : list value) (c : Z -> Z -> list value)
    : Z -> Z -> list value :=
  fun x y => if (x =? s) && (y =? d) then q else c x y.

(** Two states with the same processes, channels and output. *)
Definition same (x y : net) : Prop :=
  size x = size y /\
  (forall r, procs x r = procs y r) /\
  (forall s d, chan x s d = chan y s d) /\
  out x = out y.

Definition in_group (x : net) (r : Z) : Prop := 0 <= r < size x.

(** One action of one process of the group.  A send completes at once and
    its message waits in the channel (the most an MPI library may buffer); a
    receive takes the oldest message from the rank it names. *)
Inductive step (x y : net) : Prop :=
| step_send s v d k :
    in_group x s -> in_group x d ->
    procs x s = MPI_Send v d k ->
    same y (Net (size x) (set_proc s k (procs x))
                (set_chan s d (chan x s d ++ [v]) (chan x)) (out x)) ->
    step x y
| step_recv r s k v q :
    in_group x r ->
    procs x r = MPI_Recv s k ->
    chan x s r = v :: q ->
    same y (Net (size x) (set_proc r (k v) (procs x))
                (set_chan s r q (chan x)) (out x)) ->
    step x y
| step_printf r o k :
    in_group x r ->
    procs x r = printf o k ->
    same y (Net (size x) (set_proc r k (procs x)) (chan x) (out x ++ [(r, o)])) ->
    step x y.

Inductive steps (x : net) : net -> Prop :=
| steps_refl y : same y x -> steps x y
| steps_more y z : steps x y -> step y z -> steps x z.

(** Every process of the group has returned. *)
Definition finished (x : net) : Prop :=
  forall r, in_group x r -> exists v, procs x r = Ret v.

(** No message is in flight. *)
Definition quiet (x : net) : Prop := forall s d, chan x s d = [].

Definition ranks (comm_sz : Z) : list Z :=
  map Z.of_nat (seq 0 (Z.to_nat comm_sz)).

Definition is_rank (x : net) (r : Z) : bool := (0 <=? r) && (r <? size x).

(** Every process of the group has returned, has left defined behaviour, or
    waits for a message on an empty channel. *)
Definition all_blocked (x : net) : bool :=
  forallb (fun r => match procs x r with
                    | Ret _ | Undefined _ => true
                    | MPI_Recv s _ => match chan x s r with [] => true | _ => false end
                    | MPI_Send _ d _ => negb (is_rank x d)
                    | printf _ _ => false
                    end)
          (ranks (size x)).

(** *** A synchronous schedule

    A send and its matching receive complete together, as when the library
    buffers nothing. *)
Definition handoff (x : net) (r : Z) : option net :=
  match procs x r with
  | printf o k =>
      Some (Net (size x) (set_proc r k (procs x)) (chan x) (out x ++ [(r, o)]))
  | MPI_Send v d k =>
      match procs x d with
      | MPI_Recv s k' =>
          if (s =? r) && is_rank x d
          then Some (Net (size x) (set_proc d (k' v) (set_proc r k (procs x)))
                         (chan x) (out x))
          else None
      | _ => None
      end
  | _ => None
  end.

Fixpoint first_enabled (x : net) (rs : list Z) : option net :=
  match rs with
  | [] => None
  | r :: rs' =>
      match handoff x r with
      | Some y => Some y
      | None => first_enabled x rs'
      end
  end.

(** At most [fuel] handoffs, lowest enabled rank first; stops when none is
    enabled. *)
Fixpoint schedule (fuel : nat) (x : net) : net :=
  match fuel with
  | O => x
  | S fuel' =>
      match first_enabled x (ranks (size x)) with
      | Some y => schedule fuel' y
      | None => x
      end
  end.
End Network.

Arguments net A : clear implicits.

(** Rank [d] has to receive from rank [s], rank [s] has nothing to send to
    [d], and nothing is on its way from [s] to [d]. *)
Definition starved {A : Type} (s d : Z) (x : net A) : Prop :=
  chan x s d = [] /\ no_send_to d (procs x s) /\ awaits s (procs x d).

(** [p] cannot return before it has received a message from a rank below 0. *)
Inductive awaits_outsider {A : Type} : proc A -> Prop :=
| outsider_here s k : s < 0 -> awaits_outsider (MPI_Recv s k)
| outsider_printf o k : awaits_outsider k -> awaits_outsider (printf o k).

(** Rank [d] has to receive from a rank below 0, and nothing is on its way to
    [d] from such a rank. *)
Definition waits_outside {A : Type} (d : Z) (x : net A) : Prop :=
  awaits_outsider (procs x d) /\ forall s, s < 0 -> chan x s d = [].

(** The group at the call of [Get_input]: rank [r] enters with the arbitrary
    contents [a r], [b r], [n r] of its variables [a], [b], [n]. *)
Definition Get_input_net (log : float -> float) (file : input_file) (comm_sz : Z)
    (a b : Z -> float) (n : Z -> Z) : net (float * float * Z) :=
  Net comm_sz (fun r => Get_input log file r comm_sz (a r) (b r) (n r))
      (fun _ _ => []) [].

(** The group at line 72: rank [r] holds [local_int r], and [total_int r] is
    the arbitrary content of its variable [total_int]. *)
Definition Reduce_net (comm_sz : Z) (local_int total_int : Z -> float) : net float :=
  Net comm_sz (fun r => Reduce r comm_sz (local_int r) (total_int r))
      (fun _ _ => []) [].

(** The whole program. *)
Definition main_net (log : float -> float) (file : input_file) (comm_sz : Z)
    (a b : Z -> float) (n : Z -> Z) (total_int : Z -> float) : net unit :=
  Net comm_sz (fun r => main log file r comm_sz (a r) (b r) (n r) (total_int r))
      (fun _ _ => []) [].

(** The local estimates of ranks [1 .. comm_sz - 1], in rank order. *)
Definition others (comm_sz : Z) (local_int : Z -> float) : list float :=
  map (fun r => local_int (Z.of_nat r)) (seq 1 (Z.to_nat (comm_sz - 1))).

(** The ranks a process receives from, in order, when the message it gets
    from rank [s] is [feed s]. *)
Fixpoint sources_along {A : Type} (feed : Z -> value) (p : proc A) : list Z :=
  match p with
  | Ret _ => []
  | MPI_Send _ _ k => sources_along feed k
  | MPI_Recv source k => source :: sources_along feed (k (feed source))
  | printf _ k => sources_along feed k
  | Undefined _ => []
  end.

(** The sum the root holds after it has added the estimates of ranks
    [1 .. j] to its own. *)
Definition partial_total (local_int : Z -> float) (j : nat) : float :=
  sum_from (local_int 0) (map (fun r => local_int (Z.of_nat r)) (seq 1 j)).

(** The reduction after the root has received from ranks [1 .. j], with no
    message in flight. *)
Definition Reduce_state (comm_sz : Z) (local_int total_int : Z -> float) (j : nat)
    : net float :=
  Net comm_sz
      (fun r =>
         if r =? 0
         then Reduce_loop (Z.to_nat (comm_sz - 1) - j) (1 + Z.of_nat j)
                          (partial_total local_int j)
         else if (0 <? r) && (r <=? Z.of_nat j) then Ret (total_int r)
         else MPI_Send (VDouble (local_int r)) 0 (Ret (total_int r)))
      (fun _ _ => []) [].

(** What holds of every state of the reduction: the root has received from
    ranks [1 .. j] in this order; every other rank has not sent yet, or its
    estimate waits in its channel to the root, or the root has taken it. *)
Definition Reduce_inv (comm_sz : Z) (local_int total_int : Z -> float)
    (x : net float) : Prop :=
  size x = comm_sz /\
  exists j : nat,
    (j <= Z.to_nat (comm_sz - 1))%nat /\
    procs x 0 = Reduce_loop (Z.to_nat (comm_sz - 1) - j) (1 + Z.of_nat j)
                            (partial_total local_int j) /\
    forall r, 1 <= r < comm_sz ->
      (procs x r = MPI_Send (VDouble (local_int r)) 0 (Ret (total_int r)) /\
       chan x r 0 = [] /\ Z.of_nat j < r) \/
      (procs x r = Ret (total_int r) /\
       chan x r 0 = [VDouble (local_int r)] /\ Z.of_nat j < r) \/
      (procs x r = Ret (total_int r) /\ chan x r 0 = [] /\ r <= Z.of_nat j).

(** Every line printed so far was printed by rank 0, and no other rank will
    print. *)
Definition only_root_printed {A : Type} (x : net A) : Prop :=
  (forall r o, In (r, o) (out x) -> r = 0) /\
  (forall r, r <> 0 -> silent (procs x r)).

(** *** What the broadcast carries

    The three messages of one transfer are the components of the root's
    [(a, b, n)], in this order. *)
Definition component (a0 b0 : float) (n0 : Z) (position : nat) : value :=
  match position with
  | 0%nat => VDouble a0
  | 1%nat => VDouble b0
  | _ => VInt n0
  end.

Definition next_position (position : nat) : nat :=
  match position with
  | 0%nat => 1%nat
  | 1%nat => 2%nat
  | _ => 0%nat
  end.

(** Where a process stands: between two transfers, or inside one, after
    [position] of its three messages. *)
Inductive stage : Type :=
| Between
| Sending (dest : Z) (position : nat)
| Receiving (source : Z) (position : nat).

Definition sent_to (st : stage) (d : Z) : nat :=
  match st with
  | Sending dest position => if dest =? d then position else 0%nat
  | _ => 0%nat
  end.

Definition received_from (st : stage) (s : Z) : nat :=
  match st with
  | Receiving source position => if source =? s then position else 0%nat
  | _ => 0%nat
  end.

(** [carries a0 b0 n0 informed st p]: as long as the messages it receives are
    the components of [(a0, b0, n0)] in order, the process [p], standing at
    [st], sends only these components in order and returns [(a0, b0, n0)].
    A process that is not [informed] neither sends nor returns before it has
    received a whole transfer. *)
Inductive carries (a0 b0 : float) (n0 : Z)
  : bool -> stage -> proc (float * float * Z) -> Prop :=
| carries_ret : carries a0 b0 n0 true Between (Ret (a0, b0, n0))
| carries_send_a d k :
    carries a0 b0 n0 true (Sending d 1) k ->
    carries a0 b0 n0 true Between (MPI_Send (VDouble a0) d k)
| carries_send_b d k :
    carries a0 b0 n0 true (Sending d 2) k ->
    carries a0 b0 n0 true (Sending d 1) (MPI_Send (VDouble b0) d k)
| carries_send_n d k :
    carries a0 b0 n0 true Between k ->
    carries a0 b0 n0 true (Sending d 2) (MPI_Send (VInt n0) d k)
| carries_recv_a informed s k :
    carries a0 b0 n0 informed (Receiving s 1) (k (VDouble a0)) ->
    carries a0 b0 n0 informed Between (MPI_Recv s k)
| carries_recv_b informed s k :
    carries a0 b0 n0 informed (Receiving s 2) (k (VDouble b0)) ->
    carries a0 b0 n0 informed (Receiving s 1) (MPI_Recv s k)
| carries_recv_n informed s k :
    carries a0 b0 n0 true Between (k (VInt n0)) ->
    carries a0 b0 n0 informed (Receiving s 2) (MPI_Recv s k)
| carries_printf informed st o k :
    carries a0 b0 n0 informed st k ->
    carries a0 b0 n0 informed st (printf o k)
| carries_undefined informed st w :
    carries a0 b0 n0 informed st (Undefined w).

(** The messages in flight on one channel: the components from the position
    the receiver has reached up to the position the sender has reached. *)
Inductive in_flight (a0 b0 : float) (n0 : Z) : nat -> list value -> nat -> Prop :=
| in_flight_nil position : in_flight a0 b0 n0 position [] position
| in_flight_cons position l sent :
    in_flight a0 b0 n0 (next_position position) l sent ->
    in_flight a0 b0 n0 position (component a0 b0 n0 position :: l) sent.

(** What holds of every state of the broadcast of [(a0, b0, n0)]. *)
Definition broadcast_inv (a0 b0 : float) (n0 : Z) (x : net (float * float * Z)) : Prop :=
  exists (st : Z -> stage) (informed : Z -> bool),
    (forall r, in_group x r -> carries a0 b0 n0 (informed r) (st r) (procs x r)) /\
    (forall s d, in_flight a0 b0 n0 (received_from (st d) s) (chan x s d)
                           (sent_to (st s) d)).

(** *** The broadcast in a group of [2 ^ t], iteration by iteration

    [bcast_level ... i r] is the process of rank [r] at the start of iteration
    [i]: the multiples of the divisor [2 ^ (t - i)] hold the root's values
    [(a0, b0, n0)], the other ranks what they held at first. *)
Definition bcast_level (log : float -> float) (file : input_file) (t : Z)
    (a b : Z -> float) (n : Z -> Z)
    (a0 b0 : float) (n0 : Z) (i : nat) (r : Z) : proc (float * float * Z) :=
  if (0 <=? r) && (r <? 2 ^ t)
  then
    let e := t - Z.of_nat i in
    if Z.rem r (2 ^ e) =? 0
    then bcast_loop (Z.to_nat e) r (2 ^ t) (2 ^ e) (2 ^ e ÷ 2) a0 b0 n0
    else bcast_loop (Z.to_nat e) r (2 ^ t) (2 ^ e) (2 ^ e ÷ 2) (a r) (b r) (n r)
  else Get_input log file r (2 ^ t) (a r) (b r) (n r).

(** The state in iteration [i] when the first [q] senders, the multiples of the
    divisor below [q * 2 ^ (t - i)], have handed the values to their partners. *)
Definition bcast_state (log : float -> float) (file : input_file) (t : Z)
    (a b : Z -> float) (n : Z -> Z)
    (a0 b0 : float) (n0 : Z) (i : nat) (q : Z) : net (float * float * Z) :=
  Net (2 ^ t)
      (fun r => if r <? q * 2 ^ (t - Z.of_nat i)
                then bcast_level log file t a b n a0 b0 n0 (S i) r
                else bcast_level log file t a b n a0 b0 n0 i r)
      (fun _ _ => [])
      [(0, out_I_am 0); (0, out_input_values a0 b0 n0)].

(** *** The peers a process names

    Every rank [p] passes to [MPI_Send] or [MPI_Recv], whatever it receives, is
    a rank of the group other than its own rank [me]. *)
Inductive peers_valid {A : Type} (me comm_sz : Z) : proc A -> Prop :=
| peers_ret x : peers_valid me comm_sz (Ret x)
| peers_send v d k :
    0 <= d < comm_sz -> d <> me -> peers_valid me comm_sz k ->
    peers_valid me comm_sz (MPI_Send v d k)
| peers_recv s k :
    0 <= s < comm_sz -> s <> me -> (forall v, peers_valid me comm_sz (k v)) ->
    peers_valid me comm_sz (MPI_Recv s k)
| peers_printf o k : peers_valid me comm_sz k -> peers_valid me comm_sz (printf o k)
| peers_undefined w : peers_valid me comm_sz (Undefined w).

(** *** The program as a whole *)

(** The estimate of one rank: [Trap] on its part of the interval, lines 61-69. *)
Definition local_estimate (my_rank comm_sz : Z) (a b : float) (n : Z) : float :=
  let p := main_partition my_rank comm_sz a b n in
  Trap (local_a p) (local_b p) (local_n p) (h p).

(** The estimates of ranks [0, 1, ..., comm_sz - 1] added in this order. *)
Definition expected_total (comm_sz : Z) (a b : float) (n : Z) : float :=
  sum_from (local_estimate 0 comm_sz a b n)
           (others comm_sz (fun r => local_estimate r comm_sz a b n)).

(** The four lines of a run on the input [(a, b, n)]. *)
Definition expected_output (comm_sz : Z) (a b : float) (n : Z) : list output :=
  [out_I_am 0; out_input_values a b n; out_trapezoids n;
   out_estimate a b (expected_total comm_sz a b n)].

(** The two lines of lines 86-88. *)
Definition is_result (o : output) : bool :=
  match o with
  | out_trapezoids _ | out_estimate _ _ _ => true
  | _ => false
  end.

(** A group seen from inside a longer program: a process of the group that
    returns [v] goes on with [g r v], the processes outside the group are
    [outside r], and [printed] was printed before. *)
Definition continue_net {A B : Type} (g : Z -> A -> proc B) (outside : Z -> proc B)
    (printed : list (Z * output)) (x : net A) : net B :=
  Net (size x)
      (fun r => if is_rank x r then bind (procs x r) (g r) else outside r)
      (chan x) (printed ++ out x).

(** How far a rank other than 0 has got: it does not hold the root's values
    yet, it holds them, or it has sent its estimate to rank 0. *)
Inductive phase : Type := Uninformed | Informed | Reported.

(** [worker_at ... r ph st p]: the process [p] of rank [r <> 0], in phase [ph]
    and at stage [st] of the broadcast, relays the root's [(a0, b0, n0)] to
    ranks other than 0, then sends its estimate on [(a0, b0, n0)] to rank 0
    and returns, as long as what it receives are the components of
    [(a0, b0, n0)] in order. *)
Inductive worker_at (comm_sz : Z) (a0 b0 : float) (n0 : Z) (r : Z)
  : phase -> stage -> proc unit -> Prop :=
| worker_send_a d k :
    d <> 0 -> worker_at comm_sz a0 b0 n0 r Informed (Sending d 1) k ->
    worker_at comm_sz a0 b0 n0 r Informed Between (MPI_Send (VDouble a0) d k)
| worker_send_b d k :
    d <> 0 -> worker_at comm_sz a0 b0 n0 r Informed (Sending d 2) k ->
    worker_at comm_sz a0 b0 n0 r Informed (Sending d 1) (MPI_Send (VDouble b0) d k)
| worker_send_n d k :
    d <> 0 -> worker_at comm_sz a0 b0 n0 r Informed Between k ->
    worker_at comm_sz a0 b0 n0 r Informed (Sending d 2) (MPI_Send (VInt n0) d k)
| worker_recv_a ph s k :
    ph <> Reported ->
    worker_at comm_sz a0 b0 n0 r ph (Receiving s 1) (k (VDouble a0)) ->
    worker_at comm_sz a0 b0 n0 r ph Between (MPI_Recv s k)
| worker_recv_b ph s k :
    ph <> Reported ->
    worker_at comm_sz a0 b0 n0 r ph (Receiving s 2) (k (VDouble b0)) ->
    worker_at comm_sz a0 b0 n0 r ph (Receiving s 1) (MPI_Recv s k)
| worker_recv_n ph s k :
    ph <> Reported ->
    worker_at comm_sz a0 b0 n0 r Informed Between (k (VInt n0)) ->
    worker_at comm_sz a0 b0 n0 r ph (Receiving s 2) (MPI_Recv s k)
| worker_undefined ph st w :
    ph <> Reported -> worker_at comm_sz a0 b0 n0 r ph st (Undefined w)
| worker_report k :
    worker_at comm_sz a0 b0 n0 r Reported Between k ->
    worker_at comm_sz a0 b0 n0 r Informed Between
              (MPI_Send (VDouble (local_estimate r comm_sz a0 b0 n0)) 0 k)
| worker_done : worker_at comm_sz a0 b0 n0 r Reported Between (Ret tt).

(** [root_at ... j pending st p]: the process [p] of rank 0 has added the
    estimates of ranks [1 .. j] to its own; it sends the components of
    [(a0, b0, n0)] to other ranks, receives the estimates of the next ranks in
    order, prints exactly the lines [pending], the two result lines only when
    it has received from every other rank, and returns; or it has left defined
    behaviour, or it waits for a message from a negative rank. *)
Inductive root_at (comm_sz : Z) (a0 b0 : float) (n0 : Z)
  : nat -> list output -> stage -> proc unit -> Prop :=
| root_done : root_at comm_sz a0 b0 n0 (Z.to_nat (comm_sz - 1)) [] Between (Ret tt)
| root_printf j o pending k :
    (is_result o = true -> j = Z.to_nat (comm_sz - 1)) ->
    root_at comm_sz a0 b0 n0 j pending Between k ->
    root_at comm_sz a0 b0 n0 j (o :: pending) Between (printf o k)
| root_send_a j pending d k :
    d <> 0 -> root_at comm_sz a0 b0 n0 j pending (Sending d 1) k ->
    root_at comm_sz a0 b0 n0 j pending Between (MPI_Send (VDouble a0) d k)
| root_send_b j pending d k :
    d <> 0 -> root_at comm_sz a0 b0 n0 j pending (Sending d 2) k ->
    root_at comm_sz a0 b0 n0 j pending (Sending d 1) (MPI_Send (VDouble b0) d k)
| root_send_n j pending d k :
    d <> 0 -> root_at comm_sz a0 b0 n0 j pending Between k ->
    root_at comm_sz a0 b0 n0 j pending (Sending d 2) (MPI_Send (VInt n0) d k)
| root_recv j pending k :
    (j < Z.to_nat (comm_sz - 1))%nat ->
    root_at comm_sz a0 b0 n0 (S j) pending Between
            (k (VDouble (local_estimate (1 + Z.of_nat j) comm_sz a0 b0 n0))) ->
    root_at comm_sz a0 b0 n0 j pending Between (MPI_Recv (1 + Z.of_nat j) k)
| root_waits j pending s k :
    s < 0 -> root_at comm_sz a0 b0 n0 j pending Between (MPI_Recv s k)
| root_undefined j pending st w :
    root_at comm_sz a0 b0 n0 j pending st (Undefined w).

(** What holds of every state of the program on the input [(a0, b0, n0)]. *)
Definition main_inv (comm_sz : Z) (a0 b0 : float) (n0 : Z) (x : net unit) : Prop :=
  size x = comm_sz /\
  exists (st : Z -> stage) (ph : Z -> phase) (j : nat) (printed pending : list output),
    printed ++ pending = expected_output comm_sz a0 b0 n0 /\
    out x = map (fun o => (0, o)) printed /\
    (forall o, In o printed -> is_result o = true -> j = Z.to_nat (comm_sz - 1)) /\
    root_at comm_sz a0 b0 n0 j pending (st 0) (procs x 0) /\
    (forall r, 1 <= r < comm_sz ->
               worker_at comm_sz a0 b0 n0 r (ph r) (st r) (procs x r)) /\
    (forall s d, d <> 0 ->
                 in_flight a0 b0 n0 (received_from (st d) s) (chan x s d)
                           (sent_to (st s) d)) /\
    (forall r, 1 <= r < comm_sz ->
       (ph r <> Reported /\ chan x r 0 = [] /\ Z.of_nat j < r) \/
       (ph r = Reported /\
        chan x r 0 = [VDouble (local_estimate r comm_sz a0 b0 n0)] /\ Z.of_nat j < r) \/
       (ph r = Reported /\ chan x r 0 = [] /\ r <= Z.of_nat j)) /\
    (forall s, s < 0 -> chan x s 0 = []).

(** *** Actions

    One action of one process, by name: what [step] does, the message of a
    receive being the head of the channel. *)
Inductive action (A : Type) : Type :=
| does_send (s : Z) (v : value) (d : Z) (k : proc A)
| does_recv (r s : Z) (k : value -> proc A) (v : value)
| does_printf (r : Z) (o : output) (k : proc A).

Arguments does_send {A} s v d k.
Arguments does_recv {A} r s k v.
Arguments does_printf {A} r o k.

Definition actor {A : Type} (act : action A) : Z :=
  match act with
  | does_send s _ _ _ => s
  | does_recv r _ _ _ => r
  | does_printf r _ _ => r
  end.

Definition enabled {A : Type} (x : net A) (act : action A) : Prop :=
  match act with
  | does_send s v d k => in_group x s /\ in_group x d /\ procs x s = MPI_Send v d k
  | does_recv r s k v =>
      in_group x r /\ procs x r = MPI_Recv s k /\ hd_error (chan x s r) = Some v
  | does_printf r o k => in_group x r /\ procs x r = printf o k
  end.

Definition after {A : Type} (x : net A) (act : action A) : net A :=
  match act with
  | does_send s v d k =>
      Net (size x) (set_proc s k (procs x))
          (set_chan s d (chan x s d ++ [v]) (chan x)) (out x)
  | does_recv r s k v =>
      Net (size x) (set_proc r (k v) (procs x))
          (set_chan s r (tl (chan x s r)) (chan x)) (out x)
  | does_printf r o k =>
      Net (size x) (set_proc r k (procs x)) (chan x) (out x ++ [(r, o)])
  end.

(** An execution of [n] actions. *)
Inductive run {A : Type} : nat -> net A -> net A -> Prop :=
| run_done x y : same y x -> run 0 x y
| run_step n x y z : step x y -> run n y z -> run (S n) x z.

(** *** Estimates that are not numbers

    [p] prints no estimate but a NaN, whatever it receives; a receive from a
    negative rank is never served. *)
Inductive prints_nan : proc unit -> Prop :=
| prints_nan_ret : prints_nan (Ret tt)
| prints_nan_send v d k : prints_nan k -> prints_nan (MPI_Send v d k)
| prints_nan_recv s k : (forall v, prints_nan (k v)) -> prints_nan (MPI_Recv s k)
| prints_nan_waits s k : s < 0 -> prints_nan (MPI_Recv s k)
| prints_nan_printf o k :
    (forall a b e, o = out_estimate a b e -> e = nan) ->
    prints_nan k -> prints_nan (printf o k)
| prints_nan_undefined w : prints_nan (Undefined w).

Definition nan_inv (x : net unit) : Prop :=
  (forall r, prints_nan (procs x r)) /\
  (forall s r, s < 0 -> chan x s r = []) /\
  (forall r a b e, In (r, out_estimate a b e) (out x) -> e = nan).

(** *** A logarithm for the examples

    The double nearest to the natural logarithm, which is also what the [log]
    of glibc returns, at the arguments the examples use: 1, 2, 3, 4, 6,
    [2 ^ 29] and [2 ^ 30 + 1]; a NaN elsewhere. *)
Definition nearest_log (x : float) : float :=
  if (x =? 1)%float then 0
  else if (x =? 2)%float then 0x1.62e42fefa39efp-1
  else if (x =? 3)%float then 0x1.193ea7aad030bp+0
  else if (x =? 4)%float then 0x1.62e42fefa39efp+0
  else if (x =? 6)%float then 0x1.cab0bfa2a2002p+0
  else if (x =? 536870912)%float then 0x1.419ecb712c481p+4
  else if (x =? 1073741825)%float then 0x1.4cb5ecf0e965p+4
  else nan.

(** * Properties *)

Section Program.

(** The [log] of libm. *)
Variable log : float -> float.

(** ** Powers of two and the operands of the broadcast loop *)

Lemma halve_pow2 (e : Z) : 1 <= e -> 2 ^ e ÷ 2 = 2 ^ (e - 1).
Proof.
  intros He.
  replace e with (Z.succ (e - 1)) at 1 by lia.
  rewrite Z.pow_succ_r by lia.
  rewrite Z.mul_comm. apply Z.quot_mul. lia.
Qed.

Lemma pow2_pos (e : Z) : 0 <= e -> 1 <= 2 ^ e.
Proof. intros He. pose proof (Z.pow_pos_nonneg 2 e). lia. Qed.

Lemma pow2_lt (d e : Z) : 0 <= d < e -> 2 ^ d < 2 ^ e.
Proof. intros He. apply Z.pow_lt_mono_r; lia. Qed.

Lemma exact_count_nonneg (comm_sz : Z) : 0 <= exact_count comm_sz.
Proof. apply Z.log2_up_nonneg. Qed.

Lemma exact_count_pos (comm_sz : Z) : 1 < comm_sz -> 1 <= exact_count comm_sz.
Proof. intros Hn. pose proof (Z.log2_up_pos comm_sz Hn). unfold exact_count. lia. Qed.

(** [2 ^ (count - 1) < comm_sz <= 2 ^ count]. *)
Lemma exact_count_spec (comm_sz : Z) :
  1 < comm_sz ->
  2 ^ (exact_count comm_sz - 1) < comm_sz <= 2 ^ exact_count comm_sz.
Proof.
  intros Hn. unfold exact_count.
  pose proof (Z.log2_up_spec comm_sz Hn) as Hs.
  replace (Z.pred (Z.log2_up comm_sz)) with (Z.log2_up comm_sz - 1) in Hs by lia.
  exact Hs.
Qed.

(** The operands halve exactly: at iteration [i] of [m] they are
    [2 ^ (e - i)] and [2 ^ (e - 1 - i)]. *)
Lemma loop_operands_pow2 (m : nat) : forall e : Z,
  Z.of_nat m <= e ->
  loop_operands m (2 ^ e) (2 ^ e ÷ 2) =
  map (fun i => (2 ^ (e - Z.of_nat i), 2 ^ (e - 1 - Z.of_nat i))) (seq 0 m).
Proof.
  induction m as [|m IH]; intros e He; [reflexivity|].
  cbn [loop_operands seq map].
  rewrite halve_pow2 by lia.
  f_equal.
  - f_equal; f_equal; lia.
  - rewrite <- seq_shift, map_map.
    rewrite IH by lia.
    apply map_ext. intros i. f_equal; f_equal; lia.
Qed.

Lemma count_to_nat (comm_sz : Z) :
  Z.of_nat (Z.to_nat (exact_count comm_sz)) = exact_count comm_sz.
Proof. apply Z2Nat.id, exact_count_nonneg. Qed.

(** [comm_sz <= 2 ^ count] for every [count] from the exact one on. *)
Lemma covered_by (comm_sz count : Z) :
  1 <= comm_sz -> exact_count comm_sz <= count -> comm_sz <= 2 ^ count.
Proof.
  intros Hn Hc. pose proof (exact_count_nonneg comm_sz) as H0.
  assert (Hle : 2 ^ exact_count comm_sz <= 2 ^ count) by (apply Z.pow_le_mono_r; lia).
  destruct (Z.eq_dec comm_sz 1) as [->|H1].
  - pose proof (pow2_pos count ltac:(lia)). lia.
  - pose proof (exact_count_spec comm_sz ltac:(lia)). lia.
Qed.

(** [2 ^ (count - 1) < comm_sz] for every [count] up to the exact one. *)
Lemma not_beyond (comm_sz count : Z) :
  1 <= comm_sz -> count <= exact_count comm_sz -> 2 ^ (count - 1) < comm_sz.
Proof.
  intros Hn Hc. destruct (Z.eq_dec comm_sz 1) as [->|H1].
  - change (exact_count 1) with 0 in Hc.
    rewrite Z.pow_neg_r by lia. lia.
  - pose proof (exact_count_spec comm_sz ltac:(lia)) as [Hlo _].
    destruct (Z_lt_ge_dec (count - 1) 0) as [Hneg|Hpos].
    + rewrite Z.pow_neg_r by lia. lia.
    + assert (2 ^ (count - 1) <= 2 ^ (exact_count comm_sz - 1))
        by (apply Z.pow_le_mono_r; lia).
      lia.
Qed.

(** ** The count and the divisor of [Get_input] *)

(** With a count of 30 at most, line 115 gives [2 ^ count] and [Get_input]
    goes on to read the input and to run the loop. *)
Lemma Get_input_defined file my_rank comm_sz a b n count :
  Get_input_count log comm_sz = Some count -> count <= 30 ->
  Get_input log file my_rank comm_sz a b n =
  Get_input_from count (2 ^ count) file my_rank comm_sz a b n.
Proof.
  intros Hc Hle. unfold Get_input, Get_input_divisor. rewrite Hc.
  destruct (Z.leb_spec count 30); [reflexivity|lia].
Qed.

(** Otherwise a conversion to [int] is undefined, at every rank, before
    anything is printed or sent. *)
Lemma Get_input_cases (comm_sz : Z) :
  (exists count,
      Get_input_count log comm_sz = Some count /\ count <= 30 /\
      forall file my_rank a b n,
        Get_input log file my_rank comm_sz a b n =
        Get_input_from count (2 ^ count) file my_rank comm_sz a b n) \/
  ((forall count, Get_input_count log comm_sz = Some count -> 30 < count) /\
   forall file my_rank a b n,
     Get_input log file my_rank comm_sz a b n = Undefined int_conversion).
Proof.
  destruct (Get_input_count log comm_sz) as [count|] eqn:Hc.
  - destruct (Z_le_gt_dec count 30) as [Hle|Hgt].
    + left. exists count. split; [reflexivity|]. split; [exact Hle|].
      intros. now apply Get_input_defined.
    + right. split; [intros c [= <-]; lia|].
      intros. unfold Get_input, Get_input_divisor. rewrite Hc.
      destruct (Z.leb_spec count 30); [lia|reflexivity].
  - right. split; [discriminate|].
    intros. unfold Get_input. now rewrite Hc.
Qed.

Lemma Get_input_from_root (s : scanned) (count comm_sz : Z) (a b : float) (n : Z) :
  Get_input_from count (2 ^ count) (file_with s) 0 comm_sz a b n =
    (let '(a', b', n') := fscanf s a b n in
     printf (out_I_am 0)
       (printf (out_input_values a' b' n')
          (bcast_loop (Z.to_nat count) 0 comm_sz (2 ^ count) (2 ^ count ÷ 2) a' b' n'))).
Proof.
  unfold Get_input_from, read_input. cbn.
  destruct (fscanf s a b n) as [[a' b'] n']. reflexivity.
Qed.

Lemma Get_input_from_nonroot file count my_rank comm_sz a b n :
  my_rank <> 0 ->
  Get_input_from count (2 ^ count) file my_rank comm_sz a b n =
  bcast_loop (Z.to_nat count) my_rank comm_sz (2 ^ count) (2 ^ count ÷ 2) a b n.
Proof.
  intros Hr. unfold Get_input_from. apply Z.eqb_neq in Hr. now rewrite Hr.
Qed.

(** The quotient [0 / x] has the ceiling 0, if it has one. *)
Lemma ceil_zero_div (x : float) (c : Z) : ceil (0 / x) = Some c -> c = 0.
Proof.
  unfold ceil. rewrite div_spec. unfold SF64div, SFdiv.
  change (Prim2SF 0) with (S754_zero false).
  destruct (Prim2SF x) as [sx|sx| |sx mx ex]; congruence.
Qed.

(** The loop is its body run with the operands of [loop_operands], one pair
    after the other. *)
Lemma bcast_loop_over (m : nat) : forall my_rank comm_sz divisor core_difference,
  bcast_loop m my_rank comm_sz divisor core_difference =
  bcast_over (loop_operands m divisor core_difference) my_rank comm_sz.
Proof.
  induction m as [|m IH]; intros; [reflexivity|].
  cbn [bcast_loop loop_operands bcast_over]. now rewrite IH.
Qed.

(** ** The role tests *)

Lemma role_of_defined (my_rank comm_sz divisor core_difference : Z) :
  divisor <> 0 -> core_difference <> 0 ->
  role_of my_rank comm_sz divisor core_difference <> None.
Proof.
  intros Hd Hc. unfold role_of.
  apply Z.eqb_neq in Hd, Hc. rewrite Hd, Hc.
  destruct (Z.rem my_rank divisor =? 0), (my_rank + core_difference <? comm_sz);
    cbn; try easy; destruct (Z.rem my_rank core_difference =? 0); easy.
Qed.

(** The receive branch is taken by the ranks that are multiples of
    [core_difference] and do not take the send branch. *)
Lemma role_of_receiver (my_rank comm_sz divisor core_difference : Z) :
  divisor <> 0 -> core_difference <> 0 ->
  role_of my_rank comm_sz divisor core_difference = Some Receiver <->
  Z.rem my_rank core_difference = 0 /\
  ~ (Z.rem my_rank divisor = 0 /\ my_rank + core_difference < comm_sz).
Proof.
  intros Hd Hc. unfold role_of.
  apply Z.eqb_neq in Hd, Hc. rewrite Hd, Hc.
  destruct (Z.rem my_rank divisor =? 0) eqn:E1;
    destruct (my_rank + core_difference <? comm_sz) eqn:E2;
    destruct (Z.rem my_rank core_difference =? 0) eqn:E3; cbn;
    rewrite ?Z.eqb_eq, ?Z.eqb_neq, ?Z.ltb_lt, ?Z.ltb_ge in *;
    split; try discriminate; try tauto; try lia; intros; try reflexivity;
    try (split; [assumption|lia]).
Qed.

Lemma role_of_sender (my_rank comm_sz divisor core_difference : Z) :
  divisor <> 0 ->
  role_of my_rank comm_sz divisor core_difference = Some Sender <->
  Z.rem my_rank divisor = 0 /\ my_rank + core_difference < comm_sz.
Proof.
  intros Hd. unfold role_of. apply Z.eqb_neq in Hd. rewrite Hd.
  destruct (Z.rem my_rank divisor =? 0) eqn:E1;
    destruct (my_rank + core_difference <? comm_sz) eqn:E2; cbn;
    rewrite ?Z.eqb_eq, ?Z.eqb_neq, ?Z.ltb_lt, ?Z.ltb_ge in *;
    (split; [|intros; try reflexivity; lia]);
    try (intros _; split; [assumption|lia]);
    destruct (core_difference =? 0); try discriminate;
    destruct (Z.rem my_rank core_difference =? 0); discriminate.
Qed.

(** In a group whose size is a power of two, a multiple of [2 ^ j] below the
    size has its partner [2 ^ (j - 1)] further inside the group. *)
Lemma partner_inside (t j k : Z) :
  1 <= j <= t -> 0 <= k < 2 ^ t -> Z.rem k (2 ^ j) = 0 -> k + 2 ^ (j - 1) < 2 ^ t.
Proof.
  intros Hj Hk Hr.
  pose proof (pow2_pos j ltac:(lia)) as Hpj.
  rewrite Z.rem_mod_nonneg in Hr by lia.
  apply Z.mod_divide in Hr; [|lia]. destruct Hr as [q Hq].
  replace t with (j + (t - j)) in * by lia.
  rewrite Z.pow_add_r in * by lia.
  pose proof (pow2_pos (t - j) ltac:(lia)) as Hpt.
  pose proof (pow2_lt (j - 1) j ltac:(lia)).
  assert (q < 2 ^ (t - j)) by nia.
  nia.
Qed.

(** For such a group the receive branch is taken exactly by the odd multiples
    of [core_difference], and the rank each of them names is a sender of the
    same iteration. *)
Lemma role_of_receiver_pow2 (t j k : Z) :
  1 <= j <= t -> 0 <= k < 2 ^ t ->
  role_of k (2 ^ t) (2 ^ j) (2 ^ (j - 1)) = Some Receiver <->
  Z.rem k (2 ^ (j - 1)) = 0 /\ Z.rem k (2 ^ j) <> 0.
Proof.
  intros Hj Hk.
  pose proof (pow2_pos j ltac:(lia)). pose proof (pow2_pos (j - 1) ltac:(lia)).
  rewrite role_of_receiver by lia.
  pose proof (partner_inside t j k Hj Hk).
  tauto.
Qed.

Lemma receiver_source_sends_pow2 (t j k : Z) :
  1 <= j <= t -> 0 <= k < 2 ^ t ->
  role_of k (2 ^ t) (2 ^ j) (2 ^ (j - 1)) = Some Receiver ->
  role_of (k - 2 ^ (j - 1)) (2 ^ t) (2 ^ j) (2 ^ (j - 1)) = Some Sender.
Proof.
  intros Hj Hk Hrole.
  apply role_of_receiver_pow2 in Hrole; [|assumption..].
  destruct Hrole as [Hc Hd].
  pose proof (pow2_pos j ltac:(lia)) as Hpj.
  pose proof (pow2_pos (j - 1) ltac:(lia)) as Hpc.
  assert (Hdc : 2 ^ j = 2 * 2 ^ (j - 1)).
  { replace j with (Z.succ (j - 1)) at 1 by lia. apply Z.pow_succ_r. lia. }
  rewrite Z.rem_mod_nonneg in Hc, Hd by lia.
  apply Z.mod_divide in Hc; [|lia]. destruct Hc as [q Hq].
  assert (Hodd : exists q', q = 2 * q' + 1).
  { exists (q / 2). pose proof (Z.div_mod q 2 ltac:(lia)) as Hdm.
    pose proof (Z.mod_pos_bound q 2 ltac:(lia)) as Hb.
    assert (q mod 2 <> 0).
    { intros H0. apply Hd. apply Z.mod_divide; [lia|].
      exists (q / 2). nia. }
    lia. }
  destruct Hodd as [q' ->].
  assert (0 <= q') by nia.
  apply role_of_sender; [lia|]. split.
  - rewrite Z.rem_mod_nonneg by nia.
    apply Z.mod_divide; [lia|]. exists q'. nia.
  - lia.
Qed.

(** ** Processes in sequence *)

Lemma never_bind {A B : Type} (w : fault) (p : proc A) (g : A -> proc B) :
  never w p -> (forall x, never w (g x)) -> never w (bind p g).
Proof.
  intros Hp Hg. induction Hp; cbn; try (constructor; auto).
  apply Hg.
Qed.

Lemma silent_bind {A B : Type} (p : proc A) (g : A -> proc B) :
  silent p -> (forall x, silent (g x)) -> silent (bind p g).
Proof.
  intros Hp Hg. induction Hp; cbn; try (constructor; auto).
  apply Hg.
Qed.

(** ** The divisors of the broadcast loop *)

Lemma bcast_loop_never_rem (m : nat) : forall e my_rank comm_sz a b n,
  Z.of_nat m <= e ->
  never remainder_by_zero
        (bcast_loop m my_rank comm_sz (2 ^ e) (2 ^ e ÷ 2) a b n).
Proof.
  induction m as [|m IH]; intros e my_rank comm_sz a b n He; cbn [bcast_loop].
  - constructor.
  - pose proof (pow2_pos e ltac:(lia)) as Hd.
    pose proof (pow2_pos (e - 1) ltac:(lia)) as Hc.
    rewrite !(halve_pow2 e) by lia.
    pose proof (role_of_defined my_rank comm_sz (2 ^ e) (2 ^ (e - 1))
                  ltac:(lia) ltac:(lia)) as Hrole.
    destruct (role_of my_rank comm_sz (2 ^ e) (2 ^ (e - 1))) as [[| |]|];
      [| | |congruence].
    + do 3 constructor. apply IH. lia.
    + unfold recv_double, recv_int.
      constructor; intros [a'|]; [|constructor; discriminate].
      constructor; intros [b'|]; [|constructor; discriminate].
      constructor; intros [|n']; [constructor; discriminate|].
      apply IH. lia.
    + apply IH. lia.
Qed.

Lemma operands_in (count i : Z) :
  0 <= i < count -> 2 <= 2 ^ (count - i) /\ 1 <= 2 ^ (count - 1 - i).
Proof.
  intros Hi. split.
  - change 2 with (2 ^ 1) at 1. apply Z.pow_le_mono_r; lia.
  - apply pow2_pos. lia.
Qed.

(** Whatever number of iterations [count] the loop is given, its operands
    start from [2 ^ count] and stay at least 2 and 1. *)
Lemma loop_operands_positive (count : Z) :
  0 <= count ->
  Forall (fun dc => 2 <= fst dc /\ 1 <= snd dc)
         (loop_operands (Z.to_nat count) (2 ^ count) (2 ^ count ÷ 2)).
Proof.
  intros Hc. rewrite loop_operands_pow2 by lia.
  apply Forall_forall. intros dc Hin.
  apply in_map_iff in Hin. destruct Hin as [i [<- Hi]].
  apply in_seq in Hi. cbn [fst snd]. apply operands_in. lia.
Qed.

(** C7, as the code has it.  Where line 113 gives a [count] of 30 at most,
    [Get_input] runs the body of the loop once with each pair of
    [loop_operands], which start from [2 ^ count] and its half; in every
    iteration [divisor >= 2] and [core_difference >= 1], on the last one
    [core_difference] is exactly 1, and no process, whatever its rank and
    whatever it receives, takes a remainder by zero.  With one process and
    [log(1) = 0] the count is 0 and the loop has no iteration. *)
Theorem modulus_operands_positive (comm_sz count : Z) :
  Get_input_count log comm_sz = Some count -> count <= 30 ->
  let operands := loop_operands (Z.to_nat count) (2 ^ count) (2 ^ count ÷ 2) in
  (forall file my_rank a b n,
      Get_input log file my_rank comm_sz a b n =
      (' (a, b, n) <- (if my_rank =? 0 then read_input file my_rank a b n
                       else Ret (a, b, n)) ;;
       bcast_over operands my_rank comm_sz a b n)) /\
  Forall (fun dc => 2 <= fst dc /\ 1 <= snd dc) operands /\
  (1 <= count -> last operands (0, 0) = (2, 1)) /\
  (comm_sz = 1 -> log 1 = 0%float -> count = 0 /\ operands = []) /\
  (forall my_rank, Forall (fun dc => role_of my_rank comm_sz (fst dc) (snd dc) <> None)
                          operands) /\
  (forall file my_rank a b n,
      never remainder_by_zero (Get_input log file my_rank comm_sz a b n)).
Proof.
  intros Hcount Hle operands.
  assert (Hops : count <= 0 -> operands = []).
  { intros H0. unfold operands. destruct count; try lia; reflexivity. }
  assert (Hall : Forall (fun dc => 2 <= fst dc /\ 1 <= snd dc) operands).
  { destruct (Z_le_gt_dec count 0) as [H0|H0].
    - rewrite (Hops H0). constructor.
    - apply loop_operands_positive. lia. }
  split; [|split; [exact Hall|split; [|split; [|split]]]].
  - intros file my_rank a b n.
    rewrite (Get_input_defined file my_rank comm_sz a b n count Hcount Hle).
    unfold Get_input_from. rewrite bcast_loop_over. reflexivity.
  - intros Hpos. unfold operands. rewrite loop_operands_pow2 by lia.
    destruct (Z.to_nat count) as [|m] eqn:Em; [lia|].
    rewrite seq_S, map_app. cbn [map]. rewrite last_last. cbn [Nat.add].
    replace (count - Z.of_nat m) with 1 by lia.
    replace (count - 1 - Z.of_nat m) with 0 by lia.
    reflexivity.
  - intros -> Hlog. unfold Get_input_count in Hcount.
    change (double_of_int 1) with 1%float in Hcount. rewrite Hlog in Hcount.
    destruct (ceil (0 / log 2)) as [c|] eqn:Hceil; [|discriminate Hcount].
    apply ceil_zero_div in Hceil. subst c. cbn in Hcount.
    injection Hcount as <-. split; [reflexivity|]. apply Hops. lia.
  - intros my_rank. eapply Forall_impl; [|exact Hall].
    intros [d c]. cbn [fst snd]. intros [Hd Hc]. apply role_of_defined; lia.
  - intros file my_rank a b n.
    rewrite (Get_input_defined file my_rank comm_sz a b n count Hcount Hle).
    unfold Get_input_from. apply never_bind.
    + destruct (my_rank =? 0); [|constructor].
      unfold read_input. constructor.
      destruct file as [|s]; [constructor; discriminate|].
      destruct (fscanf s a b n) as [[a' b'] n']. do 2 constructor.
    + intros [[a' b'] n'].
      destruct (Z_le_gt_dec count 0) as [H0|H0].
      * replace (Z.to_nat count) with 0%nat by lia. constructor.
      * apply bcast_loop_never_rem. lia.
Qed.

(** ** Rank 0 in the broadcast loop *)

Lemma role_of_root (comm_sz e : Z) :
  1 <= e -> 2 ^ (e - 1) < comm_sz ->
  role_of 0 comm_sz (2 ^ e) (2 ^ (e - 1)) = Some Sender.
Proof.
  intros He Hlt. pose proof (pow2_pos e ltac:(lia)).
  apply role_of_sender; [lia|]. split; [apply Z.rem_0_l; lia | lia].
Qed.

Lemma bcast_loop_root (m : nat) : forall e comm_sz a b n,
  Z.of_nat m <= e -> 2 ^ (e - 1) < comm_sz ->
  sends_then_returns (a, b, n) (bcast_loop m 0 comm_sz (2 ^ e) (2 ^ e ÷ 2) a b n).
Proof.
  induction m as [|m IH]; intros e comm_sz a b n He Hlt; cbn [bcast_loop].
  - constructor.
  - rewrite !(halve_pow2 e) by lia.
    rewrite role_of_root by lia.
    do 3 constructor. apply IH; [lia|].
    destruct (Z.eq_dec e 1) as [Heq|Hne].
    + subst e. cbn in *. lia.
    + pose proof (pow2_lt (e - 1 - 1) (e - 1) ltac:(lia)). lia.
Qed.

(** Where the count is the exact one, rank 0 passes the send test in every
    iteration of the loop; its process consists of sends only, and it leaves
    the loop with the values of [a], [b], [n] it entered with. *)
Lemma root_sends_with_exact_count (comm_sz : Z) (a b : float) (n : Z) :
  1 < comm_sz ->
  let count := exact_count comm_sz in
  Forall (fun dc => role_of 0 comm_sz (fst dc) (snd dc) = Some Sender)
         (loop_operands (Z.to_nat count) (2 ^ count) (2 ^ count ÷ 2)) /\
  sends_then_returns (a, b, n)
    (bcast_loop (Z.to_nat count) 0 comm_sz (2 ^ count) (2 ^ count ÷ 2) a b n).
Proof.
  intros Hn count.
  pose proof (exact_count_nonneg comm_sz) as Hc0. fold count in Hc0.
  pose proof (exact_count_spec comm_sz Hn) as [Hlo _]. fold count in Hlo.
  split.
  - rewrite loop_operands_pow2 by lia.
    apply Forall_forall. intros dc Hin.
    apply in_map_iff in Hin. destruct Hin as [i [<- Hi]].
    apply in_seq in Hi. cbn [fst snd].
    replace (count - 1 - Z.of_nat i) with (count - Z.of_nat i - 1) by lia.
    apply role_of_root; [lia|].
    assert (2 ^ (count - Z.of_nat i - 1) <= 2 ^ (count - 1))
      by (apply Z.pow_le_mono_r; lia).
    lia.
  - apply bcast_loop_root; lia.
Qed.

(** With a count above the exact one rank 0 fails the send test of the first
    iteration, [0 + core_difference < comm_sz], and takes the receive
    branch. *)
Lemma role_of_root_beyond (comm_sz count : Z) :
  1 <= comm_sz -> exact_count comm_sz < count ->
  role_of 0 comm_sz (2 ^ count) (2 ^ (count - 1)) = Some Receiver.
Proof.
  intros Hn Hc. pose proof (exact_count_nonneg comm_sz) as H0.
  pose proof (pow2_pos count ltac:(lia)). pose proof (pow2_pos (count - 1) ltac:(lia)).
  pose proof (covered_by comm_sz (count - 1) Hn ltac:(lia)).
  apply role_of_receiver; [lia|lia|]. split; [apply Z.rem_0_l; lia|]. lia.
Qed.

(** A rank 0 that takes the receive branch in the first iteration names the
    rank [0 - core_difference]. *)
Lemma Get_input_from_root_receives (s : scanned) (count comm_sz : Z) a b n :
  1 <= count ->
  role_of 0 comm_sz (2 ^ count) (2 ^ count ÷ 2) = Some Receiver ->
  exists k,
    Get_input_from count (2 ^ count) (file_with s) 0 comm_sz a b n =
    (let '(a', b', n') := fscanf s a b n in
     printf (out_I_am 0)
       (printf (out_input_values a' b' n') (MPI_Recv (0 - 2 ^ count ÷ 2) k))).
Proof.
  intros Hc Hrole. rewrite Get_input_from_root.
  destruct (fscanf s a b n) as [[a' b'] n'].
  replace (Z.to_nat count) with (S (Z.to_nat (count - 1))) by lia.
  cbn [bcast_loop]. rewrite Hrole. unfold recv_double. eexists. reflexivity.
Qed.

(** ** The count in a group of [2 ^ 29] *)

(** C6 at [comm_sz = 2 ^ 29], with a logarithm rounded to nearest.  The
    quotient [log(comm_sz)/log(2)] comes out just above 29, its ceiling is 30,
    and [Get_input] runs the loop with [count = 30] and [divisor = 2 ^ 30],
    one iteration more than [ceil(log2 comm_sz) = 29].  At the sizes 1, 2, 3,
    4 and 6 the count is the exact one. *)
Theorem count_at_two_to_29 :
  let comm_sz := 2 ^ 29 in
  exact_count comm_sz = 29 /\
  (nearest_log (double_of_int comm_sz) / nearest_log 2)%float
    = 0x1.d000000000001p+4%float /\
  ceil 0x1.d000000000001p+4 = Some 30 /\
  Get_input_count nearest_log comm_sz = Some 30 /\
  (forall file my_rank a b n,
      Get_input nearest_log file my_rank comm_sz a b n =
      Get_input_from 30 (2 ^ 30) file my_rank comm_sz a b n) /\
  Forall (fun N => Get_input_count nearest_log N = Some (exact_count N)) [1; 2; 3; 4; 6].
Proof.
  cbv zeta. split; [reflexivity|]. split; [reflexivity|]. split; [reflexivity|].
  split; [reflexivity|]. split.
  - intros. unfold Get_input.
    replace (Get_input_count nearest_log (2 ^ 29)) with (Some 30) by reflexivity.
    reflexivity.
  - repeat constructor.
Qed.

(** C10 at [comm_sz = 2 ^ 29], with a logarithm rounded to nearest.  The loop
    starts with [divisor = 2 ^ 30] and [core_difference = 2 ^ 29]: rank 0
    fails the send test by [0 + core_difference < comm_sz], takes the receive
    branch, and calls [MPI_Recv] with the source [-(2 ^ 29)]. *)
Theorem root_receives_at_two_to_29 :
  let comm_sz := 2 ^ 29 in
  Get_input_count nearest_log comm_sz = Some 30 /\
  Get_input_divisor 30 = Some (2 ^ 30) /\
  Z.rem 0 (2 ^ 30) = 0 /\ (0 + 2 ^ 30 ÷ 2 <? comm_sz) = false /\
  role_of 0 comm_sz (2 ^ 30) (2 ^ 30 ÷ 2) = Some Receiver /\
  forall s a b n, exists k,
    Get_input nearest_log (file_with s) 0 comm_sz a b n =
    (let '(a', b', n') := fscanf s a b n in
     printf (out_I_am 0)
       (printf (out_input_values a' b' n') (MPI_Recv (- 2 ^ 29) k))).
Proof.
  cbv zeta. split; [reflexivity|]. split; [reflexivity|]. split; [reflexivity|].
  split; [reflexivity|]. split; [reflexivity|].
  intros s a b n.
  destruct (Get_input_from_root_receives s 30 (2 ^ 29) a b n ltac:(lia) eq_refl)
    as [k Hk].
  exists k.
  replace (- 2 ^ 29) with (0 - 2 ^ 30 ÷ 2) by reflexivity.
  rewrite <- Hk. unfold Get_input.
  replace (Get_input_count nearest_log (2 ^ 29)) with (Some 30) by reflexivity.
  reflexivity.
Qed.

(** ** The receive branch in a group of three *)

(** C2.  In a group of three the loop runs twice, and its second iteration
    with [divisor = 2] and [core_difference = 1].  Rank 2 takes the receive
    branch there although [2 % divisor = 0]: it fails the send test only by
    [2 + 1 < 3].  The rank it names, [2 - 1], takes the receive branch as
    well, and the only sender of that iteration, rank 0, sends to rank 1:
    nobody sends to rank 2. *)
Theorem receive_branch_at_three :
  Get_input_count nearest_log 3 = Some 2 /\
  Get_input_divisor 2 = Some 4 /\
  loop_operands (Z.to_nat 2) 4 (4 ÷ 2) = [(4, 2); (2, 1)] /\
  role_of 2 3 2 1 = Some Receiver /\
  Z.rem 2 1 = 0 /\ Z.rem 2 2 = 0 /\
  role_of (2 - 1) 3 2 1 = Some Receiver /\
  (forall k, 0 <= k < 3 -> role_of k 3 2 1 = Some Sender -> k = 0 /\ k + 1 <> 2).
Proof.
  repeat split; try reflexivity.
  - assert (Hk : k = 0 \/ k = 1 \/ k = 2) by lia.
    destruct Hk as [Hk|[Hk|Hk]]; subst k; [reflexivity|discriminate..].
  - assert (Hk : k = 0 \/ k = 1 \/ k = 2) by lia.
    destruct Hk as [Hk|[Hk|Hk]]; subst k; [lia|discriminate..].
Qed.

(** ** Doubles and ints *)

(** IEEE multiplication does not depend on the order of its operands. *)
Lemma double_mul_comm (x y : float) : (x * y)%float = (y * x)%float.
Proof.
  apply Prim2SF_inj. rewrite !mul_spec. unfold SF64mul, SFmul.
  destruct (Prim2SF x) as [sx|sx| |sx mx ex], (Prim2SF y) as [sy|sy| |sy my ey];
    try reflexivity; rewrite (xorb_comm sx sy); try reflexivity.
  now rewrite (Pos.mul_comm mx my), (Z.add_comm ex ey).
Qed.

Lemma int_wrap_in_int (z : Z) : in_int z -> int_wrap z = z.
Proof.
  unfold in_int, int_wrap. intros Hz.
  rewrite Z.mod_small; lia.
Qed.

(** The product of line 67 stays within [int]: it is bounded by [n]. *)
Lemma rank_times_local_n (my_rank comm_sz n : Z) :
  0 <= my_rank < comm_sz -> in_int n ->
  int_mul my_rank (n ÷ comm_sz) = my_rank * (n ÷ comm_sz).
Proof.
  intros Hr Hn. unfold int_mul. apply int_wrap_in_int.
  unfold in_int in *.
  destruct (Z_le_gt_dec 0 n) as [Hpos|Hneg].
  - pose proof (Z.mul_quot_le n comm_sz Hpos ltac:(lia)) as Hq.
    pose proof (Z.quot_pos n comm_sz Hpos ltac:(lia)) as Hq0.
    nia.
  - pose proof (Z.mul_quot_le (- n) comm_sz ltac:(lia) ltac:(lia)) as Hq.
    pose proof (Z.quot_pos (- n) comm_sz ltac:(lia) ltac:(lia)) as Hq0.
    rewrite Z.quot_opp_l in Hq, Hq0 by lia.
    nia.
Qed.

(** ** Trap *)

Lemma sum_from_cons (init x : float) (terms : list float) :
  sum_from init (x :: terms) = sum_from (init + x)%float terms.
Proof. reflexivity. Qed.

Lemma Trap_loop_spec (m : nat) : forall (j : nat) left_endpt base_len estimate evaluated,
  let points :=
    map (fun i => (left_endpt + double_of_int (Z.of_nat i) * base_len)%float) (seq j m) in
  Trap_loop m (Z.of_nat j) left_endpt base_len estimate evaluated =
  (sum_from estimate (map f points), evaluated ++ points).
Proof.
  induction m as [|m IH]; intros j left_endpt base_len estimate evaluated; cbn zeta.
  - cbn. now rewrite app_nil_r.
  - cbn [Trap_loop call_f seq map]. rewrite sum_from_cons.
    replace (Z.of_nat j + 1) with (Z.of_nat (S j)) by lia.
    rewrite IH. cbn zeta. now rewrite <- app_assoc.
Qed.

Lemma Trap_calls_spec (left_endpt right_endpt : float) (trap_count : Z) (base_len : float) :
  let points := interior_points left_endpt base_len trap_count in
  Trap_calls left_endpt right_endpt trap_count base_len =
  ((sum_from ((f left_endpt + f right_endpt) / 2) (map f points) * base_len)%float,
   left_endpt :: right_endpt :: points).
Proof.
  unfold Trap_calls, call_f. cbn zeta.
  change 1 with (Z.of_nat 1).
  rewrite Trap_loop_spec. reflexivity.
Qed.

(** C5, as the code has it.  For every [left_endpt], [right_endpt], [base_len]
    and [trap_count], [Trap] returns [base_len] times the sum, accumulated from
    the left, of [(f(left_endpt) + f(right_endpt))/2] and the values of [f] at
    [left_endpt + i*base_len] for [i = 1 .. trap_count - 1]; it calls [f] at
    the two end points and at these interior points and nowhere else, which
    makes [trap_count + 1] calls when [trap_count >= 1] and two calls when
    [trap_count <= 0]. *)
Theorem Trap_formula (left_endpt right_endpt : float) (trap_count : Z) (base_len : float) :
  let points := interior_points left_endpt base_len trap_count in
  Trap left_endpt right_endpt trap_count base_len =
    (base_len * sum_from ((f left_endpt + f right_endpt) / 2) (map f points))%float /\
  snd (Trap_calls left_endpt right_endpt trap_count base_len) =
    left_endpt :: right_endpt :: points /\
  Z.of_nat (length (snd (Trap_calls left_endpt right_endpt trap_count base_len))) =
    Z.max trap_count 1 + 1.
Proof.
  intros points. unfold Trap. rewrite Trap_calls_spec. fold points. cbn [fst snd].
  split; [apply double_mul_comm|]. split; [reflexivity|].
  cbn [length]. unfold points, interior_points.
  rewrite length_map, length_seq. lia.
Qed.

(** C5 fails for [trap_count = 0]: [Trap] still calls [f] at both end points,
    two calls and not [trap_count + 1 = 1]. *)
Lemma Trap_calls_at_zero :
  snd (Trap_calls 0 0 0 0.5) = [0%float; 0%float] /\
  Z.of_nat (length (snd (Trap_calls 0 0 0 0.5))) <> 0 + 1.
Proof. split; [reflexivity|]. cbn. lia. Qed.

(** ** The partition *)

(** C4.  For every rank of the group and every [a], [b], [n], lines 61-68
    compute [local_n = n / comm_sz] truncated, [h = (b - a) / n],
    [local_a = a + my_rank*local_n*h] (the integer product does not overflow)
    and [local_b = local_a + local_n*h]; [local_n] and [h] are the same at
    every rank, and nothing is communicated before the reduction starts. *)
Theorem partition_formulas (my_rank comm_sz : Z) (a b : float) (n : Z) :
  0 <= my_rank < comm_sz -> in_int n ->
  let p := main_partition my_rank comm_sz a b n in
  local_n p = n ÷ comm_sz /\
  h p = ((b - a) / double_of_int n)%float /\
  local_a p = (a + double_of_int (my_rank * local_n p) * h p)%float /\
  local_b p = (local_a p + double_of_int (local_n p) * h p)%float /\
  (forall r, local_n (main_partition r comm_sz a b n) = local_n p /\
             h (main_partition r comm_sz a b n) = h p) /\
  (forall total_int,
      main_after_input my_rank comm_sz a b n total_int =
      (total_int <- Reduce my_rank comm_sz
                      (Trap (local_a p) (local_b p) (local_n p) (h p)) total_int ;;
       if my_rank =? 0
       then printf (out_trapezoids n) (printf (out_estimate a b total_int) (Ret tt))
       else Ret tt)).
Proof.
  intros Hr Hn p.
  assert (Ha : local_a p = (a + double_of_int (my_rank * local_n p) * h p)%float).
  { unfold p, main_partition. cbn [local_n h local_a].
    now rewrite rank_times_local_n. }
  repeat split; intros; try reflexivity. exact Ha.
Qed.

(** C4 at rank 3 of 4 with [a = 0], [b = 1], [n = 4]: the last quarter. *)
Lemma partition_formulas_witness :
  (0 <= 3 < 4 /\ in_int 4) /\
  local_n (main_partition 3 4 0 1 4) = 1 /\
  h (main_partition 3 4 0 1 4) = 0.25%float /\
  local_a (main_partition 3 4 0 1 4) = 0.75%float /\
  local_b (main_partition 3 4 0 1 4) = 1%float.
Proof.
  assert (H34 : 0 <= 3 < 4) by lia.
  assert (H4 : in_int 4) by (unfold in_int; lia).
  split; [split; assumption|].
  destruct (partition_formulas 3 4 0 1 4 H34 H4) as [Hn [Hh [Ha [Hb _]]]].
  split; [exact Hn|]. split; [exact Hh|]. split; [exact Ha|exact Hb].
Defined.

(** ** Executions of a group *)

Section Executions.
Context {A : Type}.
Implicit Types x y z : net A.

Lemma same_refl x : same x x.
Proof. repeat split. Qed.

Lemma same_sym x y : same x y -> same y x.
Proof. intros (Hs & Hp & Hc & Ho). repeat split; auto. Qed.

Lemma same_trans x y z : same x y -> same y z -> same x z.
Proof.
  intros (Hs & Hp & Hc & Ho) (Hs' & Hp' & Hc' & Ho').
  repeat split; intros; etransitivity; eauto.
Qed.

Lemma step_same_r x y z : step x y -> same z y -> step x z.
Proof.
  intros Hstep Hzy.
  destruct Hstep as [s v d k Hs Hd Hp Hy|r s k v q Hr Hp Hc Hy|r o k Hr Hp Hy].
  - apply (step_send x z s v d k Hs Hd Hp). eauto using same_trans.
  - apply (step_recv x z r s k v q Hr Hp Hc). eauto using same_trans.
  - apply (step_printf x z r o k Hr Hp). eauto using same_trans.
Qed.

Lemma steps_same_r x y z : steps x y -> same z y -> steps x z.
Proof.
  intros Hsteps Hzy. destruct Hsteps.
  - apply steps_refl. eauto using same_trans.
  - eapply steps_more; eauto using step_same_r.
Qed.

Lemma steps_same_l x x' y : same x x' -> steps x y -> steps x' y.
Proof.
  intros Hxx Hsteps. induction Hsteps.
  - apply steps_refl. eauto using same_trans.
  - eapply steps_more; eauto.
Qed.

Lemma steps_trans x y z : steps x y -> steps y z -> steps x z.
Proof.
  intros Hxy Hyz. induction Hyz.
  - eauto using steps_same_r.
  - eapply steps_more; eauto.
Qed.

Lemma steps_size x y : steps x y -> size y = size x.
Proof.
  intros Hsteps. induction Hsteps as [y Hs|y z _ IH Hstep].
  - apply Hs.
  - rewrite <- IH. destruct Hstep as [? ? ? ? ? ? ? Hs|? ? ? ? ? ? ? ? Hs|? ? ? ? ? Hs];
      apply Hs.
Qed.

Lemma is_rank_spec x r : is_rank x r = true <-> in_group x r.
Proof. unfold is_rank, in_group. rewrite andb_true_iff, Z.leb_le, Z.ltb_lt. tauto. Qed.

Lemma in_ranks (comm_sz r : Z) : In r (ranks comm_sz) <-> 0 <= r < comm_sz.
Proof.
  unfold ranks. rewrite in_map_iff. split.
  - intros [i [<- Hi]]. apply in_seq in Hi. lia.
  - intros Hr. exists (Z.to_nat r). split; [lia|]. apply in_seq. lia.
Qed.

(** A handoff is a send followed at once by the matching receive. *)
Lemma handoff_sound x r y :
  quiet x -> in_group x r -> handoff x r = Some y -> steps x y /\ quiet y.
Proof.
  intros Hq Hr. unfold handoff.
  destruct (procs x r) as [?|v d k|?|o k|?] eqn:Er; try discriminate.
  - destruct (procs x d) as [?|?|s k'|?|?] eqn:Ed; try discriminate.
    destruct (s =? r) eqn:Es; [|discriminate].
    destruct (is_rank x d) eqn:Ein; [|discriminate].
    cbn [andb]. intros [= <-]. apply Z.eqb_eq in Es. subst s.
    apply is_rank_spec in Ein.
    split; [|exact Hq].
    eapply steps_more.
    + eapply steps_more; [apply steps_refl, same_refl|].
      eapply step_send; [exact Hr|exact Ein|exact Er|apply same_refl].
    + eapply step_recv with (r := d) (s := r) (v := v) (q := []) (k := k').
      * exact Ein.
      * cbn. unfold set_proc.
        destruct (d =? r) eqn:E; [|exact Ed].
        apply Z.eqb_eq in E. congruence.
      * cbn. unfold set_chan. rewrite !Z.eqb_refl, Hq. reflexivity.
      * repeat split. intros s' d'. cbn. unfold set_chan.
        destruct ((s' =? r) && (d' =? d)); [apply Hq|].
        reflexivity.
  - intros [= <-]. split; [|exact Hq].
    eapply steps_more; [apply steps_refl, same_refl|].
    eapply step_printf; [exact Hr|exact Er|apply same_refl].
Qed.

Lemma first_enabled_sound x (rs : list Z) y :
  quiet x -> (forall r, In r rs -> in_group x r) ->
  first_enabled x rs = Some y -> steps x y /\ quiet y.
Proof.
  intros Hq. induction rs as [|r rs IH]; intros Hin; cbn; [discriminate|].
  destruct (handoff x r) as [y'|] eqn:Eh.
  - intros [= <-]. eapply handoff_sound; eauto. apply Hin. now left.
  - apply IH. intros r' Hr'. apply Hin. now right.
Qed.

(** The schedule is an execution of the group. *)
Lemma schedule_sound (fuel : nat) : forall x,
  quiet x -> steps x (schedule fuel x) /\ quiet (schedule fuel x).
Proof.
  induction fuel as [|fuel IH]; intros x Hq; cbn.
  - split; [apply steps_refl, same_refl|exact Hq].
  - destruct (first_enabled x (ranks (size x))) as [y|] eqn:Ef.
    + apply first_enabled_sound in Ef; [|exact Hq|intros r; apply in_ranks].
      destruct Ef as [Hxy Hqy]. destruct (IH y Hqy) as [Hys Hqs].
      split; [eapply steps_trans; eauto|exact Hqs].
    + split; [apply steps_refl, same_refl|exact Hq].
Qed.

(** When every process is blocked, nothing can happen any more. *)
Lemma all_blocked_terminal x : all_blocked x = true -> forall y, ~ step x y.
Proof.
  unfold all_blocked. rewrite forallb_forall. intros Hall y Hstep.
  destruct Hstep as [s v d k Hs Hd Hp _|r s k v q Hr Hp Hc _|r o k Hr Hp _].
  - specialize (Hall s (proj2 (in_ranks _ _) Hs)). rewrite Hp in Hall.
    apply is_rank_spec in Hd. now rewrite Hd in Hall.
  - specialize (Hall r (proj2 (in_ranks _ _) Hr)). rewrite Hp, Hc in Hall.
    discriminate.
  - specialize (Hall r (proj2 (in_ranks _ _) Hr)). rewrite Hp in Hall.
    discriminate.
Qed.
End Executions.

(** ** A receive that nobody serves *)

Section Blocked.
Context {A : Type}.
Implicit Types x y : net A.

Lemma awaits_ret_inv (s : Z) (v : A) : ~ awaits s (Ret v).
Proof. intros H. inversion H. Qed.

Lemma awaits_send_inv (s : Z) v d (k : proc A) :
  awaits s (MPI_Send v d k) -> awaits s k.
Proof. intros H. now inversion H. Qed.

Lemma awaits_recv_inv (s s' : Z) (k : value -> proc A) :
  awaits s (MPI_Recv s' k) -> s' = s \/ forall v, awaits s (k v).
Proof. intros H. inversion H; subst; auto. Qed.

Lemma awaits_printf_inv (s : Z) o (k : proc A) :
  awaits s (printf o k) -> awaits s k.
Proof. intros H. now inversion H. Qed.

Lemma no_send_to_send_inv (d : Z) v d' (k : proc A) :
  no_send_to d (MPI_Send v d' k) -> d' <> d /\ no_send_to d k.
Proof. intros H. now inversion H. Qed.

Lemma no_send_to_recv_inv (d s : Z) (k : value -> proc A) :
  no_send_to d (MPI_Recv s k) -> forall v, no_send_to d (k v).
Proof. intros H. now inversion H. Qed.

Lemma no_send_to_printf_inv (d : Z) o (k : proc A) :
  no_send_to d (printf o k) -> no_send_to d k.
Proof. intros H. now inversion H. Qed.

Ltac starved_inv :=
  repeat match goal with
    | H : no_send_to _ (MPI_Send _ _ _) |- _ =>
        apply no_send_to_send_inv in H; destruct H
    | H : no_send_to _ (MPI_Recv _ _) |- _ =>
        pose proof (no_send_to_recv_inv _ _ _ H); clear H
    | H : no_send_to _ (printf _ _) |- _ => apply no_send_to_printf_inv in H
    | H : awaits _ (MPI_Send _ _ _) |- _ => apply awaits_send_inv in H
    | H : awaits _ (MPI_Recv _ _) |- _ => apply awaits_recv_inv in H; destruct H
    | H : awaits _ (printf _ _) |- _ => apply awaits_printf_inv in H
    end.

Lemma starved_same (s d : Z) x y : same y x -> starved s d x -> starved s d y.
Proof.
  intros (_ & Hp & Hc & _) (H1 & H2 & H3).
  unfold starved. now rewrite Hc, !Hp.
Qed.

Lemma starved_step (s d : Z) x y :
  s <> d -> step x y -> starved s d x -> starved s d y.
Proof.
  intros Hsd Hstep (Hc & Hn & Ha).
  destruct Hstep as [s' v d' k _ _ Hp Hy|r s' k v q _ Hp Hq Hy|r o k _ Hp Hy];
    apply (starved_same s d _ _ Hy); unfold starved; cbn;
    unfold set_proc, set_chan.
  all: repeat match goal with
              | |- context [Z.eqb ?a ?b] => destruct (Z.eqb_spec a b)
              end; subst; cbn [andb]; rewrite ?Hp in *; starved_inv;
         try congruence; auto.
Qed.

(** Such a rank [d] never returns, in any execution. *)
Lemma starved_forever (s d : Z) x0 x :
  s <> d -> starved s d x0 -> steps x0 x -> starved s d x.
Proof.
  intros Hsd H0 Hsteps. induction Hsteps as [x Hs|y z _ IH Hstep].
  - eapply starved_same; eauto.
  - eapply starved_step; eauto.
Qed.

Lemma starved_not_finished (s d : Z) x :
  in_group x d -> starved s d x -> ~ finished x.
Proof.
  intros Hd (_ & _ & Ha) Hfin. destruct (Hfin d Hd) as [v Hv].
  rewrite Hv in Ha. now apply awaits_ret_inv in Ha.
Qed.

(** A rank that waits for a rank below 0 never returns either: the ranks that
    send are ranks of the group. *)
Lemma waits_outside_same (d : Z) x y : same y x -> waits_outside d x -> waits_outside d y.
Proof.
  intros (_ & Hp & Hc & _) [H1 H2]. split; [now rewrite Hp|].
  intros s Hs. rewrite Hc. now apply H2.
Qed.

Lemma waits_outside_step (d : Z) x y : step x y -> waits_outside d x -> waits_outside d y.
Proof.
  intros Hstep [Ha Hc].
  destruct Hstep as [s' v d' k Hs' _ Hp Hy|r s' k v q _ Hp Hq Hy|r o k _ Hp Hy];
    apply (waits_outside_same d _ _ Hy); split; cbn [procs chan];
    unfold set_proc, set_chan.
  - destruct (Z.eqb_spec d s') as [->|_]; [|exact Ha].
    rewrite Hp in Ha. inversion Ha.
  - intros s Hs. destruct Hs' as [Hs' _].
    destruct (Z.eqb_spec s s') as [->|_]; [lia|]. now apply Hc.
  - destruct (Z.eqb_spec d r) as [->|_]; [|exact Ha].
    rewrite Hp in Ha. inversion Ha; subst.
    rewrite Hc in Hq by assumption. discriminate Hq.
  - intros s Hs. destruct (Z.eqb_spec d r) as [->|_].
    + rewrite Hp in Ha. inversion Ha; subst.
      rewrite Hc in Hq by assumption. discriminate Hq.
    + rewrite andb_false_r. now apply Hc.
  - destruct (Z.eqb_spec d r) as [->|_]; [|exact Ha].
    rewrite Hp in Ha. now inversion Ha.
  - exact Hc.
Qed.

Lemma waits_outside_forever (d : Z) x0 x :
  waits_outside d x0 -> steps x0 x -> waits_outside d x.
Proof.
  intros H0 Hsteps. induction Hsteps as [x Hs|y z _ IH Hstep].
  - eapply waits_outside_same; eauto.
  - eapply waits_outside_step; eauto.
Qed.

Lemma waits_outside_not_finished (d : Z) x :
  in_group x d -> waits_outside d x -> ~ finished x.
Proof.
  intros Hd [Ha _] Hfin. destruct (Hfin d Hd) as [v Hv].
  rewrite Hv in Ha. inversion Ha.
Qed.
End Blocked.

(** ** Who prints *)

Lemma Get_input_net_quiet file comm_sz a b n :
  quiet (Get_input_net log file comm_sz a b n).
Proof. intros s d. reflexivity. Qed.


Lemma silent_bcast_loop (m : nat) : forall my_rank comm_sz divisor core_difference a b n,
  silent (bcast_loop m my_rank comm_sz divisor core_difference a b n).
Proof.
  induction m as [|m IH]; intros; cbn [bcast_loop]; [constructor|].
  destruct (role_of my_rank comm_sz divisor core_difference) as [[| |]|].
  - do 3 constructor. apply IH.
  - unfold recv_double, recv_int.
    constructor; intros [a'|]; [|constructor].
    constructor; intros [b'|]; [|constructor].
    constructor; intros [|n']; [constructor|].
    apply IH.
  - apply IH.
  - constructor.
Qed.

Lemma silent_Get_input file my_rank comm_sz a b n :
  my_rank <> 0 -> silent (Get_input log file my_rank comm_sz a b n).
Proof.
  intros Hr.
  destruct (Get_input_cases comm_sz) as [(count & _ & _ & ->)|[_ ->]]; [|constructor].
  rewrite Get_input_from_nonroot by assumption. apply silent_bcast_loop.
Qed.

Lemma silent_main file my_rank comm_sz a b n total_int :
  my_rank <> 0 -> silent (main log file my_rank comm_sz a b n total_int).
Proof.
  intros Hr. unfold main. apply silent_bind; [now apply silent_Get_input|].
  intros [[a' b'] n']. unfold main_after_input, Reduce.
  apply Z.eqb_neq in Hr. rewrite Hr. cbn. do 2 constructor.
Qed.

Section Printing.
Context {A : Type}.
Implicit Types x y : net A.

Lemma only_root_printed_same x y :
  same y x -> only_root_printed x -> only_root_printed y.
Proof.
  intros (_ & Hp & _ & Ho) [Hout Hsil]. split.
  - rewrite Ho. exact Hout.
  - intros r Hr. rewrite Hp. auto.
Qed.

Lemma only_root_printed_step x y :
  step x y -> only_root_printed x -> only_root_printed y.
Proof.
  intros Hstep [Hout Hsil].
  destruct Hstep as [s v d k _ _ Hp Hy|r s k v q _ Hp Hq Hy|r o k _ Hp Hy];
    apply (only_root_printed_same _ _ Hy); split; cbn; try exact Hout;
    unfold set_proc.
  - intros r Hr. destruct (Z.eqb_spec r s) as [->|Hne]; [|auto].
    specialize (Hsil s Hr). rewrite Hp in Hsil. now inversion Hsil.
  - intros r' Hr. destruct (Z.eqb_spec r' r) as [->|Hne]; [|auto].
    specialize (Hsil r Hr). rewrite Hp in Hsil. inversion Hsil; subst; auto.
  - intros r' o' Hin. apply in_app_or in Hin. destruct Hin as [Hin|Hin]; [eauto|].
    destruct Hin as [[= <- <-]|[]].
    destruct (Z.eq_dec r 0) as [Hr|Hr]; [assumption|].
    specialize (Hsil r Hr). rewrite Hp in Hsil. inversion Hsil.
  - intros r' Hr. destruct (Z.eqb_spec r' r) as [->|Hne]; [|auto].
    specialize (Hsil r Hr). rewrite Hp in Hsil. inversion Hsil.
Qed.

Lemma only_root_printed_steps x0 x :
  only_root_printed x0 -> steps x0 x -> only_root_printed x.
Proof.
  intros H0 Hsteps. induction Hsteps as [x Hs|y z _ IH Hstep].
  - eapply only_root_printed_same; eauto.
  - eapply only_root_printed_step; eauto.
Qed.
End Printing.

(** C9.  In every execution of the program, whatever the group size and the
    input file, every line of output has been printed by rank 0, and the
    process of every other rank has no [printf] left on any path. *)
Theorem only_root_prints file comm_sz a b n total_int (x : net unit) :
  steps (main_net log file comm_sz a b n total_int) x ->
  (forall r o, In (r, o) (out x) -> r = 0) /\
  (forall r, r <> 0 -> silent (procs x r)).
Proof.
  intros Hsteps.
  apply (only_root_printed_steps (main_net log file comm_sz a b n total_int)); [|exact Hsteps].
  split.
  - intros r o [].
  - intros r Hr. cbn. now apply silent_main.
Qed.

(** ** The reduction *)

Ltac decide_tests :=
  repeat match goal with
    | |- context [Z.eqb ?a ?b] => destruct (Z.eqb_spec a b)
    | |- context [Z.ltb ?a ?b] => destruct (Z.ltb_spec a b)
    | |- context [Z.leb ?a ?b] => destruct (Z.leb_spec a b)
    end; cbn [andb negb].

Ltac net_proj := cbn [size procs chan out Reduce_state Reduce_net].

Lemma sync_step {A : Type} (x : net A) (s d : Z) v k k' :
  quiet x -> in_group x s -> in_group x d ->
  procs x s = MPI_Send v d k -> procs x d = MPI_Recv s k' ->
  steps x (Net (size x) (set_proc d (k' v) (set_proc s k (procs x))) (chan x) (out x)).
Proof.
  intros Hq Hs Hd Hps Hpd.
  apply (handoff_sound x s); [assumption..|].
  unfold handoff. rewrite Hps, Hpd, Z.eqb_refl.
  apply is_rank_spec in Hd. now rewrite Hd.
Qed.

Lemma partial_total_S (local_int : Z -> float) (j : nat) :
  partial_total local_int (S j) =
  (partial_total local_int j + local_int (1 + Z.of_nat j)%Z)%float.
Proof.
  unfold partial_total, sum_from.
  rewrite seq_S, map_app, fold_left_app. cbn [map fold_left].
  do 2 f_equal. lia.
Qed.

Lemma Reduce_loop_sources (local_int : Z -> float) (m : nat) : forall source total_int,
  sources_along (fun s => VDouble (local_int s)) (Reduce_loop m source total_int) =
  map (fun i => source + Z.of_nat i) (seq 0 m).
Proof.
  induction m as [|m IH]; intros source total_int; [reflexivity|].
  cbn [Reduce_loop recv_double sources_along seq map].
  rewrite IH. f_equal; [lia|].
  rewrite <- seq_shift, map_map. apply map_ext. intros i. lia.
Qed.

Lemma Reduce_loop_not_send (m : nat) source total_int v d k :
  Reduce_loop m source total_int <> MPI_Send v d k.
Proof. destruct m; discriminate. Qed.

Lemma Reduce_loop_not_printf (m : nat) source total_int o k :
  Reduce_loop m source total_int <> printf o k.
Proof. destruct m; discriminate. Qed.

Lemma Reduce_loop_recv_inv (m : nat) source total_int s k :
  Reduce_loop m source total_int = MPI_Recv s k ->
  exists m', m = S m' /\ s = source /\
    k = fun v => match v with
                 | VDouble local_int =>
                     Reduce_loop m' (source + 1) (total_int + local_int)%float
                 | VInt _ => Undefined type_mismatch
                 end.
Proof.
  destruct m as [|m']; [discriminate|].
  cbn [Reduce_loop]. unfold recv_double. intros [= <- <-]. eauto.
Qed.

Section Reduction.
Variable comm_sz : Z.
Variables local_int total_int : Z -> float.
Hypothesis group : 1 <= comm_sz.

Lemma Reduce_net_start :
  same (Reduce_net comm_sz local_int total_int)
       (Reduce_state comm_sz local_int total_int 0).
Proof.
  repeat split. intros r. net_proj. unfold Reduce.
  decide_tests; subst; try lia; try reflexivity.
  now rewrite Nat.sub_0_r.
Qed.

Lemma Reduce_state_next (j : nat) :
  (j < Z.to_nat (comm_sz - 1))%nat ->
  steps (Reduce_state comm_sz local_int total_int j)
        (Reduce_state comm_sz local_int total_int (S j)).
Proof.
  intros Hj.
  set (x := Reduce_state comm_sz local_int total_int j).
  set (r := 1 + Z.of_nat j).
  assert (Hr : in_group x r) by (unfold in_group, r, x; net_proj; lia).
  assert (H0 : in_group x 0) by (unfold in_group, x; net_proj; lia).
  assert (Hpr : procs x r = MPI_Send (VDouble (local_int r)) 0 (Ret (total_int r))).
  { unfold x. net_proj. unfold r. decide_tests; try lia; reflexivity. }
  assert (Hp0 : procs x 0 =
                recv_double r (fun v =>
                  Reduce_loop (Z.to_nat (comm_sz - 1) - S j) (r + 1)
                              (partial_total local_int j + v)%float)).
  { unfold x. net_proj. rewrite Z.eqb_refl.
    replace (Z.to_nat (comm_sz - 1) - j)%nat
      with (S (Z.to_nat (comm_sz - 1) - S j)) by lia.
    reflexivity. }
  eapply steps_same_r.
  - apply (sync_step x r 0 _ _ _ ltac:(intros ? ?; reflexivity) Hr H0 Hpr Hp0).
  - repeat split. intros r'. unfold x. net_proj. unfold set_proc.
    destruct (Z.eqb_spec r' 0) as [->|Hne0].
    + rewrite partial_total_S. f_equal. unfold r. lia.
    + unfold r. decide_tests; try lia; try reflexivity; subst r'; reflexivity.
Qed.

Lemma Reduce_state_reached (j : nat) :
  (j <= Z.to_nat (comm_sz - 1))%nat ->
  steps (Reduce_state comm_sz local_int total_int 0)
        (Reduce_state comm_sz local_int total_int j).
Proof.
  induction j as [|j IH]; intros Hj.
  - apply steps_refl, same_refl.
  - eapply steps_trans; [apply IH; lia|]. apply Reduce_state_next. lia.
Qed.

Lemma Reduce_inv_start :
  Reduce_inv comm_sz local_int total_int (Reduce_net comm_sz local_int total_int).
Proof.
  split; [reflexivity|]. exists 0%nat. split; [lia|]. split.
  - net_proj. unfold Reduce. net_proj. now rewrite Nat.sub_0_r.
  - intros r Hr. left. net_proj. unfold Reduce.
    decide_tests; try lia. repeat split. lia.
Qed.

Lemma Reduce_inv_same x y :
  same y x -> Reduce_inv comm_sz local_int total_int x ->
  Reduce_inv comm_sz local_int total_int y.
Proof.
  intros (Hs & Hp & Hc & _) (Hsz & j & Hj & H0 & Hr).
  split; [congruence|]. exists j. split; [exact Hj|]. split.
  - now rewrite Hp.
  - intros r Hin. rewrite Hp, Hc. auto.
Qed.

Lemma Reduce_inv_step x y :
  step x y -> Reduce_inv comm_sz local_int total_int x ->
  Reduce_inv comm_sz local_int total_int y.
Proof.
  intros Hstep (Hsz & j & Hj & H0 & Hr).
  destruct Hstep as [s v d k Hs _ Hp Hy|r s k v q Hin Hp Hq Hy|r o k Hin Hp Hy];
    apply (Reduce_inv_same _ _ Hy); unfold in_group in *; rewrite Hsz in *.
  - (* a send: by a rank that had not sent yet *)
    destruct (Z.eq_dec s 0) as [->|Hs0].
    { rewrite H0 in Hp. now apply Reduce_loop_not_send in Hp. }
    destruct (Hr s ltac:(lia)) as [(Hps & Hcs & Hlt)|[(Hps & _)|(Hps & _)]];
      rewrite Hp in Hps; try discriminate Hps.
    injection Hps as -> -> ->.
    split; [reflexivity|]. exists j. split; [exact Hj|]. split.
    + net_proj. unfold set_proc. decide_tests; [lia|exact H0].
    + intros r Hin. net_proj. unfold set_proc, set_chan.
      destruct (Z.eqb_spec r s) as [->|Hne]; cbn [andb].
      * right. left. rewrite Hcs. repeat split. exact Hlt.
      * apply Hr, Hin.
  - (* a receive: by the root, from the next rank *)
    destruct (Z.eq_dec r 0) as [->|Hr0].
    2:{ destruct (Hr r ltac:(lia)) as [(Hpr & _)|[(Hpr & _)|(Hpr & _)]];
          rewrite Hp in Hpr; discriminate Hpr. }
    rewrite H0 in Hp.
    apply Reduce_loop_recv_inv in Hp. destruct Hp as (m & Em & -> & ->).
    destruct (Hr (1 + Z.of_nat j) ltac:(lia))
      as [(_ & Hc & _)|[(Hpn & Hc & _)|(_ & Hc & _)]];
      rewrite Hq in Hc; try discriminate Hc.
    injection Hc as -> ->.
    split; [reflexivity|]. exists (S j). split; [lia|]. split.
    + net_proj. unfold set_proc. rewrite Z.eqb_refl.
      rewrite partial_total_S. f_equal; lia.
    + intros r Hin'. net_proj. unfold set_proc, set_chan.
      destruct (Z.eqb_spec r 0) as [->|_]; [lia|].
      destruct (Z.eqb_spec r (1 + Z.of_nat j)) as [->|Hne]; cbn [andb].
      * right. right. rewrite Hpn. repeat split. lia.
      * destruct (Hr r Hin') as [(H1 & H2 & H3)|[(H1 & H2 & H3)|(H1 & H2 & H3)]];
          [left|right; left|right; right]; repeat split; auto; lia.
  - (* no process of the reduction prints *)
    destruct (Z.eq_dec r 0) as [->|Hr0].
    { rewrite H0 in Hp. now apply Reduce_loop_not_printf in Hp. }
    destruct (Hr r ltac:(lia)) as [(Hpr & _)|[(Hpr & _)|(Hpr & _)]];
      rewrite Hp in Hpr; discriminate Hpr.
Qed.

Lemma Reduce_inv_steps x :
  steps (Reduce_net comm_sz local_int total_int) x ->
  Reduce_inv comm_sz local_int total_int x.
Proof.
  intros Hsteps. induction Hsteps as [x Hs|y z _ IH Hstep].
  - eapply Reduce_inv_same; [exact Hs|apply Reduce_inv_start].
  - eapply Reduce_inv_step; eauto.
Qed.

Lemma Reduce_inv_total x t :
  Reduce_inv comm_sz local_int total_int x -> procs x 0 = Ret t ->
  t = sum_from (local_int 0) (others comm_sz local_int).
Proof.
  intros (_ & j & Hj & H0 & _) Hret. rewrite H0 in Hret.
  destruct (Z.to_nat (comm_sz - 1) - j)%nat as [|m] eqn:Em; [|discriminate Hret].
  injection Hret as <-. unfold partial_total, others.
  replace j with (Z.to_nat (comm_sz - 1)) by lia. reflexivity.
Qed.
End Reduction.

(** C3.  For every group size and every assignment of local estimates, the
    root starts from its own estimate, receives from ranks
    [1, 2, ..., comm_sz - 1] in this order and adds each estimate as it
    arrives: the reduction can run to completion, and in every execution the
    total the root returns is the sum
    [((local_0 + local_1) + ...) + local_(comm_sz - 1)] accumulated from the
    left. *)
Theorem Reduce_sums_in_rank_order (comm_sz : Z) (local_int total_int : Z -> float) :
  1 <= comm_sz ->
  let x0 := Reduce_net comm_sz local_int total_int in
  let total := sum_from (local_int 0) (others comm_sz local_int) in
  sources_along (fun s => VDouble (local_int s)) (procs x0 0) =
    map Z.of_nat (seq 1 (Z.to_nat (comm_sz - 1))) /\
  (exists x, steps x0 x /\ finished x /\ procs x 0 = Ret total) /\
  (forall x t, steps x0 x -> procs x 0 = Ret t -> t = total).
Proof.
  intros Hn x0 total. split; [|split].
  - unfold x0. net_proj. unfold Reduce. cbn [Z.eqb negb].
    rewrite Reduce_loop_sources, <- seq_shift, map_map.
    apply map_ext. intros i. lia.
  - exists (Reduce_state comm_sz local_int total_int (Z.to_nat (comm_sz - 1))).
    split; [|split].
    + apply (steps_same_l (Reduce_state comm_sz local_int total_int 0)).
      * apply same_sym, Reduce_net_start.
      * apply Reduce_state_reached; [exact Hn|lia].
    + intros r Hr. unfold in_group in Hr. cbn [size Reduce_state] in Hr. net_proj.
      rewrite Nat.sub_diag. decide_tests; try lia; eexists; reflexivity.
    + net_proj. rewrite Z.eqb_refl, Nat.sub_diag. reflexivity.
  - intros x t Hsteps Hret.
    apply (Reduce_inv_total comm_sz local_int total_int x t); [|exact Hret].
    apply Reduce_inv_steps; assumption.
Qed.

(** C3 with four processes holding 1, 2, 3 and 4: the root returns
    [((1 + 2) + 3) + 4]. *)
Lemma Reduce_sums_in_rank_order_witness :
  let local_int := fun r => double_of_int (r + 1) in
  let x0 := Reduce_net 4 local_int (fun _ => 0%float) in
  1 <= 4 /\
  sources_along (fun s => VDouble (local_int s)) (procs x0 0) = [1; 2; 3] /\
  (exists x, steps x0 x /\ finished x /\ procs x 0 = Ret 10%float) /\
  (forall x t, steps x0 x -> procs x 0 = Ret t -> t = 10%float).
Proof.
  intros local_int x0.
  assert (H4 : 1 <= 4) by lia.
  split; [exact H4|].
  exact (Reduce_sums_in_rank_order 4 local_int (fun _ => 0%float) H4).
Defined.

(** ** Group sizes that are not powers of two *)

(** A rank that takes the receive branch at the iteration of divisor [2 ^ j]
    cannot leave the loop without a message from [d - 2 ^ (j - 1)]. *)
Lemma awaits_bcast_loop (m : nat) : forall e d comm_sz j a b n,
  1 <= j <= e -> e - Z.of_nat m < j ->
  role_of d comm_sz (2 ^ j) (2 ^ (j - 1)) = Some Receiver ->
  awaits (d - 2 ^ (j - 1)) (bcast_loop m d comm_sz (2 ^ e) (2 ^ e ÷ 2) a b n).
Proof.
  induction m as [|m IH]; intros e d comm_sz j a b n Hj Hm Hrole; [lia|].
  cbn [bcast_loop]. rewrite !(halve_pow2 e) by lia.
  destruct (Z.eq_dec e j) as [->|Hne].
  - rewrite Hrole. unfold recv_double. constructor.
  - assert (Hnext : forall a b n,
               awaits (d - 2 ^ (j - 1))
                      (bcast_loop m d comm_sz (2 ^ (e - 1)) (2 ^ (e - 1) ÷ 2) a b n))
      by (intros; apply IH; [lia|lia|assumption]).
    destruct (role_of d comm_sz (2 ^ e) (2 ^ (e - 1))) as [[| |]|].
    + do 3 apply awaits_send. apply Hnext.
    + unfold recv_double, recv_int.
      apply awaits_recv; intros [a'|]; [|constructor].
      apply awaits_recv; intros [b'|]; [|constructor].
      apply awaits_recv; intros [|n']; [constructor|].
      apply Hnext.
    + apply Hnext.
    + constructor.
Qed.

(** A rank whose partner is never [d] sends nothing to [d]. *)
Lemma no_send_to_bcast_loop (m : nat) : forall e s comm_sz d a b n,
  Z.of_nat m <= e ->
  (forall e', 1 <= e' <= e ->
     role_of s comm_sz (2 ^ e') (2 ^ (e' - 1)) = Some Sender -> s + 2 ^ (e' - 1) <> d) ->
  no_send_to d (bcast_loop m s comm_sz (2 ^ e) (2 ^ e ÷ 2) a b n).
Proof.
  induction m as [|m IH]; intros e s comm_sz d a b n He Hd; cbn [bcast_loop];
    [constructor|].
  rewrite !(halve_pow2 e) by lia.
  assert (Hnext : forall a b n,
             no_send_to d (bcast_loop m s comm_sz (2 ^ (e - 1)) (2 ^ (e - 1) ÷ 2) a b n)).
  { intros. apply IH; [lia|]. intros e' He'. apply Hd. lia. }
  destruct (role_of s comm_sz (2 ^ e) (2 ^ (e - 1))) as [[| |]|] eqn:Hrole.
  - assert (s + 2 ^ (e - 1) <> d) by (apply Hd; [lia|assumption]).
    do 3 (constructor; [assumption|]). apply Hnext.
  - unfold recv_double, recv_int.
    constructor; intros [a'|]; [|constructor].
    constructor; intros [b'|]; [|constructor].
    constructor; intros [|n']; [constructor|].
    apply Hnext.
  - apply Hnext.
  - constructor.
Qed.

(** The bits of [comm_sz - 1] below position [i] are all ones, unless one of
    the positions is a zero. *)
Lemma low_bits (x : Z) (i : nat) :
  0 <= x ->
  (exists j, 1 <= j <= Z.of_nat i /\ x mod 2 ^ j < 2 ^ (j - 1)) \/
  x mod 2 ^ Z.of_nat i = 2 ^ Z.of_nat i - 1.
Proof.
  intros Hx. induction i as [|i IH].
  - right. cbn. apply Z.mod_1_r.
  - destruct IH as [[j [Hj Hlt]]|Hones].
    + left. exists j. split; [lia|assumption].
    + replace (Z.of_nat (S i)) with (Z.of_nat i + 1) by lia.
      pose proof (pow2_pos (Z.of_nat i) ltac:(lia)) as Hp.
      assert (Hdbl : 2 ^ (Z.of_nat i + 1) = 2 * 2 ^ Z.of_nat i)
        by (rewrite Z.pow_add_r by lia; lia).
      pose proof (Z.mod_pos_bound x (2 ^ (Z.of_nat i + 1)) ltac:(lia)) as Hb.
      destruct (Z_lt_ge_dec (x mod 2 ^ (Z.of_nat i + 1)) (2 ^ Z.of_nat i)) as [Hlo|Hhi].
      * left. exists (Z.of_nat i + 1). split; [lia|].
        now replace (Z.of_nat i + 1 - 1) with (Z.of_nat i) by lia.
      * right.
        assert (Hmm : (x mod 2 ^ (Z.of_nat i + 1)) mod 2 ^ Z.of_nat i = x mod 2 ^ Z.of_nat i).
        { apply Z.mod_mod_divide. exists 2. lia. }
        set (u := x mod 2 ^ (Z.of_nat i + 1)) in *.
        pose proof (Z.div_mod u (2 ^ Z.of_nat i) ltac:(lia)) as Hdm.
        assert (Hq : u / 2 ^ Z.of_nat i = 1).
        { symmetry. apply Z.div_unique with (r := u - 2 ^ Z.of_nat i); lia. }
        rewrite Hq, Hmm, Hones in Hdm. lia.
Qed.

(** When the group size is not a power of two, some rank [d > 0] is a multiple
    of a divisor [2 ^ j] of the loop with its partner [d + 2 ^ (j - 1)] outside
    the group. *)
Lemma stranded_rank (comm_sz : Z) :
  1 <= comm_sz -> (forall t, 0 <= t -> comm_sz <> 2 ^ t) ->
  exists d j, 1 <= j <= exact_count comm_sz /\ 0 < d < comm_sz /\
              Z.rem d (2 ^ j) = 0 /\ comm_sz <= d + 2 ^ (j - 1).
Proof.
  intros Hn Hnp.
  assert (Hn2 : 1 < comm_sz).
  { destruct (Z.eq_dec comm_sz 1) as [->|]; [|lia]. now specialize (Hnp 0 ltac:(lia)). }
  pose proof (exact_count_spec comm_sz Hn2) as [Hlo Hhi].
  pose proof (exact_count_pos comm_sz Hn2) as Hc.
  set (count := exact_count comm_sz) in *.
  assert (Hhi' : comm_sz < 2 ^ count).
  { specialize (Hnp count ltac:(lia)). lia. }
  assert (Hdbl : 2 ^ count = 2 * 2 ^ (count - 1)).
  { replace count with (Z.succ (count - 1)) at 1 by lia. apply Z.pow_succ_r. lia. }
  destruct (low_bits (comm_sz - 1) (Z.to_nat (count - 1)) ltac:(lia)) as [[j [Hj Hlt]]|Hones].
  - rewrite Z2Nat.id in Hj by lia.
    pose proof (pow2_pos j ltac:(lia)) as Hpj.
    pose proof (Z.mod_pos_bound (comm_sz - 1) (2 ^ j) ltac:(lia)) as Hb.
    pose proof (Z.div_mod (comm_sz - 1) (2 ^ j) ltac:(lia)) as Hdm.
    assert (Hle : 2 ^ j <= 2 ^ (count - 1)) by (apply Z.pow_le_mono_r; lia).
    assert (Hq : 1 <= (comm_sz - 1) / 2 ^ j).
    { apply Z.div_le_lower_bound; lia. }
    exists (2 ^ j * ((comm_sz - 1) / 2 ^ j)), j.
    split; [lia|]. split; [nia|]. split; [|lia].
    rewrite Z.rem_mod_nonneg by nia.
    rewrite Z.mul_comm. apply Z.mod_mul. lia.
  - rewrite Z2Nat.id in Hones by lia.
    pose proof (pow2_pos (count - 1) ltac:(lia)) as Hp.
    pose proof (Z.div_mod (comm_sz - 1) (2 ^ (count - 1)) ltac:(lia)) as Hdm.
    assert (Hq : (comm_sz - 1) / 2 ^ (count - 1) = 1).
    { symmetry. apply Z.div_unique with (r := comm_sz - 1 - 2 ^ (count - 1)); lia. }
    rewrite Hq, Hones in Hdm. lia.
Qed.

(** The stranded rank [d] and the rank [s] it names: [s] has nothing for [d],
    and [d] cannot leave the loop without a message from [s], whatever the
    number of iterations from the exact count on. *)
Lemma stranded_pair (comm_sz : Z) :
  1 <= comm_sz -> (forall t, 0 <= t -> comm_sz <> 2 ^ t) ->
  exists s d, 0 < s < d /\ d < comm_sz /\
    forall count, exact_count comm_sz <= count ->
    (forall a b n,
        no_send_to d (bcast_loop (Z.to_nat count) s comm_sz
                                 (2 ^ count) (2 ^ count ÷ 2) a b n)) /\
    (forall a b n,
        awaits s (bcast_loop (Z.to_nat count) d comm_sz
                             (2 ^ count) (2 ^ count ÷ 2) a b n)).
Proof.
  intros Hn Hnp.
  destruct (stranded_rank comm_sz Hn Hnp) as (d & j & Hj & Hd & Hrem & Hout).
  pose proof (exact_count_nonneg comm_sz) as Hc0.
  pose proof (pow2_pos j ltac:(lia)) as Hpj.
  pose proof (pow2_pos (j - 1) ltac:(lia)) as Hpc.
  assert (Hdc : 2 ^ j = 2 * 2 ^ (j - 1)).
  { replace j with (Z.succ (j - 1)) at 1 by lia. apply Z.pow_succ_r. lia. }
  rewrite Z.rem_mod_nonneg in Hrem by lia.
  apply Z.mod_divide in Hrem; [|lia]. destruct Hrem as [q Hq].
  assert (Hq1 : 1 <= q) by nia.
  exists (d - 2 ^ (j - 1)), d.
  split; [nia|]. split; [lia|]. intros count Hcount. split.
  - intros a b n. apply no_send_to_bcast_loop; [lia|].
    intros e' He' Hsend Heq.
    assert (e' = j).
    { assert (Hpow : 2 ^ (e' - 1) = 2 ^ (j - 1)) by lia.
      apply Z.pow_inj_r in Hpow; lia. }
    subst e'. apply role_of_sender in Hsend; [|lia]. destruct Hsend as [Hsrem _].
    rewrite Z.rem_mod_nonneg in Hsrem by nia.
    apply Z.mod_divide in Hsrem; [|lia]. destruct Hsrem as [q' Hq'].
    rewrite Hdc in Hq, Hq'.
    assert (Hz : 2 ^ (j - 1) * (2 * q - 2 * q' - 1) = 0) by lia.
    apply Z.mul_eq_0 in Hz. lia.
  - intros a b n. apply awaits_bcast_loop; [lia|lia|].
    apply role_of_receiver; [lia|lia|]. split; [|lia].
    rewrite Z.rem_mod_nonneg by lia.
    apply Z.mod_divide; [lia|]. exists (2 * q). lia.
Qed.

(** The same of [Get_input], where line 113 gives the exact count or more:
    the two ranks do not depend on the input file, and a conversion that is
    undefined leaves them as they are. *)
Lemma stranded_in_Get_input (comm_sz : Z) :
  1 <= comm_sz -> (forall t, 0 <= t -> comm_sz <> 2 ^ t) ->
  (forall count, Get_input_count log comm_sz = Some count ->
                 exact_count comm_sz <= count) ->
  exists s d, 0 < s < d /\ d < comm_sz /\
    (forall file a b n, no_send_to d (Get_input log file s comm_sz a b n)) /\
    (forall file a b n, awaits s (Get_input log file d comm_sz a b n)).
Proof.
  intros Hn Hnp Hcover.
  destruct (stranded_pair comm_sz Hn Hnp) as (s & d & Hs & Hd & Hboth).
  exists s, d. split; [exact Hs|]. split; [exact Hd|].
  destruct (Get_input_cases comm_sz) as [(count & Hc & _ & Heq)|[_ Heq]].
  - destruct (Hboth count (Hcover count Hc)) as [Hnone Hwait].
    split; intros; rewrite Heq, Get_input_from_nonroot by lia; auto.
  - split; intros; rewrite Heq; constructor.
Qed.

(** For every group size that is not a power of two the broadcast never
    completes: the stranded rank waits for a rank that has nothing for it. *)
Lemma broadcast_blocks_unless_power_of_two (comm_sz : Z) file a b n :
  1 <= comm_sz -> (forall t, 0 <= t -> comm_sz <> 2 ^ t) ->
  (forall count, Get_input_count log comm_sz = Some count ->
                 exact_count comm_sz <= count) ->
  forall y, steps (Get_input_net log file comm_sz a b n) y -> ~ finished y.
Proof.
  intros Hn Hnp Hcover y Hy.
  destruct (stranded_in_Get_input comm_sz Hn Hnp Hcover)
    as (s & d & Hs & Hd & Hnone & Hwait).
  apply (starved_not_finished s d).
  { unfold in_group. rewrite (steps_size _ _ Hy). cbn. lia. }
  apply (starved_forever s d (Get_input_net log file comm_sz a b n)); [lia| |exact Hy].
  split; [reflexivity|]. cbn [procs Get_input_net].
  split; [apply Hnone|apply Hwait].
Qed.

(** ** What a process holds when it returns from the broadcast *)

Section Carried.
Variables (a0 b0 : float) (n0 : Z).

Lemma in_flight_snoc position l sent :
  in_flight a0 b0 n0 position l sent ->
  in_flight a0 b0 n0 position (l ++ [component a0 b0 n0 sent]) (next_position sent).
Proof.
  intros H. induction H as [p|p l q _ IH]; cbn.
  - do 2 constructor.
  - constructor. exact IH.
Qed.

Lemma in_flight_head position v l sent :
  in_flight a0 b0 n0 position (v :: l) sent ->
  v = component a0 b0 n0 position /\ in_flight a0 b0 n0 (next_position position) l sent.
Proof. intros H. inversion H; subst. auto. Qed.

Lemma carries_ret_inv informed st v :
  carries a0 b0 n0 informed st (Ret v) -> v = (a0, b0, n0).
Proof. intros H. now inversion H. Qed.

Lemma carries_printf_inv informed st o k :
  carries a0 b0 n0 informed st (printf o k) -> carries a0 b0 n0 informed st k.
Proof. intros H. now inversion H. Qed.

Lemma carries_send_inv informed st v d k :
  carries a0 b0 n0 informed st (MPI_Send v d k) ->
  exists st',
    carries a0 b0 n0 informed st' k /\
    v = component a0 b0 n0 (sent_to st d) /\
    sent_to st' d = next_position (sent_to st d) /\
    (forall d', d' <> d -> sent_to st d' = 0%nat /\ sent_to st' d' = 0%nat) /\
    (forall s', received_from st s' = 0%nat /\ received_from st' s' = 0%nat).
Proof.
  intros H. inversion H; subst; eexists; (split; [eassumption|]);
    cbn; rewrite ?Z.eqb_refl; repeat split; intros;
    try reflexivity;
    match goal with
    | |- context [Z.eqb ?x ?y] => destruct (Z.eqb_spec x y); [congruence|reflexivity]
    end.
Qed.

Lemma carries_recv_inv informed st s k :
  carries a0 b0 n0 informed st (MPI_Recv s k) ->
  exists informed' st',
    carries a0 b0 n0 informed' st' (k (component a0 b0 n0 (received_from st s))) /\
    received_from st' s = next_position (received_from st s) /\
    (forall s', s' <> s -> received_from st s' = 0%nat /\ received_from st' s' = 0%nat) /\
    (forall d, sent_to st d = 0%nat /\ sent_to st' d = 0%nat).
Proof.
  intros H. inversion H; subst; do 2 eexists;
    cbn; rewrite ?Z.eqb_refl; (split; [eassumption|]); cbn; rewrite ?Z.eqb_refl;
    repeat split; intros; try reflexivity;
    match goal with
    | |- context [Z.eqb ?x ?y] => destruct (Z.eqb_spec x y); [congruence|reflexivity]
    end.
Qed.
End Carried.

Section CarriedSteps.
Variables (a0 b0 : float) (n0 : Z).
Implicit Types x y : net (float * float * Z).

Lemma broadcast_inv_same x y :
  same y x -> broadcast_inv a0 b0 n0 x -> broadcast_inv a0 b0 n0 y.
Proof.
  intros (Hs & Hp & Hc & _) (st & informed & Hcar & Hch).
  exists st, informed. split.
  - intros r Hr. rewrite Hp. apply Hcar. unfold in_group in *. now rewrite <- Hs.
  - intros s d. rewrite Hc. apply Hch.
Qed.

Lemma broadcast_inv_step x y :
  step x y -> broadcast_inv a0 b0 n0 x -> broadcast_inv a0 b0 n0 y.
Proof.
  intros Hstep (st & informed & Hcar & Hch).
  destruct Hstep as [s v d k Hs _ Hp Hy|r s k v q Hr Hp Hq Hy|r o k Hr Hp Hy];
    apply (broadcast_inv_same _ _ Hy).
  - (* a send *)
    pose proof (Hcar s Hs) as Hc. rewrite Hp in Hc.
    apply carries_send_inv in Hc.
    destruct Hc as (st' & Hk & -> & Hsent & Hothers & Hrecv).
    exists (fun r => if r =? s then st' else st r), informed. split.
    + intros r Hin. cbn. unfold set_proc.
      destruct (Z.eqb_spec r s) as [->|Hne]; [exact Hk|apply Hcar, Hin].
    + intros s' d'. cbn. unfold set_chan.
      assert (Hr' : received_from (if d' =? s then st' else st d') s' =
                    received_from (st d') s').
      { destruct (Z.eqb_spec d' s) as [->|_]; [|reflexivity].
        destruct (Hrecv s') as [-> ->]. reflexivity. }
      rewrite Hr'.
      destruct (Z.eqb_spec s' s) as [->|Hs']; cbn [andb].
      * destruct (Z.eqb_spec d' d) as [->|Hd'].
        -- rewrite Hsent. apply in_flight_snoc, Hch.
        -- destruct (Hothers d' Hd') as [H1 H2]. rewrite H2, <- H1. apply Hch.
      * apply Hch.
  - (* a receive *)
    pose proof (Hcar r Hr) as Hc. rewrite Hp in Hc.
    apply carries_recv_inv in Hc.
    destruct Hc as (informed' & st' & Hk & Hrecv & Hothers & Hsent).
    pose proof (Hch s r) as Hsr. rewrite Hq in Hsr.
    apply in_flight_head in Hsr. destruct Hsr as [-> Hsr].
    exists (fun r' => if r' =? r then st' else st r'),
           (fun r' => if r' =? r then informed' else informed r').
    split.
    + intros r' Hin. cbn. unfold set_proc.
      destruct (Z.eqb_spec r' r) as [->|Hne]; [exact Hk|apply Hcar, Hin].
    + intros s' d'. cbn. unfold set_chan.
      assert (Hs' : sent_to (if s' =? r then st' else st s') d' = sent_to (st s') d').
      { destruct (Z.eqb_spec s' r) as [->|_]; [|reflexivity].
        destruct (Hsent d') as [-> ->]. reflexivity. }
      rewrite Hs'.
      destruct (Z.eqb_spec d' r) as [->|Hd']; rewrite ?andb_false_r.
      * destruct (Z.eqb_spec s' s) as [->|Hne]; cbn [andb].
        -- rewrite Hrecv. exact Hsr.
        -- destruct (Hothers s' Hne) as [H1 H2]. rewrite H2, <- H1. apply Hch.
      * apply Hch.
  - (* a line of output *)
    exists st, informed. split.
    + intros r' Hin. cbn. unfold set_proc.
      destruct (Z.eqb_spec r' r) as [->|Hne]; [|apply Hcar, Hin].
      pose proof (Hcar r Hr) as Hc. rewrite Hp in Hc.
      now apply carries_printf_inv in Hc.
    + intros s d. cbn. apply Hch.
Qed.

Lemma broadcast_inv_steps x0 x :
  broadcast_inv a0 b0 n0 x0 -> steps x0 x -> broadcast_inv a0 b0 n0 x.
Proof.
  intros H0 Hsteps. induction Hsteps as [x Hs|y z _ IH Hstep].
  - eapply broadcast_inv_same; eauto.
  - eapply broadcast_inv_step; eauto.
Qed.

(** A process that holds the root's values keeps them. *)
Lemma carries_bcast_loop_informed (m : nat) : forall my_rank comm_sz divisor core_difference,
  carries a0 b0 n0 true Between
          (bcast_loop m my_rank comm_sz divisor core_difference a0 b0 n0).
Proof.
  induction m as [|m IH]; intros; cbn [bcast_loop]; [constructor|].
  destruct (role_of my_rank comm_sz divisor core_difference) as [[| |]|].
  - do 3 constructor. apply IH.
  - unfold recv_double, recv_int. do 3 constructor. apply IH.
  - apply IH.
  - constructor.
Qed.

(** A process that does not hold them yet, at a rank that is not a multiple of
    the current divisor, receives them before it sends or returns. *)
Lemma carries_bcast_loop (m : nat) : forall my_rank comm_sz a b n,
  Z.rem my_rank (2 ^ Z.of_nat m) <> 0 ->
  carries a0 b0 n0 false Between
          (bcast_loop m my_rank comm_sz (2 ^ Z.of_nat m) (2 ^ Z.of_nat m ÷ 2) a b n).
Proof.
  induction m as [|m IH]; intros my_rank comm_sz a b n Hrem.
  - cbn in Hrem. rewrite Z.rem_1_r in Hrem. congruence.
  - cbn [bcast_loop].
    replace (Z.of_nat (S m)) with (Z.of_nat m + 1) in * by lia.
    set (e := Z.of_nat m + 1) in *.
    pose proof (pow2_pos e ltac:(lia)) as Hd.
    pose proof (pow2_pos (e - 1) ltac:(lia)) as Hc.
    rewrite !(halve_pow2 e) by lia.
    replace (e - 1) with (Z.of_nat m) in * by lia.
    destruct (role_of my_rank comm_sz (2 ^ e) (2 ^ Z.of_nat m)) as [[| |]|] eqn:Hrole.
    + apply role_of_sender in Hrole; [|lia]. tauto.
    + unfold recv_double, recv_int. do 3 constructor.
      apply carries_bcast_loop_informed.
    + apply IH. intros Hr0.
      unfold role_of in Hrole.
      apply Z.eqb_eq in Hr0. apply Z.eqb_neq in Hrem.
      rewrite Hr0, Hrem in Hrole. cbn [andb] in Hrole.
      destruct (2 ^ e =? 0), (2 ^ Z.of_nat m =? 0); discriminate Hrole.
    + constructor.
Qed.
End CarriedSteps.

Section BroadcastResult.
Variables (s : scanned) (a b : Z -> float) (n : Z -> Z).

Lemma broadcast_inv_start (comm_sz : Z) a0 b0 n0 :
  1 <= comm_sz ->
  (forall count, Get_input_count log comm_sz = Some count ->
                 exact_count comm_sz <= count) ->
  fscanf s (a 0) (b 0) (n 0) = (a0, b0, n0) ->
  broadcast_inv a0 b0 n0 (Get_input_net log (file_with s) comm_sz a b n).
Proof.
  intros Hn Hcover Hv. exists (fun _ => Between), (fun r => r =? 0). split.
  - intros r Hr. unfold in_group in Hr. cbn [size procs Get_input_net] in *.
    destruct (Get_input_cases comm_sz) as [(count & Hc & _ & ->)|[_ ->]];
      [|destruct (r =? 0); constructor].
    specialize (Hcover count Hc).
    pose proof (exact_count_nonneg comm_sz) as H0.
    destruct (Z.eqb_spec r 0) as [->|Hr0].
    + rewrite Get_input_from_root, Hv. do 2 constructor.
      apply carries_bcast_loop_informed.
    + rewrite Get_input_from_nonroot by assumption.
      pose proof (carries_bcast_loop a0 b0 n0 (Z.to_nat count)
                    r comm_sz (a r) (b r) (n r)) as Hcar.
      rewrite Z2Nat.id in Hcar by lia. apply Hcar.
      pose proof (covered_by comm_sz count Hn Hcover).
      rewrite Z.rem_small; lia.
  - intros s' d. cbn. constructor.
Qed.

(** Where line 113 gives the exact count or more, whatever the group size, a
    process that returns from [Get_input] returns with the values the root had
    after reading the file. *)
Lemma broadcast_returns_root_values (comm_sz : Z) y r v :
  1 <= comm_sz ->
  (forall count, Get_input_count log comm_sz = Some count ->
                 exact_count comm_sz <= count) ->
  steps (Get_input_net log (file_with s) comm_sz a b n) y ->
  in_group y r -> procs y r = Ret v ->
  v = fscanf s (a 0) (b 0) (n 0).
Proof.
  intros Hn Hcover Hy Hr Hret.
  destruct (fscanf s (a 0) (b 0) (n 0)) as [[a0 b0] n0] eqn:Hv.
  pose proof (broadcast_inv_steps a0 b0 n0 _ y
                (broadcast_inv_start comm_sz a0 b0 n0 Hn Hcover Hv) Hy)
    as (st & informed & Hcar & _).
  specialize (Hcar r Hr). rewrite Hret in Hcar.
  now apply carries_ret_inv in Hcar.
Qed.
End BroadcastResult.

(** ** The broadcast in a group of [2 ^ t] *)

(** The three messages of one transfer, handed over one after the other. *)
Lemma transfer {A : Type} (x : net A) (s d : Z) va vb vn ks k1 k2 k3 :
  quiet x -> in_group x s -> in_group x d ->
  procs x s = MPI_Send va d (MPI_Send vb d (MPI_Send vn d ks)) ->
  procs x d = MPI_Recv s k1 -> k1 va = MPI_Recv s k2 -> k2 vb = MPI_Recv s k3 ->
  steps x (Net (size x) (set_proc d (k3 vn) (set_proc s ks (procs x))) (chan x) (out x)).
Proof.
  intros Hq Hs Hd Hps Hpd H1 H2.
  assert (Hsd : s <> d) by (intros ->; congruence).
  apply Z.eqb_neq in Hsd.
  pose proof (sync_step x s d va _ k1 Hq Hs Hd Hps Hpd) as S1.
  set (x1 := Net _ _ _ _) in S1.
  assert (S2 : steps x1 (Net (size x1)
                 (set_proc d (k2 vb) (set_proc s (MPI_Send vn d ks) (procs x1)))
                 (chan x1) (out x1))).
  { apply sync_step; try assumption.
    - cbn. unfold set_proc. now rewrite Hsd, Z.eqb_refl.
    - cbn. unfold set_proc. now rewrite Z.eqb_refl. }
  set (x2 := Net _ _ _ _) in S2.
  assert (S3 : steps x2 (Net (size x2) (set_proc d (k3 vn) (set_proc s ks (procs x2)))
                             (chan x2) (out x2))).
  { apply sync_step; try assumption.
    - cbn. unfold set_proc. now rewrite Hsd, Z.eqb_refl.
    - cbn. unfold set_proc. now rewrite Z.eqb_refl. }
  eapply steps_same_r; [exact (steps_trans _ _ _ (steps_trans _ _ _ S1 S2) S3)|].
  repeat split. intros r. cbn. unfold set_proc.
  destruct (r =? d), (r =? s); reflexivity.
Qed.

Section PowerOfTwo.
Variables (file : input_file) (t : Z) (a b : Z -> float) (n : Z -> Z).
Variables (a0 b0 : float) (n0 : Z).
Hypothesis t_nonneg : 0 <= t.

Abbreviation level := (bcast_level log file t a b n a0 b0 n0).
Abbreviation state := (bcast_state log file t a b n a0 b0 n0).

Lemma in_group_test (r : Z) : 0 <= r < 2 ^ t -> (0 <=? r) && (r <? 2 ^ t) = true.
Proof. intros Hr. apply andb_true_iff. rewrite Z.leb_le, Z.ltb_lt. lia. Qed.

Lemma rem_pow2_half (r e : Z) :
  1 <= e -> 0 <= r -> Z.rem r (2 ^ e) = 0 -> Z.rem r (2 ^ (e - 1)) = 0.
Proof.
  intros He Hr Hrem.
  pose proof (pow2_pos e ltac:(lia)). pose proof (pow2_pos (e - 1) ltac:(lia)).
  rewrite Z.rem_mod_nonneg in * by lia.
  apply Z.mod_divide in Hrem; [|lia]. destruct Hrem as [z Hz].
  apply Z.mod_divide; [lia|]. exists (z * 2).
  replace e with (Z.succ (e - 1)) in Hz at 1 by lia.
  rewrite Z.pow_succ_r in Hz by lia. lia.
Qed.

(** A rank that is not a multiple of [core_difference] is idle. *)
Lemma level_idle (i : nat) (r : Z) :
  Z.of_nat i < t -> 0 <= r < 2 ^ t ->
  Z.rem r (2 ^ (t - Z.of_nat i - 1)) <> 0 ->
  level (S i) r = level i r.
Proof.
  intros Hi Hr Hrem. unfold bcast_level. rewrite in_group_test by assumption.
  replace (t - Z.of_nat (S i)) with (t - Z.of_nat i - 1) by lia.
  set (e := t - Z.of_nat i) in *.
  pose proof (pow2_pos e ltac:(lia)) as Hd.
  pose proof (pow2_pos (e - 1) ltac:(lia)) as Hc.
  assert (Hrem' : Z.rem r (2 ^ e) <> 0).
  { intros H0. apply Hrem. apply rem_pow2_half; [lia|lia|assumption]. }
  apply Z.eqb_neq in Hrem, Hrem'. rewrite Hrem, Hrem'.
  replace (Z.to_nat e) with (S (Z.to_nat (e - 1))) by lia.
  cbn [bcast_loop]. rewrite !(halve_pow2 e) by lia.
  unfold role_of. rewrite Hrem, Hrem'. cbn [andb].
  destruct (Z.eqb_spec (2 ^ e) 0); [lia|].
  destruct (Z.eqb_spec (2 ^ (e - 1)) 0); [lia|]. reflexivity.
Qed.

(** A multiple of [divisor] sends to its partner and moves on. *)
Lemma level_sender (i : nat) (k : Z) :
  Z.of_nat i < t -> 0 <= k < 2 ^ t ->
  Z.rem k (2 ^ (t - Z.of_nat i)) = 0 ->
  let dest := k + 2 ^ (t - Z.of_nat i - 1) in
  level i k =
  MPI_Send (VDouble a0) dest
    (MPI_Send (VDouble b0) dest (MPI_Send (VInt n0) dest (level (S i) k))).
Proof.
  intros Hi Hk Hrem dest. unfold dest, bcast_level. rewrite in_group_test by assumption.
  replace (t - Z.of_nat (S i)) with (t - Z.of_nat i - 1) by lia.
  set (e := t - Z.of_nat i) in *.
  pose proof (pow2_pos e ltac:(lia)) as Hd.
  pose proof (rem_pow2_half k e ltac:(lia) ltac:(lia) Hrem) as Hhalf.
  rewrite Hrem, Hhalf. cbn [Z.eqb].
  replace (Z.to_nat e) with (S (Z.to_nat (e - 1))) by lia.
  cbn [bcast_loop]. rewrite !(halve_pow2 e) by lia.
  assert (Hrole : role_of k (2 ^ t) (2 ^ e) (2 ^ (e - 1)) = Some Sender).
  { apply role_of_sender; [lia|]. split; [assumption|].
    apply partner_inside; [lia|assumption|assumption]. }
  rewrite Hrole. reflexivity.
Qed.

(** Its partner receives from it and moves on with what it received. *)
Lemma level_receiver (i : nat) (k : Z) :
  Z.of_nat i < t -> 0 <= k < 2 ^ t ->
  Z.rem k (2 ^ (t - Z.of_nat i)) = 0 ->
  let e := t - Z.of_nat i in
  let r := k + 2 ^ (e - 1) in
  level i r =
  recv_double k (fun a' => recv_double k (fun b' => recv_int k (fun n' =>
    bcast_loop (Z.to_nat (e - 1)) r (2 ^ t) (2 ^ (e - 1)) (2 ^ (e - 1) ÷ 2) a' b' n'))) /\
  level (S i) r =
  bcast_loop (Z.to_nat (e - 1)) r (2 ^ t) (2 ^ (e - 1)) (2 ^ (e - 1) ÷ 2) a0 b0 n0.
Proof.
  intros Hi Hk Hrem e r. unfold r, bcast_level.
  replace (t - Z.of_nat (S i)) with (t - Z.of_nat i - 1) by lia.
  fold e in Hrem |- *.
  pose proof (pow2_pos e ltac:(lia)) as Hd.
  pose proof (pow2_pos (e - 1) ltac:(lia)) as Hc.
  assert (Hdc : 2 ^ e = 2 * 2 ^ (e - 1)).
  { replace e with (Z.succ (e - 1)) at 1 by lia. apply Z.pow_succ_r. lia. }
  pose proof (partner_inside t e k ltac:(lia) Hk Hrem) as Hin.
  rewrite in_group_test by lia.
  pose proof (rem_pow2_half k e ltac:(lia) ltac:(lia) Hrem) as Hhalf.
  rewrite Z.rem_mod_nonneg in Hrem, Hhalf by lia.
  apply Z.mod_divide in Hrem; [|lia]. destruct Hrem as [z Hz].
  assert (Hr1 : Z.rem (k + 2 ^ (e - 1)) (2 ^ (e - 1)) = 0).
  { rewrite Z.rem_mod_nonneg by lia. apply Z.mod_divide; [lia|].
    exists (2 * z + 1). lia. }
  assert (Hr2 : Z.rem (k + 2 ^ (e - 1)) (2 ^ e) <> 0).
  { rewrite Z.rem_mod_nonneg by lia. intros H0.
    apply Z.mod_divide in H0; [|lia]. destruct H0 as [z' Hz'].
    rewrite Hdc in Hz, Hz'.
    assert (Hzz : 2 ^ (e - 1) * (2 * z' - 2 * z - 1) = 0) by lia.
    apply Z.mul_eq_0 in Hzz. lia. }
  rewrite Hr1. cbn [Z.eqb]. apply Z.eqb_neq in Hr2. rewrite Hr2.
  split; [|reflexivity].
  replace (Z.to_nat e) with (S (Z.to_nat (e - 1))) by lia.
  cbn [bcast_loop]. rewrite !(halve_pow2 e) by lia.
  unfold role_of. rewrite Hr1, Hr2. cbn [andb Z.eqb].
  destruct (Z.eqb_spec (2 ^ e) 0); [lia|].
  destruct (Z.eqb_spec (2 ^ (e - 1)) 0); [lia|].
  now rewrite Z.add_simpl_r.
Qed.

Lemma state_quiet (i : nat) (q : Z) : quiet (state i q).
Proof. intros s d. reflexivity. Qed.

(** The next sender of iteration [i] hands the values to its partner. *)
Lemma state_next_pair (i : nat) (q : Z) :
  Z.of_nat i < t -> 0 <= q < 2 ^ Z.of_nat i ->
  steps (state i q) (state i (q + 1)).
Proof.
  intros Hi Hq.
  set (e := t - Z.of_nat i).
  pose proof (pow2_pos e ltac:(lia)) as Hd.
  pose proof (pow2_pos (e - 1) ltac:(lia)) as Hc.
  assert (Hdc : 2 ^ e = 2 * 2 ^ (e - 1)).
  { replace e with (Z.succ (e - 1)) at 1 by lia. apply Z.pow_succ_r. lia. }
  assert (Ht : 2 ^ t = 2 ^ Z.of_nat i * 2 ^ e).
  { rewrite <- Z.pow_add_r by lia. f_equal. lia. }
  set (k := q * 2 ^ e).
  assert (Hk : 0 <= k < 2 ^ t) by (unfold k; nia).
  assert (Hblock : k + 2 ^ e <= 2 ^ t) by (unfold k; nia).
  assert (Hkrem : Z.rem k (2 ^ e) = 0).
  { rewrite Z.rem_mod_nonneg by lia. apply Z.mod_mul. lia. }
  pose proof (partner_inside t e k ltac:(lia) Hk Hkrem) as Hin.
  pose proof (level_sender i k Hi Hk Hkrem) as Hsend. cbn zeta in Hsend. fold e in Hsend.
  pose proof (level_receiver i k Hi Hk Hkrem) as [Hrecv Hnext]. cbn zeta in Hrecv, Hnext.
  fold e in Hrecv, Hnext.
  eapply steps_same_r.
  - eapply (transfer (state i q) k (k + 2 ^ (e - 1))
              (VDouble a0) (VDouble b0) (VInt n0) (level (S i) k)).
    + apply state_quiet.
    + unfold in_group. cbn. lia.
    + unfold in_group. cbn. lia.
    + cbn [procs bcast_state]. fold e. fold k.
      rewrite Z.ltb_irrefl. exact Hsend.
    + cbn [procs bcast_state]. fold e. fold k.
      destruct (Z.ltb_spec (k + 2 ^ (e - 1)) k); [lia|].
      rewrite Hrecv. unfold recv_double. reflexivity.
    + reflexivity.
    + reflexivity.
  - repeat split. intros r. cbn [procs bcast_state size chan out]. fold e. fold k.
    unfold set_proc.
    replace ((q + 1) * 2 ^ e) with (k + 2 ^ e) by (unfold k; lia).
    destruct (Z.eqb_spec r (k + 2 ^ (e - 1))) as [->|Hne1].
    { destruct (Z.ltb_spec (k + 2 ^ (e - 1)) (k + 2 ^ e)); [|lia]. exact Hnext. }
    destruct (Z.eqb_spec r k) as [->|Hne2].
    { destruct (Z.ltb_spec k (k + 2 ^ e)); [reflexivity|lia]. }
    destruct (Z.ltb_spec r (k + 2 ^ e)) as [Hlt|Hge];
      destruct (Z.ltb_spec r k) as [Hlt'|Hge']; try reflexivity; try lia.
    apply level_idle; [assumption|lia|]. fold e.
    rewrite Z.rem_mod_nonneg by lia. intros H0.
    apply Z.mod_divide in H0; [|lia]. destruct H0 as [z Hz].
    assert (Hzz : 2 * q < z < 2 * q + 2) by (unfold k in *; nia).
    assert (z = 2 * q + 1) by lia. subst z. unfold k in *. lia.
Qed.

Lemma state_pairs (i j : nat) :
  Z.of_nat i < t -> Z.of_nat j <= 2 ^ Z.of_nat i ->
  steps (state i 0) (state i (Z.of_nat j)).
Proof.
  intros Hi. induction j as [|j IH]; intros Hj.
  - apply steps_refl, same_refl.
  - eapply steps_trans; [apply IH; lia|].
    replace (Z.of_nat (S j)) with (Z.of_nat j + 1) by lia.
    apply state_next_pair; [assumption|lia].
Qed.

Lemma level_outside (i : nat) (r : Z) :
  ~ 0 <= r < 2 ^ t -> level i r = Get_input log file r (2 ^ t) (a r) (b r) (n r).
Proof.
  intros Hr. unfold bcast_level.
  destruct (Z.leb_spec 0 r), (Z.ltb_spec r (2 ^ t)); cbn [andb]; try reflexivity. lia.
Qed.

(** When every sender of iteration [i] is done, iteration [i + 1] starts. *)
Lemma state_level_done (i : nat) :
  Z.of_nat i < t -> same (state (S i) 0) (state i (2 ^ Z.of_nat i)).
Proof.
  intros Hi. repeat split. intros r. cbn [procs bcast_state].
  replace (2 ^ Z.of_nat i * 2 ^ (t - Z.of_nat i)) with (2 ^ t)
    by (rewrite <- Z.pow_add_r by lia; f_equal; lia).
  rewrite Z.mul_0_l.
  destruct (Z.ltb_spec r 0), (Z.ltb_spec r (2 ^ t)); try reflexivity.
  - rewrite !level_outside by lia. reflexivity.
  - pose proof (pow2_pos t t_nonneg). lia.
  - rewrite !level_outside by lia. reflexivity.
Qed.

Lemma state_levels (i : nat) :
  Z.of_nat i <= t -> steps (state 0 0) (state i 0).
Proof.
  induction i as [|i IH]; intros Hi.
  - apply steps_refl, same_refl.
  - eapply steps_trans; [apply IH; lia|].
    eapply steps_same_r; [|apply state_level_done; lia].
    pose proof (pow2_pos (Z.of_nat i) ltac:(lia)) as Hp.
    rewrite <- (Z2Nat.id (2 ^ Z.of_nat i)) by lia.
    apply state_pairs; [lia|]. rewrite Z2Nat.id; lia.
Qed.

(** After the last iteration every process has returned with the root's
    values. *)
Lemma state_last (r : Z) :
  0 <= r < 2 ^ t -> procs (state (Z.to_nat t) 0) r = Ret (a0, b0, n0).
Proof.
  intros Hr. cbn [procs bcast_state]. rewrite Z.mul_0_l.
  destruct (Z.ltb_spec r 0); [lia|].
  unfold bcast_level. rewrite in_group_test by assumption.
  rewrite Z2Nat.id, Z.sub_diag by assumption.
  cbn [Z.pow Z.to_nat]. rewrite Z.rem_1_r. reflexivity.
Qed.
End PowerOfTwo.

Lemma exact_count_pow2 (t : Z) : 0 <= t -> exact_count (2 ^ t) = t.
Proof. apply Z.log2_up_pow2. Qed.

(** The first two steps of the root: the two lines it prints. *)
Lemma broadcast_start_pow2 (s : scanned) (t : Z) a b n a0 b0 n0 :
  0 <= t <= 30 -> Get_input_count log (2 ^ t) = Some t ->
  fscanf s (a 0) (b 0) (n 0) = (a0, b0, n0) ->
  steps (Get_input_net log (file_with s) (2 ^ t) a b n)
        (bcast_state log (file_with s) t a b n a0 b0 n0 0 0).
Proof.
  intros Ht Hcount Hv.
  pose proof (pow2_pos t ltac:(lia)) as Hp.
  assert (Hfrom : forall file r a b n,
             Get_input log file r (2 ^ t) a b n =
             Get_input_from t (2 ^ t) file r (2 ^ t) a b n)
    by (intros; apply Get_input_defined; [exact Hcount|lia]).
  set (x0 := Get_input_net log (file_with s) (2 ^ t) a b n).
  set (L := bcast_loop (Z.to_nat t) 0 (2 ^ t) (2 ^ t) (2 ^ t ÷ 2) a0 b0 n0).
  assert (H0 : procs x0 0 =
               printf (out_I_am 0) (printf (out_input_values a0 b0 n0) L)).
  { unfold x0. cbn [procs Get_input_net].
    rewrite Hfrom, Get_input_from_root, Hv. reflexivity. }
  assert (Hin : in_group x0 0) by (unfold in_group; cbn; lia).
  set (x1 := Net (size x0) (set_proc 0 (printf (out_input_values a0 b0 n0) L) (procs x0))
                 (chan x0) (out x0 ++ [(0, out_I_am 0)])).
  assert (S1 : step x0 x1) by (eapply step_printf; [exact Hin|exact H0|apply same_refl]).
  set (x2 := Net (size x1) (set_proc 0 L (procs x1)) (chan x1)
                 (out x1 ++ [(0, out_input_values a0 b0 n0)])).
  assert (S2 : step x1 x2).
  { eapply step_printf; [exact Hin| |apply same_refl]. reflexivity. }
  apply steps_same_r with (y := x2).
  { eapply steps_more; [eapply steps_more; [apply steps_refl, same_refl|exact S1]|exact S2]. }
  repeat split. intros r. cbn [procs bcast_state x2 x1]. unfold set_proc.
  rewrite Z.mul_0_l.
  destruct (Z.ltb_spec r 0) as [Hneg|Hpos].
  - destruct (Z.eqb_spec r 0); [lia|]. rewrite level_outside by lia. reflexivity.
  - unfold bcast_level. rewrite Z.sub_0_r.
    destruct (Z.ltb_spec r (2 ^ t)) as [Hlt|Hge].
    + destruct (Z.leb_spec 0 r); [|lia]. cbn [andb].
      destruct (Z.eqb_spec r 0) as [->|Hr0].
      * rewrite Z.rem_0_l by lia. reflexivity.
      * rewrite Z.rem_small by lia.
        destruct (Z.eqb_spec r 0); [lia|].
        unfold x0. cbn [procs Get_input_net].
        rewrite Hfrom, Get_input_from_nonroot by assumption. reflexivity.
    + destruct (Z.eqb_spec r 0); [lia|]. rewrite andb_false_r. reflexivity.
Qed.

(** In a group of [2 ^ t] for which line 113 gives the count [t], the
    broadcast can run to completion, and then every rank holds the values the
    root had after reading the file. *)
Lemma broadcast_completes_pow2 (s : scanned) (t : Z) a b n :
  0 <= t <= 30 -> Get_input_count log (2 ^ t) = Some t ->
  exists y, steps (Get_input_net log (file_with s) (2 ^ t) a b n) y /\
            forall r, in_group y r -> procs y r = Ret (fscanf s (a 0) (b 0) (n 0)).
Proof.
  intros Ht Hcount.
  destruct (fscanf s (a 0) (b 0) (n 0)) as [[a0 b0] n0] eqn:Hv.
  exists (bcast_state log (file_with s) t a b n a0 b0 n0 (Z.to_nat t) 0). split.
  - eapply steps_trans; [apply broadcast_start_pow2; eassumption|].
    apply state_levels; [lia|]. rewrite Z2Nat.id; lia.
  - intros r Hr. apply state_last; [lia|assumption].
Qed.

(** ** The whole program in a group that is not a power of two *)

Lemma awaits_bind {A B : Type} (s : Z) (p : proc A) (g : A -> proc B) :
  awaits s p -> awaits s (bind p g).
Proof.
  intros Hp. induction Hp; cbn; try (constructor; auto).
Qed.

Lemma no_send_to_bind {A B : Type} (d : Z) (p : proc A) (g : A -> proc B) :
  no_send_to d p -> (forall x, no_send_to d (g x)) -> no_send_to d (bind p g).
Proof.
  intros Hp Hg. induction Hp; cbn; try (constructor; auto).
  apply Hg.
Qed.

Lemma no_send_to_Reduce_loop (d : Z) (m : nat) : forall source total_int,
  no_send_to d (Reduce_loop m source total_int).
Proof.
  induction m as [|m IH]; intros; cbn [Reduce_loop]; [constructor|].
  unfold recv_double. constructor. intros [x|]; [apply IH|constructor].
Qed.

(** After [Get_input] a process sends to rank 0 at most. *)
Lemma no_send_to_main_after_input (d my_rank comm_sz : Z) a b n total_int :
  d <> 0 -> no_send_to d (main_after_input my_rank comm_sz a b n total_int).
Proof.
  intros Hd. unfold main_after_input, Reduce.
  destruct (my_rank =? 0); cbn [negb].
  - apply no_send_to_bind; [apply no_send_to_Reduce_loop|].
    intros x. do 3 constructor.
  - cbn. constructor; [congruence|]. constructor.
Qed.

(** With a group size that is not a power of two, and a count that is the
    exact one or more, one rank of the whole program waits for ever for a rank
    that has nothing to send to it. *)
Lemma main_starved (comm_sz : Z) file a b n total_int :
  1 <= comm_sz -> (forall t, 0 <= t -> comm_sz <> 2 ^ t) ->
  (forall count, Get_input_count log comm_sz = Some count ->
                 exact_count comm_sz <= count) ->
  exists s d, 0 < s < d /\ d < comm_sz /\
    forall y, steps (main_net log file comm_sz a b n total_int) y -> starved s d y.
Proof.
  intros Hn Hnp Hcover.
  destruct (stranded_in_Get_input comm_sz Hn Hnp Hcover)
    as (s & d & Hs & Hd & Hnone & Hwait).
  exists s, d. split; [exact Hs|]. split; [exact Hd|]. intros y Hy.
  apply (starved_forever s d (main_net log file comm_sz a b n total_int)); [lia| |exact Hy].
  split; [reflexivity|]. cbn [procs main_net]. unfold main. split.
  - apply no_send_to_bind; [apply Hnone|].
    intros [[a' b'] n']. apply no_send_to_main_after_input. lia.
  - apply awaits_bind, Hwait.
Qed.

(** So the program never ends: the stranded rank stays in [Get_input]. *)
Lemma main_blocks_unless_power_of_two (comm_sz : Z) file a b n total_int :
  1 <= comm_sz -> (forall t, 0 <= t -> comm_sz <> 2 ^ t) ->
  (forall count, Get_input_count log comm_sz = Some count ->
                 exact_count comm_sz <= count) ->
  forall y, steps (main_net log file comm_sz a b n total_int) y -> ~ finished y.
Proof.
  intros Hn Hnp Hcover y Hy.
  destruct (main_starved comm_sz file a b n total_int Hn Hnp Hcover)
    as (s & d & Hs & Hd & Hst).
  apply (starved_not_finished s d); [|apply Hst, Hy].
  unfold in_group. rewrite (steps_size _ _ Hy). cbn. lia.
Qed.

(** ** The broadcast from rank 0 *)

(** C1, as the code has it.  The root is rank 0, the rank that reads the
    input.  For every group size [comm_sz >= 1] at which line 113 gives a
    count that is not below [ceil(log2 comm_sz)], in every execution, a rank
    at which the broadcast phase of [Get_input] completes holds the root's
    [(a, b, n)], equal bit for bit; when [comm_sz] is a power of two, [2 ^ t],
    and the count is [t], the loop has [t] iterations and the broadcast can
    complete at all ranks. *)
Theorem broadcast_from_rank_zero (s : scanned) (comm_sz : Z)
    (a b : Z -> float) (n : Z -> Z) :
  1 <= comm_sz ->
  (forall count, Get_input_count log comm_sz = Some count ->
                 exact_count comm_sz <= count) ->
  let x0 := Get_input_net log (file_with s) comm_sz a b n in
  let config := fscanf s (a 0) (b 0) (n 0) in
  (forall y r v, steps x0 y -> in_group y r -> procs y r = Ret v -> v = config) /\
  (forall t, 0 <= t <= 30 -> comm_sz = 2 ^ t ->
     Get_input_count log comm_sz = Some t ->
     (forall file r a' b' n',
         Get_input log file r comm_sz a' b' n' =
         Get_input_from t (2 ^ t) file r comm_sz a' b' n') /\
     exists y, steps x0 y /\ finished y /\
               forall r, in_group y r -> procs y r = Ret config).
Proof.
  intros Hn Hcover x0 config. split.
  - intros y r v Hy Hr Hret.
    exact (broadcast_returns_root_values s a b n comm_sz y r v Hn Hcover Hy Hr Hret).
  - intros t Ht -> Hcount. split.
    + intros. apply Get_input_defined; [exact Hcount|lia].
    + destruct (broadcast_completes_pow2 s t a b n Ht Hcount) as (y & Hy & Hall).
      exists y. split; [exact Hy|]. split; [|exact Hall].
      intros r Hr. eexists. apply Hall, Hr.
Qed.

(** ** An input file that cannot be read *)


(** * Further properties of the program *)

(** ** A rank that never leaves [Get_input] *)

(** X1.  For every group size that is not a power of two, with a count of
    line 113 that is not below [ceil(log2 comm_sz)], there is a rank of the
    group, other than rank 0, that does not return from [Get_input] in any
    execution; it is the same rank whatever the input file holds and whatever
    the variables of the processes held. *)
Theorem Get_input_strands_a_rank (comm_sz : Z) :
  1 <= comm_sz -> (forall t, 0 <= t -> comm_sz <> 2 ^ t) ->
  (forall count, Get_input_count log comm_sz = Some count ->
                 exact_count comm_sz <= count) ->
  exists d, 0 < d < comm_sz /\
    forall file a b n y,
      steps (Get_input_net log file comm_sz a b n) y ->
      result (procs y d) = None.
Proof.
  intros Hn Hnp Hcover.
  destruct (stranded_in_Get_input comm_sz Hn Hnp Hcover)
    as (s & d & Hs & Hd & Hnone & Hwait).
  exists d. split; [lia|]. intros file a b n y Hy.
  assert (Hst : starved s d y).
  { apply (starved_forever s d (Get_input_net log file comm_sz a b n)); [lia| |exact Hy].
    split; [reflexivity|]. cbn [procs Get_input_net].
    split; [apply Hnone|apply Hwait]. }
  destruct Hst as (_ & _ & Ha).
  destruct (procs y d) as [v| | | |]; try reflexivity.
  now apply awaits_ret_inv in Ha.
Qed.

Lemma six_not_power_of_two (t : Z) : 0 <= t -> 6 <> 2 ^ t.
Proof.
  intros Ht Heq.
  destruct (Z_lt_ge_dec t 3) as [Hlt|Hge].
  - assert (Hc : t = 0 \/ t = 1 \/ t = 2) by lia.
    destruct Hc as [Hc|[Hc|Hc]]; subst t; discriminate Heq.
  - assert (2 ^ 3 <= 2 ^ t) by (apply Z.pow_le_mono_r; lia).
    change (2 ^ 3) with 8 in *. lia.
Defined.

(** ** Senders and receivers in a group of [2 ^ t] *)

Lemma role_of_sender_pow2 (t j k : Z) :
  1 <= j <= t -> 0 <= k < 2 ^ t ->
  role_of k (2 ^ t) (2 ^ j) (2 ^ (j - 1)) = Some Sender <-> Z.rem k (2 ^ j) = 0.
Proof.
  intros Hj Hk. pose proof (pow2_pos j ltac:(lia)).
  rewrite role_of_sender by lia.
  pose proof (partner_inside t j k Hj Hk). tauto.
Qed.

Lemma sender_partner_receives_pow2 (t j k : Z) :
  1 <= j <= t -> 0 <= k < 2 ^ t ->
  role_of k (2 ^ t) (2 ^ j) (2 ^ (j - 1)) = Some Sender ->
  role_of (k + 2 ^ (j - 1)) (2 ^ t) (2 ^ j) (2 ^ (j - 1)) = Some Receiver.
Proof.
  intros Hj Hk Hrole.
  pose proof (pow2_pos j ltac:(lia)) as Hpj.
  pose proof (pow2_pos (j - 1) ltac:(lia)) as Hpc.
  assert (Hdc : 2 ^ j = 2 * 2 ^ (j - 1)).
  { replace j with (Z.succ (j - 1)) at 1 by lia. apply Z.pow_succ_r. lia. }
  apply role_of_sender in Hrole; [|lia]. destruct Hrole as [Hrem Hin].
  rewrite Z.rem_mod_nonneg in Hrem by lia.
  apply Z.mod_divide in Hrem; [|lia]. destruct Hrem as [z Hz].
  apply role_of_receiver_pow2; [assumption|lia|].
  rewrite !Z.rem_mod_nonneg by lia. split.
  - apply Z.mod_divide; [lia|]. exists (2 * z + 1). lia.
  - intros H0. apply Z.mod_divide in H0; [|lia]. destruct H0 as [z' Hz'].
    rewrite Hdc in Hz, Hz'.
    assert (Hzz : 2 ^ (j - 1) * (2 * z' - 2 * z - 1) = 0) by lia.
    apply Z.mul_eq_0 in Hzz. lia.
Qed.

(** X2.  In a group of [2 ^ t] processes, at the iteration of the broadcast
    loop with [divisor = 2 ^ j] and [core_difference = 2 ^ (j - 1)], the ranks
    that send are exactly the multiples of [divisor], the ranks that receive
    are exactly the other multiples of [core_difference], and sends and
    receives pair up: the rank [k + core_difference] a sender [k] sends to
    takes the receive branch and names [k], and the rank [k - core_difference]
    a receiver names takes the send branch and sends to [k]. *)
Theorem roles_pair_up_pow2 (t j k : Z) :
  1 <= j <= t -> 0 <= k < 2 ^ t ->
  let comm_sz := 2 ^ t in
  let divisor := 2 ^ j in
  let core_difference := 2 ^ (j - 1) in
  (role_of k comm_sz divisor core_difference = Some Sender <->
   Z.rem k divisor = 0) /\
  (role_of k comm_sz divisor core_difference = Some Receiver <->
   Z.rem k core_difference = 0 /\ Z.rem k divisor <> 0) /\
  (role_of k comm_sz divisor core_difference = Some Sender ->
   role_of (k + core_difference) comm_sz divisor core_difference = Some Receiver /\
   k + core_difference - core_difference = k /\
   0 <= k + core_difference < comm_sz) /\
  (role_of k comm_sz divisor core_difference = Some Receiver ->
   role_of (k - core_difference) comm_sz divisor core_difference = Some Sender /\
   k - core_difference + core_difference = k /\
   0 <= k - core_difference < comm_sz).
Proof.
  intros Hj Hk comm_sz divisor core_difference.
  pose proof (pow2_pos (j - 1) ltac:(lia)) as Hpc.
  split; [now apply role_of_sender_pow2|].
  split; [now apply role_of_receiver_pow2|]. split.
  - intros Hrole. split; [now apply sender_partner_receives_pow2|].
    split; [lia|].
    apply role_of_sender_pow2 in Hrole; [|assumption..].
    pose proof (partner_inside t j k Hj Hk Hrole).
    unfold core_difference, comm_sz. lia.
  - intros Hrole.
    pose proof (receiver_source_sends_pow2 t j k Hj Hk Hrole) as Hsrc.
    split; [exact Hsrc|]. split; [lia|].
    apply role_of_receiver_pow2 in Hrole; [|assumption..].
    destruct Hrole as [Hc Hd].
    rewrite Z.rem_mod_nonneg in Hc by lia.
    apply Z.mod_divide in Hc; [|lia]. destruct Hc as [z Hz].
    assert (z <> 0).
    { intros ->. apply Hd. replace k with 0 by lia. apply Z.rem_0_l.
      pose proof (pow2_pos j ltac:(lia)). unfold divisor. lia. }
    unfold core_difference, comm_sz. nia.
Qed.

(** X2 in a group of eight, second iteration: rank 4 sends to rank 6. *)
Lemma roles_pair_up_pow2_witness :
  (1 <= 2 <= 3 /\ 0 <= 4 < 2 ^ 3) /\
  role_of 4 8 4 2 = Some Sender /\
  role_of (4 + 2) 8 4 2 = Some Receiver.
Proof.
  assert (Hj : 1 <= 2 <= 3) by lia.
  assert (Hk : 0 <= 4 < 2 ^ 3) by (cbn; lia).
  split; [split; assumption|].
  destruct (roles_pair_up_pow2 3 2 4 Hj Hk) as (Hs & _ & Hpair & _).
  assert (Hrole : role_of 4 8 4 2 = Some Sender) by (apply Hs; reflexivity).
  split; [exact Hrole|]. exact (proj1 (Hpair Hrole)).
Defined.

(** ** The ranks the program names *)

Lemma peers_valid_bind {A B : Type} (me comm_sz : Z) (p : proc A) (g : A -> proc B) :
  peers_valid me comm_sz p -> (forall x, peers_valid me comm_sz (g x)) ->
  peers_valid me comm_sz (bind p g).
Proof.
  intros Hp Hg. induction Hp; cbn; try (constructor; auto).
  apply Hg.
Qed.

Lemma peers_valid_bcast_loop (m : nat) : forall e my_rank comm_sz a b n,
  Z.of_nat m <= e -> 0 <= my_rank < comm_sz ->
  (my_rank = 0 -> 2 ^ (e - 1) < comm_sz) ->
  peers_valid my_rank comm_sz
              (bcast_loop m my_rank comm_sz (2 ^ e) (2 ^ e ÷ 2) a b n).
Proof.
  induction m as [|m IH]; intros e my_rank comm_sz a b n He Hr Hroot;
    cbn [bcast_loop]; [constructor|].
  pose proof (pow2_pos e ltac:(lia)) as Hd.
  pose proof (pow2_pos (e - 1) ltac:(lia)) as Hc.
  rewrite !(halve_pow2 e) by lia.
  assert (Hnext : forall a b n,
             peers_valid my_rank comm_sz
               (bcast_loop m my_rank comm_sz (2 ^ (e - 1)) (2 ^ (e - 1) ÷ 2) a b n)).
  { intros. apply IH; [lia|assumption|]. intros H0.
    specialize (Hroot H0).
    destruct (Z.eq_dec e 1) as [He1|He1].
    - subst e. cbn. lia.
    - pose proof (pow2_lt (e - 1 - 1) (e - 1) ltac:(lia)). lia. }
  destruct (role_of my_rank comm_sz (2 ^ e) (2 ^ (e - 1))) as [[| |]|] eqn:Hrole.
  - apply role_of_sender in Hrole; [|lia]. destruct Hrole as [_ Hin].
    do 3 (constructor; [lia|lia|]). apply Hnext.
  - apply role_of_receiver in Hrole; [|lia|lia]. destruct Hrole as [Hrem Hnot].
    assert (Hsrc : 2 ^ (e - 1) <= my_rank).
    { destruct (Z.eq_dec my_rank 0) as [H0|H0].
      - exfalso. apply Hnot. subst my_rank. split; [apply Z.rem_0_l; lia|].
        specialize (Hroot eq_refl). lia.
      - rewrite Z.rem_mod_nonneg in Hrem by lia.
        apply Z.mod_divide in Hrem; [|lia]. destruct Hrem as [z Hz].
        destruct (Z_le_gt_dec z 0); nia. }
    unfold recv_double, recv_int.
    constructor; [lia|lia|]. intros [a'|]; [|constructor].
    constructor; [lia|lia|]. intros [b'|]; [|constructor].
    constructor; [lia|lia|]. intros [|n']; [constructor|].
    apply Hnext.
  - apply Hnext.
  - constructor.
Qed.

Lemma peers_valid_Reduce_loop (m : nat) : forall source comm_sz total_int,
  1 <= source -> source + Z.of_nat m <= comm_sz ->
  peers_valid 0 comm_sz (Reduce_loop m source total_int).
Proof.
  induction m as [|m IH]; intros source comm_sz total_int Hs Hm;
    cbn [Reduce_loop]; [constructor|].
  unfold recv_double. constructor; [lia|lia|].
  intros [x|]; [|constructor]. apply IH; lia.
Qed.

(** X3.  Where the count of line 113 is not above [ceil(log2 comm_sz)] and
    at most 30, so that [divisor] is an [int], every process of the group,
    whatever the input file and the messages it receives, passes to [MPI_Send]
    and [MPI_Recv] only ranks of the group, and never its own rank. *)
Theorem main_names_ranks_of_the_group file (my_rank comm_sz count : Z) a b n total_int :
  0 <= my_rank < comm_sz ->
  Get_input_count log comm_sz = Some count ->
  count <= exact_count comm_sz -> count <= 30 ->
  peers_valid my_rank comm_sz (main log file my_rank comm_sz a b n total_int).
Proof.
  intros Hr Hcount Hbound Hle. unfold main. apply peers_valid_bind.
  - rewrite (Get_input_defined file my_rank comm_sz a b n count Hcount Hle).
    unfold Get_input_from. apply peers_valid_bind.
    + destruct (my_rank =? 0); [|constructor].
      unfold read_input. constructor.
      destruct file as [|s]; [constructor|].
      destruct (fscanf s a b n) as [[a' b'] n']. do 2 constructor.
    + intros [[a' b'] n'].
      destruct (Z_le_gt_dec count 0) as [H0|H0].
      * replace (Z.to_nat count) with 0%nat by lia. constructor.
      * apply peers_valid_bcast_loop; [lia|assumption|].
        intros _. apply not_beyond; lia.
  - intros [[a' b'] n']. unfold main_after_input, Reduce.
    destruct (Z.eqb_spec my_rank 0) as [->|Hne]; cbn [negb].
    + apply peers_valid_bind; [apply peers_valid_Reduce_loop; lia|].
      intros x. do 3 constructor.
    + cbn [bind]. constructor; [lia|lia|]. constructor.
Qed.

(** ** The trapezoids the ranks share out *)



(** ** The whole program in a group of [2 ^ t] *)

Section Continued.
Context {A B : Type}.
Variables (g : Z -> A -> proc B) (outside : Z -> proc B) (printed : list (Z * output)).
Implicit Types x y : net A.

Lemma continue_same x y :
  same y x -> same (continue_net g outside printed y) (continue_net g outside printed x).
Proof.
  intros (Hs & Hp & Hc & Ho). repeat split; cbn.
  - exact Hs.
  - intros r. unfold is_rank. now rewrite Hs, Hp.
  - exact Hc.
  - now rewrite Ho.
Qed.

(** An action of the group is an action of the longer program. *)
Lemma continue_step x y :
  step x y -> step (continue_net g outside printed x) (continue_net g outside printed y).
Proof.
  intros [s v d k Hs Hd Hp Hy|r s k v q Hr Hp Hq Hy|r o k Hr Hp Hy].
  - apply (step_send _ _ s v d (bind k (g s))); [exact Hs|exact Hd| |].
    + cbn. apply is_rank_spec in Hs. now rewrite Hs, Hp.
    + eapply same_trans; [apply continue_same, Hy|].
      repeat split. intros r. cbn. unfold set_proc, is_rank. cbn [size].
      destruct (Z.eqb_spec r s) as [->|Hne]; [|reflexivity].
      apply is_rank_spec in Hs. unfold is_rank in Hs. now rewrite Hs.
  - apply (step_recv _ _ r s (fun v => bind (k v) (g r)) v q); [exact Hr| |exact Hq|].
    + cbn. apply is_rank_spec in Hr. now rewrite Hr, Hp.
    + eapply same_trans; [apply continue_same, Hy|].
      repeat split. intros r'. cbn. unfold set_proc, is_rank. cbn [size].
      destruct (Z.eqb_spec r' r) as [->|Hne]; [|reflexivity].
      apply is_rank_spec in Hr. unfold is_rank in Hr. now rewrite Hr.
  - apply (step_printf _ _ r o (bind k (g r))); [exact Hr| |].
    + cbn. apply is_rank_spec in Hr. now rewrite Hr, Hp.
    + eapply same_trans; [apply continue_same, Hy|].
      repeat split; cbn.
      * intros r'. unfold set_proc, is_rank. cbn [size].
        destruct (Z.eqb_spec r' r) as [->|Hne]; [|reflexivity].
        apply is_rank_spec in Hr. unfold is_rank in Hr. now rewrite Hr.
      * apply app_assoc.
Qed.

Lemma continue_steps x y :
  steps x y -> steps (continue_net g outside printed x) (continue_net g outside printed y).
Proof.
  intros Hsteps. induction Hsteps as [y Hs|y z _ IH Hstep].
  - apply steps_refl, continue_same, Hs.
  - eapply steps_more; [exact IH|apply continue_step, Hstep].
Qed.
End Continued.

(** One execution of the whole program: the broadcast iteration by iteration,
    the reduction rank by rank, then the two result lines. *)
Lemma main_run_pow2 (s : scanned) (t : Z) a b n total_int :
  0 <= t <= 30 -> Get_input_count log (2 ^ t) = Some t ->
  exists y,
    steps (main_net log (file_with s) (2 ^ t) a b n total_int) y /\
    finished y /\
    let '(a0, b0, n0) := fscanf s (a 0) (b 0) (n 0) in
    out y = map (fun o => (0, o)) (expected_output (2 ^ t) a0 b0 n0).
Proof.
  intros Ht Hcount.
  destruct (fscanf s (a 0) (b 0) (n 0)) as [[a0 b0] n0] eqn:Hv.
  pose proof (pow2_pos t ltac:(lia)) as HN.
  set (gA := fun (r : Z) (v : float * float * Z) =>
               let '(a', b', n') := v in
               main_after_input r (2 ^ t) a' b' n' (total_int r)).
  set (outA := fun r => main log (file_with s) r (2 ^ t) (a r) (b r) (n r) (total_int r)).
  set (loc := fun r => local_estimate r (2 ^ t) a0 b0 n0).
  set (M := Z.to_nat (2 ^ t - 1)).
  set (lines := [(0, out_I_am 0); (0, out_input_values a0 b0 n0)]).
  set (gB := fun (r : Z) (tot : float) =>
               if r =? 0
               then printf (out_trapezoids n0) (printf (out_estimate a0 b0 tot) (Ret tt))
               else Ret tt).
  set (xA := bcast_state log (file_with s) t a b n a0 b0 n0 (Z.to_nat t) 0).
  set (xB := continue_net gB outA lines (Reduce_state (2 ^ t) loc total_int M)).
  assert (SA : steps (main_net log (file_with s) (2 ^ t) a b n total_int)
                     (continue_net gA outA [] xA)).
  { eapply steps_same_l;
      [|apply continue_steps; eapply steps_trans;
        [apply broadcast_start_pow2; eassumption
        |apply state_levels; [lia|rewrite Z2Nat.id; lia]]].
    repeat split. intros r. cbn. destruct (is_rank _ r); reflexivity. }
  assert (SB : steps (continue_net gA outA [] xA) xB).
  { eapply steps_same_l;
      [|apply continue_steps, (Reduce_state_reached (2 ^ t) loc total_int ltac:(lia) M);
        reflexivity].
    repeat split. intros r. cbn [procs continue_net]. unfold is_rank.
    cbn [size Reduce_state xA bcast_state].
    destruct ((0 <=? r) && (r <? 2 ^ t)) eqn:Hin; [|reflexivity].
    apply andb_true_iff in Hin. rewrite Z.leb_le, Z.ltb_lt in Hin.
    unfold xA. rewrite state_last by (assumption || lia).
    cbn [procs Reduce_state bind gA]. unfold main_after_input, Reduce.
    destruct (Z.eqb_spec r 0) as [->|Hr0]; cbn [negb andb bind].
    - rewrite Nat.sub_0_r. reflexivity.
    - destruct (Z.ltb_spec 0 r); [|lia]. destruct (Z.leb_spec r (Z.of_nat 0)); [lia|].
      cbn [andb bind]. unfold gB.
      destruct (Z.eqb_spec r 0); [lia|]. reflexivity. }
  assert (H0 : in_group xB 0) by (unfold in_group; cbn; lia).
  set (total := partial_total loc M).
  assert (Hp0 : procs xB 0 =
                printf (out_trapezoids n0) (printf (out_estimate a0 b0 total) (Ret tt))).
  { unfold xB. cbn [procs continue_net]. unfold is_rank. cbn [size Reduce_state].
    destruct (Z.leb_spec 0 0); [|lia]. destruct (Z.ltb_spec 0 (2 ^ t)); [|lia].
    cbn [andb procs Reduce_state]. rewrite Z.eqb_refl, Nat.sub_diag. reflexivity. }
  set (x1 := Net (size xB)
                 (set_proc 0 (printf (out_estimate a0 b0 total) (Ret tt)) (procs xB))
                 (chan xB) (out xB ++ [(0, out_trapezoids n0)])).
  assert (S1 : step xB x1) by (eapply step_printf; [exact H0|exact Hp0|apply same_refl]).
  set (x2 := Net (size x1) (set_proc 0 (Ret tt) (procs x1)) (chan x1)
                 (out x1 ++ [(0, out_estimate a0 b0 total)])).
  assert (S2 : step x1 x2).
  { eapply step_printf; [exact H0| |apply same_refl]. reflexivity. }
  exists x2. split; [|split].
  - eapply steps_more; [|exact S2]. eapply steps_more; [|exact S1].
    eapply steps_trans; [exact SA|exact SB].
  - intros r Hr. exists tt. unfold in_group in Hr. cbn [size x2 x1 xB continue_net Reduce_state] in Hr.
    cbn [procs x2 x1]. unfold set_proc.
    destruct (Z.eqb_spec r 0) as [->|Hr0]; [reflexivity|].
    unfold xB. cbn [procs continue_net]. unfold is_rank. cbn [size Reduce_state].
    destruct (Z.leb_spec 0 r); [|lia]. destruct (Z.ltb_spec r (2 ^ t)); [|lia].
    cbn [andb procs Reduce_state].
    destruct (Z.eqb_spec r 0); [lia|].
    destruct (Z.ltb_spec 0 r); [|lia].
    destruct (Z.leb_spec r (Z.of_nat M)); [|unfold M in *; lia].
    cbn [andb bind]. unfold gB. destruct (Z.eqb_spec r 0); [lia|]. reflexivity.
  - reflexivity.
Qed.

(** ** The output of the program, whatever the group size *)

Section MainInvariant.
Variables (comm_sz : Z) (a0 b0 : float) (n0 : Z).
Implicit Types x y : net unit.

Lemma worker_reported_inv r st p :
  worker_at comm_sz a0 b0 n0 r Reported st p -> p = Ret tt.
Proof. intros H. inversion H; subst; congruence. Qed.

Lemma worker_printf_inv r ph st o k :
  ~ worker_at comm_sz a0 b0 n0 r ph st (printf o k).
Proof. intros H. inversion H. Qed.

Lemma worker_send_inv r ph st v d k :
  worker_at comm_sz a0 b0 n0 r ph st (MPI_Send v d k) ->
  (d <> 0 /\ ph = Informed /\
   exists st',
     worker_at comm_sz a0 b0 n0 r Informed st' k /\
     v = component a0 b0 n0 (sent_to st d) /\
     sent_to st' d = next_position (sent_to st d) /\
     (forall d', d' <> d -> sent_to st d' = 0%nat /\ sent_to st' d' = 0%nat) /\
     (forall s', received_from st s' = 0%nat /\ received_from st' s' = 0%nat)) \/
  (d = 0 /\ ph = Informed /\ st = Between /\
   v = VDouble (local_estimate r comm_sz a0 b0 n0) /\
   worker_at comm_sz a0 b0 n0 r Reported Between k).
Proof.
  intros H. inversion H; subst;
    [left; split; [assumption|]; split; [reflexivity|]; eexists;
     (split; [eassumption|]);
     cbn; rewrite ?Z.eqb_refl; repeat split; intros;
     try reflexivity;
     match goal with
     | |- context [Z.eqb ?x ?y] => destruct (Z.eqb_spec x y); [congruence|reflexivity]
     end..|].
  right. auto.
Qed.

Lemma worker_recv_inv r ph st s k :
  worker_at comm_sz a0 b0 n0 r ph st (MPI_Recv s k) ->
  exists ph' st',
    ph' <> Reported /\
    worker_at comm_sz a0 b0 n0 r ph' st' (k (component a0 b0 n0 (received_from st s))) /\
    received_from st' s = next_position (received_from st s) /\
    (forall s', s' <> s -> received_from st s' = 0%nat /\ received_from st' s' = 0%nat) /\
    (forall d, sent_to st d = 0%nat /\ sent_to st' d = 0%nat).
Proof.
  intros H. inversion H; subst; do 2 eexists;
    (split; [|cbn; rewrite ?Z.eqb_refl; (split; [eassumption|]); cbn; rewrite ?Z.eqb_refl;
              repeat split; intros; try reflexivity;
              match goal with
              | |- context [Z.eqb ?x ?y] =>
                  destruct (Z.eqb_spec x y); [congruence|reflexivity]
              end]);
    first [assumption|discriminate].
Qed.

Lemma root_send_inv j pending st v d k :
  root_at comm_sz a0 b0 n0 j pending st (MPI_Send v d k) ->
  d <> 0 /\
  exists st',
    root_at comm_sz a0 b0 n0 j pending st' k /\
    v = component a0 b0 n0 (sent_to st d) /\
    sent_to st' d = next_position (sent_to st d) /\
    (forall d', d' <> d -> sent_to st d' = 0%nat /\ sent_to st' d' = 0%nat) /\
    (forall s', received_from st s' = 0%nat /\ received_from st' s' = 0%nat).
Proof.
  intros H. inversion H; subst; (split; [assumption|]); eexists;
    (split; [eassumption|]);
    cbn; rewrite ?Z.eqb_refl; repeat split; intros;
    try reflexivity;
    match goal with
    | |- context [Z.eqb ?x ?y] => destruct (Z.eqb_spec x y); [congruence|reflexivity]
    end.
Qed.

Lemma root_recv_inv j pending st s k :
  root_at comm_sz a0 b0 n0 j pending st (MPI_Recv s k) ->
  s < 0 \/
  (s = 1 + Z.of_nat j /\ (j < Z.to_nat (comm_sz - 1))%nat /\ st = Between /\
   root_at comm_sz a0 b0 n0 (S j) pending Between
           (k (VDouble (local_estimate (1 + Z.of_nat j) comm_sz a0 b0 n0)))).
Proof. intros H. inversion H; subst; auto. Qed.

Lemma root_printf_inv j pending st o k :
  root_at comm_sz a0 b0 n0 j pending st (printf o k) ->
  exists pending',
    pending = o :: pending' /\ st = Between /\
    (is_result o = true -> j = Z.to_nat (comm_sz - 1)) /\
    root_at comm_sz a0 b0 n0 j pending' Between k.
Proof. intros H. inversion H; subst. eauto. Qed.

Lemma main_inv_same x y :
  same y x -> main_inv comm_sz a0 b0 n0 x -> main_inv comm_sz a0 b0 n0 y.
Proof.
  intros (Hs & Hp & Hc & Ho)
         (Hsize & st & ph & j & printed & pending & H).
  split; [congruence|].
  exists st, ph, j, printed, pending.
  rewrite Ho, !Hp. 
  destruct H as (H1 & H2 & H3 & H4 & H5 & H6 & H7 & H8).
  repeat split; try assumption.
  - intros r Hr. rewrite Hp. auto.
  - intros s d Hd. rewrite Hc. auto.
  - intros r Hr. rewrite Hc. auto.
  - intros s Hs0. rewrite Hc. auto.
Qed.
Lemma main_inv_step x y :
  step x y -> main_inv comm_sz a0 b0 n0 x -> main_inv comm_sz a0 b0 n0 y.
Proof.
  intros Hstep
    (Hsize & st & ph & j & printed & pending &
     Hlines & Hout & Hres & Hroot & Hwork & Hch & Hred & Hneg).
  destruct Hstep as [s v d k Hs Hd Hp Hy|r s k v q Hr Hp Hq Hy|r o k Hr Hp Hy];
    apply (main_inv_same _ _ Hy); (split; [exact Hsize|]).
  - (* a send *)
    unfold in_group in Hs, Hd. rewrite Hsize in Hs, Hd.
    assert (Hsent_chan : forall st',
      d <> 0 ->
      v = component a0 b0 n0 (sent_to (st s) d) ->
      sent_to st' d = next_position (sent_to (st s) d) ->
      (forall d', d' <> d -> sent_to (st s) d' = 0%nat /\ sent_to st' d' = 0%nat) ->
      (forall s', received_from (st s) s' = 0%nat /\ received_from st' s' = 0%nat) ->
      forall s' d', d' <> 0 ->
        in_flight a0 b0 n0
          (received_from (if d' =? s then st' else st d') s')
          (set_chan s d (chan x s d ++ [v]) (chan x) s' d')
          (sent_to (if s' =? s then st' else st s') d')).
    { intros st' Hd0 -> Hsent Hothers Hrecv s' d' Hd'. unfold set_chan.
      assert (Hr' : received_from (if d' =? s then st' else st d') s' =
                    received_from (st d') s').
      { destruct (Z.eqb_spec d' s) as [->|_]; [|reflexivity].
        destruct (Hrecv s') as [-> ->]. reflexivity. }
      rewrite Hr'.
      destruct (Z.eqb_spec s' s) as [->|Hs']; cbn [andb].
      - destruct (Z.eqb_spec d' d) as [->|Hne].
        + rewrite Hsent. apply in_flight_snoc, Hch, Hd'.
        + destruct (Hothers d' Hne) as [H1 H2]. rewrite H2, <- H1. apply Hch, Hd'.
      - apply Hch, Hd'. }
    assert (Hneg' : forall s0, s0 < 0 ->
                      set_chan s d (chan x s d ++ [v]) (chan x) s0 0 = []).
    { intros s0 Hs0. unfold set_chan.
      destruct (Z.eqb_spec s0 s); [lia|]. cbn [andb]. apply Hneg, Hs0. }
    destruct (Z.eq_dec s 0) as [Hs0|Hs0].
    + (* by the root *)
      subst s. rewrite Hp in Hroot. apply root_send_inv in Hroot.
      destruct Hroot as (Hd0 & st' & Hk & Hv & Hsent & Hothers & Hrecv).
      exists (fun r => if r =? 0 then st' else st r), ph, j, printed, pending.
      split; [exact Hlines|]. split; [exact Hout|]. split; [exact Hres|].
      split; [exact Hk|]. split; [|split; [|split; [|exact Hneg']]].
      * intros r Hr. cbn [procs chan out size]. unfold set_proc.
        destruct (Z.eqb_spec r 0); [lia|]. apply Hwork, Hr.
      * intros s' d' Hd'. cbn [chan]. now apply Hsent_chan.
      * intros r Hr. cbn [procs chan out size]. unfold set_chan.
        destruct (Z.eqb_spec 0 d); [congruence|]. rewrite andb_false_r.
        apply Hred, Hr.
    + (* by another rank *)
      assert (Hs1 : 1 <= s < comm_sz) by lia.
      pose proof (Hwork s Hs1) as Hw. rewrite Hp in Hw. apply worker_send_inv in Hw.
      destruct Hw as [(Hd0 & Hph & st' & Hk & Hv & Hsent & Hothers & Hrecv)
                     |(Hd0 & Hph & Hst & Hv & Hk)].
      * exists (fun r => if r =? s then st' else st r), ph, j, printed, pending.
        split; [exact Hlines|]. split; [exact Hout|]. split; [exact Hres|].
        split; [|split; [|split; [|split; [|exact Hneg']]]].
        -- cbn [procs chan out size]. unfold set_proc.
           destruct (Z.eqb_spec 0 s); [lia|]. exact Hroot.
        -- intros r Hr. cbn [procs chan out size]. unfold set_proc.
           destruct (Z.eqb_spec r s) as [->|Hne]; [|apply Hwork, Hr].
           rewrite Hph. exact Hk.
        -- intros s' d' Hd'. cbn [chan]. now apply Hsent_chan.
        -- intros r Hr. cbn [procs chan out size]. unfold set_chan.
           destruct (Z.eqb_spec 0 d); [congruence|]. rewrite andb_false_r.
           apply Hred, Hr.
      * subst d v.
        exists st, (fun r => if r =? s then Reported else ph r), j, printed, pending.
        split; [exact Hlines|]. split; [exact Hout|]. split; [exact Hres|].
        split; [|split; [|split; [|split; [|exact Hneg']]]].
        -- cbn [procs chan out size]. unfold set_proc.
           destruct (Z.eqb_spec 0 s); [lia|]. exact Hroot.
        -- intros r Hr. cbn [procs chan out size]. unfold set_proc.
           destruct (Z.eqb_spec r s) as [->|Hne]; [|apply Hwork, Hr].
           rewrite Hst. exact Hk.
        -- intros s' d' Hd'. cbn [procs chan out size]. unfold set_chan.
           destruct (Z.eqb_spec d' 0); [contradiction|]. rewrite andb_false_r.
           apply Hch, Hd'.
        -- intros r Hr. cbn [procs chan out size]. unfold set_chan.
           rewrite Z.eqb_refl, andb_true_r.
           destruct (Z.eqb_spec r s) as [->|Hne]; [|apply Hred, Hr].
           destruct (Hred s Hr) as [(_ & Hc & Hj)|[(Hrep & _)|(Hrep & _)]];
             [|congruence..].
           right. left. rewrite Hc. auto.
  - (* a receive *)
    unfold in_group in Hr. rewrite Hsize in Hr.
    destruct (Z.eq_dec r 0) as [Hr0|Hr0].
    + (* by the root *)
      subst r. rewrite Hp in Hroot. apply root_recv_inv in Hroot.
      destruct Hroot as [Hs0|(-> & Hj & Hst & Hk)].
      { rewrite (Hneg s Hs0) in Hq. discriminate Hq. }
      assert (Hsrc : 1 <= 1 + Z.of_nat j < comm_sz) by lia.
      destruct (Hred _ Hsrc) as [(_ & Hc & _)|[(Hrep & Hc & _)|(_ & Hc & _)]];
        rewrite Hq in Hc; try discriminate Hc.
      injection Hc as -> ->.
      exists st, ph, (S j), printed, pending.
      split; [exact Hlines|]. split; [exact Hout|].
      split; [|split; [|split; [|split; [|split]]]].
      * intros o Hin Ho. specialize (Hres o Hin Ho). lia.
      * cbn [procs chan out size]. unfold set_proc. rewrite Z.eqb_refl, Hst. exact Hk.
      * intros r Hr'. cbn [procs chan out size]. unfold set_proc.
        destruct (Z.eqb_spec r 0); [lia|]. apply Hwork, Hr'.
      * intros s' d' Hd'. cbn [procs chan out size]. unfold set_chan.
        destruct (Z.eqb_spec d' 0); [contradiction|]. rewrite andb_false_r.
        apply Hch, Hd'.
      * intros r Hr'. cbn [procs chan out size]. unfold set_chan.
        rewrite Z.eqb_refl, andb_true_r.
        destruct (Z.eqb_spec r (1 + Z.of_nat j)) as [->|Hne].
        -- right. right. repeat split; [exact Hrep|lia].
        -- destruct (Hred r Hr') as [(H1 & H2 & H3)|[(H1 & H2 & H3)|(H1 & H2 & H3)]].
           ++ left. repeat split; [exact H1|exact H2|lia].
           ++ right. left. repeat split; [exact H1|exact H2|lia].
           ++ right. right. repeat split; [exact H1|exact H2|lia].
      * intros s0 Hs0. cbn [procs chan out size]. unfold set_chan.
        destruct (Z.eqb_spec s0 (1 + Z.of_nat j)); [lia|]. cbn [andb].
        apply Hneg, Hs0.
    + (* by another rank *)
      assert (Hr1 : 1 <= r < comm_sz) by lia.
      pose proof (Hwork r Hr1) as Hw. rewrite Hp in Hw. apply worker_recv_inv in Hw.
      destruct Hw as (ph' & st' & Hph' & Hk & Hrecv & Hothers & Hsent).
      pose proof (Hch s r Hr0) as Hsr. rewrite Hq in Hsr.
      apply in_flight_head in Hsr. destruct Hsr as [-> Hsr].
      exists (fun r' => if r' =? r then st' else st r'),
             (fun r' => if r' =? r then ph' else ph r'), j, printed, pending.
      split; [exact Hlines|]. split; [exact Hout|]. split; [exact Hres|].
      split; [|split; [|split; [|split]]].
      * cbn [procs chan out size]. unfold set_proc.
        destruct (Z.eqb_spec 0 r); [lia|]. exact Hroot.
      * intros r' Hr'. cbn [procs chan out size]. unfold set_proc.
        destruct (Z.eqb_spec r' r) as [->|Hne]; [exact Hk|apply Hwork, Hr'].
      * intros s' d' Hd'. cbn [procs chan out size]. unfold set_chan.
        assert (Hs' : sent_to (if s' =? r then st' else st s') d' = sent_to (st s') d').
        { destruct (Z.eqb_spec s' r) as [->|_]; [|reflexivity].
          destruct (Hsent d') as [-> ->]. reflexivity. }
        rewrite Hs'.
        destruct (Z.eqb_spec d' r) as [->|Hne]; rewrite ?andb_false_r.
        -- destruct (Z.eqb_spec s' s) as [->|Hne]; cbn [andb].
           ++ rewrite Hrecv. exact Hsr.
           ++ destruct (Hothers s' Hne) as [H1 H2]. rewrite H2, <- H1. apply Hch, Hd'.
        -- apply Hch, Hd'.
      * intros r' Hr'. cbn [procs chan out size]. unfold set_chan.
        destruct (Z.eqb_spec 0 r); [lia|]. rewrite andb_false_r.
        destruct (Z.eqb_spec r' r) as [->|Hne]; [|apply Hred, Hr'].
        destruct (Hred r Hr') as [(_ & Hc & Hj)|[(Hrep & _)|(Hrep & _)]].
        -- left. auto.
        -- pose proof (Hwork r Hr1) as Hw. rewrite Hrep in Hw.
           apply worker_reported_inv in Hw. congruence.
        -- pose proof (Hwork r Hr1) as Hw. rewrite Hrep in Hw.
           apply worker_reported_inv in Hw. congruence.
      * intros s0 Hs0. cbn [procs chan out size]. unfold set_chan.
        destruct (Z.eqb_spec 0 r); [lia|]. rewrite andb_false_r.
        apply Hneg, Hs0.
  - (* a line of output *)
    unfold in_group in Hr. rewrite Hsize in Hr.
    destruct (Z.eq_dec r 0) as [Hr0|Hr0].
    + subst r. rewrite Hp in Hroot. apply root_printf_inv in Hroot.
      destruct Hroot as (pending' & -> & Hst & Ho & Hk).
      exists st, ph, j, (printed ++ [o]), pending'.
      split; [rewrite <- app_assoc; exact Hlines|].
      split; [cbn [procs chan out size]; rewrite map_app, Hout; reflexivity|].
      split; [|split; [|split; [|split; [|split]]]].
      * intros o' Hin Ho'. apply in_app_or in Hin. destruct Hin as [Hin|[<-|[]]]; eauto.
      * cbn [procs chan out size]. unfold set_proc. rewrite Z.eqb_refl, Hst. exact Hk.
      * intros r Hr'. cbn [procs chan out size]. unfold set_proc.
        destruct (Z.eqb_spec r 0); [lia|]. apply Hwork, Hr'.
      * intros s' d' Hd'. cbn [procs chan out size]. apply Hch, Hd'.
      * intros r Hr'. cbn [procs chan out size]. apply Hred, Hr'.
      * intros s0 Hs0. cbn [procs chan out size]. apply Hneg, Hs0.
    + exfalso. assert (Hr1 : 1 <= r < comm_sz) by lia.
      pose proof (Hwork r Hr1) as Hw. rewrite Hp in Hw.
      exact (worker_printf_inv _ _ _ _ _ Hw).
Qed.

Lemma main_inv_steps x0 x :
  main_inv comm_sz a0 b0 n0 x0 -> steps x0 x -> main_inv comm_sz a0 b0 n0 x.
Proof.
  intros H0 Hsteps. induction Hsteps as [x Hs|y z _ IH Hstep].
  - eapply main_inv_same; eauto.
  - eapply main_inv_step; eauto.
Qed.
End MainInvariant.

Section MainStart.
Variables (comm_sz : Z) (a0 b0 : float) (n0 : Z).

(** The root relays its values, whatever follows the loop. *)
Lemma root_at_bcast_loop (g : float * float * Z -> proc unit) j pending (m : nat) :
  forall e,
    Z.of_nat m <= e -> 2 ^ (e - 1) < comm_sz ->
    root_at comm_sz a0 b0 n0 j pending Between (g (a0, b0, n0)) ->
    root_at comm_sz a0 b0 n0 j pending Between
            (bind (bcast_loop m 0 comm_sz (2 ^ e) (2 ^ e ÷ 2) a0 b0 n0) g).
Proof.
  induction m as [|m IH]; intros e He Hlt Hg; cbn [bcast_loop bind]; [exact Hg|].
  rewrite !(halve_pow2 e) by lia.
  rewrite role_of_root by lia. cbn [bind].
  pose proof (pow2_pos (e - 1) ltac:(lia)) as Hc.
  apply root_send_a; [lia|]. apply root_send_b; [lia|]. apply root_send_n; [lia|].
  apply IH; [lia| |exact Hg].
  destruct (Z.eq_dec e 1) as [Heq|Hne].
  - subst e. cbn in *. lia.
  - pose proof (pow2_lt (e - 1 - 1) (e - 1) ltac:(lia)). lia.
Qed.

(** A rank that holds the root's values relays them to ranks other than 0. *)
Lemma worker_at_bcast_loop_informed (g : float * float * Z -> proc unit) r (m : nat) :
  forall divisor core_difference,
    1 <= r -> 0 <= core_difference ->
    worker_at comm_sz a0 b0 n0 r Informed Between (g (a0, b0, n0)) ->
    worker_at comm_sz a0 b0 n0 r Informed Between
              (bind (bcast_loop m r comm_sz divisor core_difference a0 b0 n0) g).
Proof.
  induction m as [|m IH]; intros divisor core_difference Hr Hc Hg;
    cbn [bcast_loop bind]; [exact Hg|].
  assert (Hc' : 0 <= core_difference ÷ 2) by (apply Z.quot_pos; lia).
  destruct (role_of r comm_sz divisor core_difference) as [[| |]|]; cbn [bind].
  - apply worker_send_a; [lia|]. apply worker_send_b; [lia|].
    apply worker_send_n; [lia|]. now apply IH.
  - unfold recv_double, recv_int. cbn [bind].
    apply worker_recv_a; [discriminate|]. apply worker_recv_b; [discriminate|].
    apply worker_recv_n; [discriminate|]. now apply IH.
  - now apply IH.
  - apply worker_undefined. discriminate.
Qed.

(** A rank that does not hold them yet receives them first. *)
Lemma worker_at_bcast_loop (g : float * float * Z -> proc unit) r (m : nat) :
  forall a b n,
    1 <= r -> Z.rem r (2 ^ Z.of_nat m) <> 0 ->
    worker_at comm_sz a0 b0 n0 r Informed Between (g (a0, b0, n0)) ->
    worker_at comm_sz a0 b0 n0 r Uninformed Between
              (bind (bcast_loop m r comm_sz (2 ^ Z.of_nat m) (2 ^ Z.of_nat m ÷ 2) a b n) g).
Proof.
  induction m as [|m IH]; intros a b n Hr Hrem Hg.
  - cbn in Hrem. rewrite Z.rem_1_r in Hrem. congruence.
  - cbn [bcast_loop].
    replace (Z.of_nat (S m)) with (Z.of_nat m + 1) in * by lia.
    set (e := Z.of_nat m + 1) in *.
    pose proof (pow2_pos e ltac:(lia)) as Hd.
    pose proof (pow2_pos (e - 1) ltac:(lia)) as Hc.
    rewrite !(halve_pow2 e) by lia.
    replace (e - 1) with (Z.of_nat m) in * by lia.
    destruct (role_of r comm_sz (2 ^ e) (2 ^ Z.of_nat m)) as [[| |]|] eqn:Hrole;
      cbn [bind].
    + apply role_of_sender in Hrole; [|lia]. tauto.
    + unfold recv_double, recv_int. cbn [bind].
      apply worker_recv_a; [discriminate|]. apply worker_recv_b; [discriminate|].
      apply worker_recv_n; [discriminate|].
      apply worker_at_bcast_loop_informed; [assumption| |assumption].
      apply Z.quot_pos; lia.
    + apply IH; [assumption| |assumption]. intros Hr0.
      unfold role_of in Hrole.
      apply Z.eqb_eq in Hr0. apply Z.eqb_neq in Hrem.
      rewrite Hr0, Hrem in Hrole. cbn [andb] in Hrole.
      destruct (2 ^ e =? 0), (2 ^ Z.of_nat m =? 0); discriminate Hrole.
    + apply worker_undefined. discriminate.
Qed.

(** The root adds the estimates in rank order and prints the two result
    lines. *)
Lemma root_at_Reduce_loop (m : nat) : forall j,
  (j + m = Z.to_nat (comm_sz - 1))%nat ->
  root_at comm_sz a0 b0 n0 j
    [out_trapezoids n0;
     out_estimate a0 b0
       (partial_total (fun r => local_estimate r comm_sz a0 b0 n0) (j + m))]
    Between
    (bind (Reduce_loop m (1 + Z.of_nat j)
             (partial_total (fun r => local_estimate r comm_sz a0 b0 n0) j))
          (fun total_int =>
             printf (out_trapezoids n0)
                    (printf (out_estimate a0 b0 total_int) (Ret tt)))).
Proof.
  induction m as [|m IH]; intros j Hj; cbn [Reduce_loop].
  - rewrite Nat.add_0_r in *. cbn [bind].
    apply root_printf; [intros _; exact Hj|].
    apply root_printf; [intros _; exact Hj|].
    rewrite Hj. apply root_done.
  - unfold recv_double. cbn [bind].
    apply root_recv; [lia|].
    specialize (IH (S j) ltac:(lia)).
    rewrite partial_total_S in IH.
    replace (S j + m)%nat with (j + S m)%nat in IH by lia.
    replace (1 + Z.of_nat (S j)) with (1 + Z.of_nat j + 1) in IH by lia.
    exact IH.
Qed.

(** The program starts in a state of the invariant, where line 113 gives the
    exact count or more. *)
Lemma main_inv_start (s : scanned) (a b : Z -> float) (n : Z -> Z)
    (total_int : Z -> float) :
  1 <= comm_sz ->
  (forall count, Get_input_count log comm_sz = Some count ->
                 exact_count comm_sz <= count) ->
  fscanf s (a 0) (b 0) (n 0) = (a0, b0, n0) ->
  main_inv comm_sz a0 b0 n0 (main_net log (file_with s) comm_sz a b n total_int).
Proof.
  intros Hn Hcover Hv. split; [reflexivity|].
  exists (fun _ => Between), (fun _ => Uninformed), 0%nat, [],
         (expected_output comm_sz a0 b0 n0).
  split; [reflexivity|]. split; [reflexivity|]. split; [intros o []|].
  assert (Hrest :
    (forall s' d, d <> 0 ->
        in_flight a0 b0 n0 (received_from Between s')
                  (chan (main_net log (file_with s) comm_sz a b n total_int) s' d)
                  (sent_to Between d)) /\
    (forall r, 1 <= r < comm_sz ->
       (Uninformed <> Reported /\
        chan (main_net log (file_with s) comm_sz a b n total_int) r 0 = [] /\
        Z.of_nat 0 < r) \/
       (Uninformed = Reported /\
        chan (main_net log (file_with s) comm_sz a b n total_int) r 0 =
          [VDouble (local_estimate r comm_sz a0 b0 n0)] /\ Z.of_nat 0 < r) \/
       (Uninformed = Reported /\
        chan (main_net log (file_with s) comm_sz a b n total_int) r 0 = [] /\
        r <= Z.of_nat 0)) /\
    (forall s0, s0 < 0 ->
        chan (main_net log (file_with s) comm_sz a b n total_int) s0 0 = [])).
  { split; [|split].
    - intros s' d _. cbn. constructor.
    - intros r Hr. left. cbn. repeat split; [discriminate|lia].
    - intros s0 _. reflexivity. }
  cbn [procs main_net]. unfold main.
  destruct (Get_input_cases comm_sz) as [(count & Hc & Hle & Heq)|[_ Heq]].
  - specialize (Hcover count Hc).
    pose proof (exact_count_nonneg comm_sz) as H0.
    split; [|split; [|exact Hrest]].
    + rewrite Heq, Get_input_from_root, Hv. cbn [bind].
      apply root_printf; [discriminate|]. apply root_printf; [discriminate|].
      destruct (Z.eq_dec count (exact_count comm_sz)) as [Hexact|Hmore].
      * apply root_at_bcast_loop.
        -- rewrite Z2Nat.id; lia.
        -- apply not_beyond; lia.
        -- unfold main_after_input, Reduce. rewrite Z.eqb_refl. cbn [negb].
           apply (root_at_Reduce_loop (Z.to_nat (comm_sz - 1)) 0%nat). lia.
      * replace (Z.to_nat count) with (S (Z.to_nat (count - 1))) by lia.
        cbn [bcast_loop]. rewrite !(halve_pow2 count) by lia.
        rewrite role_of_root_beyond by lia.
        unfold recv_double. cbn [bind].
        apply root_waits. pose proof (pow2_pos (count - 1) ltac:(lia)). lia.
    + intros r Hr. rewrite Heq, Get_input_from_nonroot by lia.
      pose proof (worker_at_bcast_loop
                    (fun v => let '(a', b', n') := v in
                              main_after_input r comm_sz a' b' n' (total_int r))
                    r (Z.to_nat count) (a r) (b r) (n r)) as Hw.
      rewrite Z2Nat.id in Hw by lia. apply Hw; [lia| |].
      * pose proof (covered_by comm_sz count Hn Hcover).
        rewrite Z.rem_small; lia.
      * unfold main_after_input, Reduce.
        destruct (Z.eqb_spec r 0); [lia|]. cbn [negb bind].
        apply worker_report, worker_done.
  - split; [|split; [|exact Hrest]].
    + rewrite Heq. cbn [bind]. apply root_undefined.
    + intros r Hr. rewrite Heq. cbn [bind]. apply worker_undefined. discriminate.
Qed.
End MainStart.

(** X5.  For every group size [comm_sz >= 1] at which line 113 gives a count
    that is not below [ceil(log2 comm_sz)], and every input file that can be
    opened, in every state of every execution of [main] the output is an
    initial part of the four lines of rank 0: its rank, the input values, the
    number of trapezoids, and the estimate that is the sum in rank order of
    the estimates of all ranks on the root's input.  So no other estimate is
    ever printed, and once every rank has returned all four lines are there. *)
Theorem main_output_is_a_prefix (s : scanned) (comm_sz : Z) a b n total_int y :
  1 <= comm_sz ->
  (forall count, Get_input_count log comm_sz = Some count ->
                 exact_count comm_sz <= count) ->
  steps (main_net log (file_with s) comm_sz a b n total_int) y ->
  let '(a0, b0, n0) := fscanf s (a 0) (b 0) (n 0) in
  (exists printed pending,
      out y = map (fun o => (0, o)) printed /\
      printed ++ pending = expected_output comm_sz a0 b0 n0) /\
  (finished y -> out y = map (fun o => (0, o)) (expected_output comm_sz a0 b0 n0)).
Proof.
  intros Hn Hcover Hy.
  destruct (fscanf s (a 0) (b 0) (n 0)) as [[a0 b0] n0] eqn:Hv.
  pose proof (main_inv_steps comm_sz a0 b0 n0 _ y
                (main_inv_start comm_sz a0 b0 n0 s a b n total_int Hn Hcover Hv) Hy)
    as (Hsize & st & ph & j & printed & pending & Hlines & Hout & _ & Hroot & _).
  split.
  - exists printed, pending. auto.
  - intros Hfin. destruct (Hfin 0) as [[] Hret]; [unfold in_group; lia|].
    rewrite Hret in Hroot. inversion Hroot; subst.
    rewrite app_nil_r in Hlines. now rewrite Hout, Hlines.
Qed.

(** X6.  When the group size is not a power of two, and line 113 gives a count
    that is not below [ceil(log2 comm_sz)], neither result line (the number of
    trapezoids, the estimate) is ever printed, in any execution: rank 0 waits
    for the estimate of a rank that never leaves [Get_input]. *)
Theorem no_result_unless_power_of_two (s : scanned) (comm_sz : Z) a b n total_int y :
  1 <= comm_sz -> (forall t, 0 <= t -> comm_sz <> 2 ^ t) ->
  (forall count, Get_input_count log comm_sz = Some count ->
                 exact_count comm_sz <= count) ->
  steps (main_net log (file_with s) comm_sz a b n total_int) y ->
  forall r o, In (r, o) (out y) -> is_result o = false.
Proof.
  intros Hn Hnp Hcover Hy r o Hin.
  destruct (fscanf s (a 0) (b 0) (n 0)) as [[a0 b0] n0] eqn:Hv.
  pose proof (main_inv_steps comm_sz a0 b0 n0 _ y
                (main_inv_start comm_sz a0 b0 n0 s a b n total_int Hn Hcover Hv) Hy)
    as (Hsize & st & ph & j & printed & pending & _ & Hout & Hres & _ & Hwork & _ & Hred & _).
  destruct (main_starved comm_sz (file_with s) a b n total_int Hn Hnp Hcover)
    as (s' & d & Hs & Hd & Hstarved).
  destruct (Hstarved y Hy) as (_ & _ & Hawaits).
  destruct (is_result o) eqn:Ho; [exfalso|reflexivity].
  rewrite Hout in Hin. apply in_map_iff in Hin.
  destruct Hin as (o' & Heq & Hin). injection Heq as _ ->.
  specialize (Hres o Hin Ho).
  assert (Hd1 : 1 <= d < comm_sz) by lia.
  destruct (Hred d Hd1) as [(_ & _ & Hj)|[(Hrep & _)|(Hrep & _)]].
  - lia.
  - pose proof (Hwork d Hd1) as Hw. rewrite Hrep in Hw.
    apply worker_reported_inv in Hw. rewrite Hw in Hawaits.
    now apply awaits_ret_inv in Hawaits.
  - pose proof (Hwork d Hd1) as Hw. rewrite Hrep in Hw.
    apply worker_reported_inv in Hw. rewrite Hw in Hawaits.
    now apply awaits_ret_inv in Hawaits.
Qed.

(** ** Every execution in a group of [2 ^ t] *)

Section Confluence.
Context {A : Type}.
Implicit Types x y z : net A.
Implicit Types act : action A.

Lemma step_same_l x x' y : same x' x -> step x y -> step x' y.
Proof.
  intros (Hs & Hp & Hc & Ho) Hstep.
  destruct Hstep as [s v d k Hin Hd Hps Hy|r s k v q Hr Hpr Hq Hy|r o k Hr Hpr Hy].
  - apply (step_send x' y s v d k); unfold in_group in *;
      [lia|lia|now rewrite Hp|].
    eapply same_trans; [exact Hy|].
    repeat split; cbn; intros; unfold set_proc, set_chan;
      rewrite ?Hp, ?Hc; congruence.
  - apply (step_recv x' y r s k v q); unfold in_group in *;
      [lia|now rewrite Hp|now rewrite Hc|].
    eapply same_trans; [exact Hy|].
    repeat split; cbn; intros; unfold set_proc, set_chan;
      rewrite ?Hp, ?Hc; congruence.
  - apply (step_printf x' y r o k); unfold in_group in *; [lia|now rewrite Hp|].
    eapply same_trans; [exact Hy|].
    repeat split; cbn; intros; unfold set_proc, set_chan;
      rewrite ?Hp, ?Hc; congruence.
Qed.

Lemma step_enabled x y : step x y -> exists act, enabled x act /\ same y (after x act).
Proof.
  intros [s v d k Hs Hd Hp Hy|r s k v q Hr Hp Hq Hy|r o k Hr Hp Hy].
  - exists (does_send s v d k). cbn. auto.
  - exists (does_recv r s k v). cbn. rewrite Hq. cbn. auto.
  - exists (does_printf r o k). cbn. auto.
Qed.

Lemma enabled_step x act : enabled x act -> step x (after x act).
Proof.
  destruct act as [s v d k|r s k v|r o k]; cbn.
  - intros (Hs & Hd & Hp). apply (step_send x _ s v d k Hs Hd Hp), same_refl.
  - intros (Hr & Hp & Hq).
    destruct (chan x s r) as [|v' q] eqn:Hc; [discriminate Hq|].
    injection Hq as ->. apply (step_recv x _ r s k v q Hr Hp Hc), same_refl.
  - intros (Hr & Hp). apply (step_printf x _ r o k Hr Hp), same_refl.
Qed.

(** A process has one action at most. *)
Lemma enabled_unique x act1 act2 :
  enabled x act1 -> enabled x act2 -> actor act1 = actor act2 -> act1 = act2.
Proof.
  destruct act1 as [s1 v1 d1 k1|r1 s1 k1 v1|r1 o1 k1],
           act2 as [s2 v2 d2 k2|r2 s2 k2 v2|r2 o2 k2]; cbn;
    intros H1 H2 Heq; subst;
    repeat match goal with H : _ /\ _ |- _ => destruct H end;
    match goal with
    | Ha : procs x ?r = _, Hb : procs x ?r = _ |- _ =>
        rewrite Ha in Hb; try discriminate Hb; injection Hb as <-
    end; subst; try reflexivity.
  match goal with
  | Ha : hd_error ?l = _, Hb : hd_error ?l = _ |- _ =>
      rewrite Ha in Hb; injection Hb as <-
  end. reflexivity.
Qed.

(** The action of another process stays possible. *)
Lemma enabled_after x act1 act2 :
  actor act1 <> actor act2 -> enabled x act1 -> enabled x act2 ->
  enabled (after x act1) act2.
Proof.
  destruct act1 as [s1 v1 d1 k1|r1 s1 k1 v1|r1 o1 k1],
           act2 as [s2 v2 d2 k2|r2 s2 k2 v2|r2 o2 k2]; cbn;
    intros Hne H1 H2;
    repeat match goal with H : _ /\ _ |- _ => destruct H end;
    unfold in_group, set_proc, set_chan in *; cbn [size];
    repeat match goal with
      | |- _ /\ _ => split
      | |- context [Z.eqb ?a ?b] => destruct (Z.eqb_spec a b); cbn [andb]
      end; subst; try assumption; try congruence; try lia.
  match goal with
  | Hh : hd_error ?l = Some _ |- context [?l] =>
      destruct l; [discriminate Hh|exact Hh]
  end.
Qed.

(** Two actions of two processes commute, unless both print. *)
Lemma after_commute x act1 act2 :
  actor act1 <> actor act2 -> enabled x act1 -> enabled x act2 ->
  (forall r, r <> 0 -> silent (procs x r)) ->
  same (after (after x act1) act2) (after (after x act2) act1).
Proof.
  intros Hne H1 H2 Hsil.
  destruct act1 as [s1 v1 d1 k1|r1 s1 k1 v1|r1 o1 k1],
           act2 as [s2 v2 d2 k2|r2 s2 k2 v2|r2 o2 k2]; cbn in *;
    repeat match goal with H : _ /\ _ |- _ => destruct H end;
    try (repeat split; cbn; intros; unfold set_proc, set_chan;
         repeat match goal with
           | |- context [Z.eqb ?a ?b] => destruct (Z.eqb_spec a b); cbn [andb]
           end; subst; try reflexivity; try congruence;
         match goal with
         | Hh : hd_error ?l = Some _ |- context [?l] =>
             destruct l; [discriminate Hh|reflexivity]
         end).
  exfalso.
  destruct (Z.eq_dec r1 0) as [->|Hr1].
  - specialize (Hsil r2 ltac:(congruence)).
    match goal with H : procs x r2 = _ |- _ => rewrite H in Hsil end.
    inversion Hsil.
  - specialize (Hsil r1 Hr1).
    match goal with H : procs x r1 = _ |- _ => rewrite H in Hsil end.
    inversion Hsil.
Qed.

Lemma diamond x y1 y2 :
  (forall r, r <> 0 -> silent (procs x r)) ->
  step x y1 -> step x y2 ->
  same y1 y2 \/ exists z, step y1 z /\ step y2 z.
Proof.
  intros Hsil S1 S2.
  apply step_enabled in S1. destruct S1 as (act1 & E1 & Y1).
  apply step_enabled in S2. destruct S2 as (act2 & E2 & Y2).
  destruct (Z.eq_dec (actor act1) (actor act2)) as [Heq|Hne].
  - left. rewrite (enabled_unique x act1 act2 E1 E2 Heq) in Y1.
    eapply same_trans; [exact Y1|apply same_sym, Y2].
  - right. exists (after (after x act1) act2). split.
    + apply (step_same_l (after x act1)); [exact Y1|].
      apply enabled_step, enabled_after; assumption.
    + apply (step_same_l (after x act2)); [exact Y2|].
      apply (step_same_r _ (after (after x act2) act1)).
      * apply enabled_step, enabled_after; [congruence|assumption..].
      * apply after_commute; assumption.
Qed.

Lemma run_same_l n x x' y : same x' x -> run n x y -> run n x' y.
Proof.
  intros Hs Hrun. destruct Hrun as [x y Hy|n x y z Hstep Hrun].
  - apply run_done. eapply same_trans; [exact Hy|apply same_sym, Hs].
  - eapply run_step; [eapply step_same_l; eauto|exact Hrun].
Qed.

Lemma run_snoc n x y z : run n x y -> step y z -> run (S n) x z.
Proof.
  intros Hrun. revert z. induction Hrun as [x y Hy|n x y w Hstep Hrun IH]; intros z Hz.
  - eapply run_step; [eapply step_same_l; [apply same_sym, Hy|exact Hz]|].
    apply run_done, same_refl.
  - eapply run_step; [exact Hstep|]. apply IH, Hz.
Qed.

Lemma steps_run x y : steps x y -> exists n, run n x y.
Proof.
  intros Hsteps. induction Hsteps as [y Hs|y z _ [n IH] Hstep].
  - exists 0%nat. apply run_done, Hs.
  - exists (S n). eapply run_snoc; eauto.
Qed.

Lemma run_steps n x y : run n x y -> steps x y.
Proof.
  intros Hrun. induction Hrun as [x y Hy|n x y z Hstep _ IH].
  - apply steps_refl, Hy.
  - eapply steps_trans; [|exact IH].
    eapply steps_more; [apply steps_refl, same_refl|exact Hstep].
Qed.

Lemma finished_terminal x y : finished x -> ~ step x y.
Proof.
  intros Hfin [s v d k Hs _ Hp _|r s k v q Hr Hp _ _|r o k Hr Hp _];
    match goal with
    | Hin : in_group x ?r |- _ => destruct (Hfin r Hin) as [w Hw]; congruence
    end.
Qed.

Lemma finished_same x y : same y x -> finished x -> finished y.
Proof.
  intros (Hs & Hp & _) Hfin r Hr. rewrite Hp. apply Hfin.
  unfold in_group in *. lia.
Qed.

(** If [x] can finish in [n] actions, then after any action it can finish in
    [n - 1]. *)
Lemma run_after_step (n : nat) : forall x f y,
  only_root_printed x -> run n x f -> finished f -> step x y ->
  exists m, n = S m /\ run m y f.
Proof.
  induction n as [|n IH]; intros x f y Hx Hrun Hfin Hstep.
  - inversion Hrun as [x' f' Hs|]; subst. exfalso.
    apply (finished_terminal f y Hfin). eapply step_same_l; eauto.
  - inversion Hrun as [|n' x' x1 f' Hstep1 Hrun1]; subst.
    exists n. split; [reflexivity|].
    destruct (diamond x y x1 (proj2 Hx) Hstep Hstep1) as [Hsame|(z & Hyz & Hxz)].
    + eapply run_same_l; eauto.
    + destruct (IH x1 f z (only_root_printed_step _ _ Hstep1 Hx) Hrun1 Hfin Hxz)
        as (m & -> & Hm).
      eapply run_step; eauto.
Qed.

(** If [x] can finish in [n] actions, every execution of [x] has [n] actions
    at most and can go on to the same end. *)
Lemma run_joins (k : nat) : forall n x f y,
  only_root_printed x -> run n x f -> finished f -> run k x y ->
  (k <= n)%nat /\ run (n - k) y f.
Proof.
  induction k as [|k IH]; intros n x f y Hx Hrun Hfin Hk.
  - inversion Hk as [x' y' Hs|]; subst. split; [lia|].
    rewrite Nat.sub_0_r. eapply run_same_l; eauto.
  - inversion Hk as [|k' x' x1 y' Hstep Hk1]; subst.
    destruct (run_after_step n x f x1 Hx Hrun Hfin Hstep) as (m & -> & Hm).
    destruct (IH m x1 f y (only_root_printed_step _ _ Hstep Hx) Hm Hfin Hk1)
      as [Hle Hrest].
    split; [lia|exact Hrest].
Qed.
End Confluence.

(** X7.  In a group of [2 ^ t] processes for which line 113 gives the count
    [t], and whose input file can be opened, the program ends, however its
    actions interleave.  There is a state [f] in
    which every rank has returned and the output is the four lines of rank 0
    (its rank, the input values, the number of trapezoids, and the estimate,
    the sum in rank order of the estimates [Trap] gives at ranks
    [0 .. 2 ^ t - 1] on the root's input), and a number [bound], such that
    every execution of [main] has [bound] actions at most and, after [k]
    actions, can reach [f] in exactly [bound - k] more: no execution blocks
    before [f] and none goes on for ever. *)
Theorem main_completes_pow2 (s : scanned) (t : Z) a b n total_int :
  0 <= t <= 30 -> Get_input_count log (2 ^ t) = Some t ->
  exists (bound : nat) (f : net unit),
    steps (main_net log (file_with s) (2 ^ t) a b n total_int) f /\
    finished f /\
    (let '(a0, b0, n0) := fscanf s (a 0) (b 0) (n 0) in
     out f = map (fun o => (0, o)) (expected_output (2 ^ t) a0 b0 n0)) /\
    forall k y,
      run k (main_net log (file_with s) (2 ^ t) a b n total_int) y ->
      (k <= bound)%nat /\ run (bound - k) y f.
Proof.
  intros Ht Hcount.
  destruct (main_run_pow2 s t a b n total_int Ht Hcount) as (f & Hsteps & Hfin & Hout).
  destruct (steps_run _ _ Hsteps) as [bound Hrun].
  exists bound, f. split; [exact Hsteps|]. split; [exact Hfin|]. split; [exact Hout|].
  intros k y Hk.
  apply (run_joins k bound (main_net log (file_with s) (2 ^ t) a b n total_int));
    try assumption.
  split.
  - intros r o [].
  - intros r Hr. cbn [procs main_net]. now apply silent_main.
Qed.

(** ** An input with no trapezoids *)

Lemma div_by_zero (x : float) :
  Prim2SF (x / 0) = S754_nan \/ exists s, Prim2SF (x / 0) = S754_infinity s.
Proof.
  rewrite div_spec. unfold SF64div, SFdiv.
  change (Prim2SF 0) with (S754_zero false).
  destruct (Prim2SF x) as [sx|sx| |sx mx ex]; eauto.
Qed.

Lemma zero_mul_not_finite (x : float) :
  Prim2SF x = S754_nan \/ (exists s, Prim2SF x = S754_infinity s) ->
  (0 * x)%float = nan.
Proof.
  intros Hx. apply Prim2SF_inj. rewrite mul_spec. unfold SF64mul, SFmul.
  change (Prim2SF 0) with (S754_zero false).
  destruct Hx as [->|[s ->]]; reflexivity.
Qed.

Lemma add_nan_r (x : float) : (x + nan)%float = nan.
Proof.
  apply Prim2SF_inj. rewrite add_spec. unfold SF64add, SFadd.
  change (Prim2SF nan) with S754_nan.
  destruct (Prim2SF x) as [sx|sx| |sx mx ex]; reflexivity.
Qed.

Lemma add_nan_l (x : float) : (nan + x)%float = nan.
Proof.
  apply Prim2SF_inj. rewrite add_spec. unfold SF64add, SFadd.
  change (Prim2SF nan) with S754_nan. reflexivity.
Qed.

Lemma mul_nan_l (x : float) : (nan * x)%float = nan.
Proof.
  apply Prim2SF_inj. rewrite mul_spec. unfold SF64mul, SFmul.
  change (Prim2SF nan) with S754_nan. reflexivity.
Qed.

Lemma div_nan_l (x : float) : (nan / x)%float = nan.
Proof.
  apply Prim2SF_inj. rewrite div_spec. unfold SF64div, SFdiv.
  change (Prim2SF nan) with S754_nan. reflexivity.
Qed.

(** With [n = 0] every rank computes a NaN: [h] is a quotient by zero, the
    offset [0 * h] of [local_a] is a NaN, and [Trap] starts from [f(local_a)]. *)
Lemma local_estimate_zero (r comm_sz : Z) (a b : float) :
  local_estimate r comm_sz a b 0 = nan.
Proof.
  unfold local_estimate, main_partition. cbn [h local_n local_a local_b].
  change (0 ÷ comm_sz) with 0.
  unfold int_mul. rewrite Z.mul_0_r.
  change (double_of_int (int_wrap 0)) with 0%float.
  change (double_of_int 0) with 0%float.
  rewrite (zero_mul_not_finite _ (div_by_zero (b - a))).
  rewrite add_nan_r.
  unfold Trap, Trap_calls, call_f, f. cbn [Z.to_nat Z.sub Z.add Z.opp Trap_loop fst].
  repeat first [rewrite mul_nan_l|rewrite add_nan_l|rewrite div_nan_l].
  reflexivity.
Qed.

Lemma sum_from_nan (terms : list float) :
  (forall x, In x terms -> x = nan) -> sum_from nan terms = nan.
Proof.
  unfold sum_from. induction terms as [|x terms IH]; intros Hall; [reflexivity|].
  cbn [fold_left]. rewrite (Hall x (or_introl eq_refl)), add_nan_l.
  apply IH. intros y Hy. apply Hall. now right.
Qed.

Lemma expected_total_zero (comm_sz : Z) (a b : float) :
  expected_total comm_sz a b 0 = nan.
Proof.
  unfold expected_total. rewrite local_estimate_zero.
  apply sum_from_nan. intros x Hx. unfold others in Hx.
  apply in_map_iff in Hx. destruct Hx as (r & <- & _). apply local_estimate_zero.
Qed.

Lemma silent_prints_nan (p : proc unit) : silent p -> prints_nan p.
Proof.
  intros Hp. induction Hp as [[]| | |]; constructor; auto.
Qed.

Lemma nan_inv_same (x y : net unit) : same y x -> nan_inv x -> nan_inv y.
Proof.
  intros (_ & Hp & Hc & Ho) (H1 & H2 & H3). split; [|split].
  - intros r. rewrite Hp. apply H1.
  - intros s r Hs. rewrite Hc. now apply H2.
  - rewrite Ho. exact H3.
Qed.

Lemma nan_inv_step (x y : net unit) : step x y -> nan_inv x -> nan_inv y.
Proof.
  intros Hstep (Hprocs & Hneg & Hout).
  destruct Hstep as [s v d k Hs _ Hp Hy|r s k v q _ Hp Hq Hy|r o k _ Hp Hy];
    apply (nan_inv_same _ _ Hy); (split; [|split]); cbn [procs chan out].
  - intros r. unfold set_proc. destruct (Z.eqb_spec r s) as [->|_]; [|apply Hprocs].
    specialize (Hprocs s). rewrite Hp in Hprocs. now inversion Hprocs.
  - intros s0 r Hs0. unfold set_chan. unfold in_group in Hs.
    destruct (Z.eqb_spec s0 s); [lia|]. cbn [andb]. now apply Hneg.
  - exact Hout.
  - intros r'. unfold set_proc. destruct (Z.eqb_spec r' r) as [->|_]; [|apply Hprocs].
    specialize (Hprocs r). rewrite Hp in Hprocs.
    inversion Hprocs as [| |s' k' Hk|s' k' Hs'| |]; subst; [apply Hk|].
    rewrite (Hneg s r Hs') in Hq. discriminate Hq.
  - intros s0 r0 Hs0. unfold set_chan.
    destruct ((s0 =? s) && (r0 =? r)) eqn:E; [|now apply Hneg].
    apply andb_true_iff in E. destruct E as [E _]. apply Z.eqb_eq in E. subst s0.
    rewrite (Hneg s r Hs0) in Hq. discriminate Hq.
  - exact Hout.
  - intros r'. unfold set_proc. destruct (Z.eqb_spec r' r) as [->|_]; [|apply Hprocs].
    specialize (Hprocs r). rewrite Hp in Hprocs. now inversion Hprocs.
  - exact Hneg.
  - intros r' a b e Hin. apply in_app_or in Hin. destruct Hin as [Hin|[Heq|[]]].
    + eapply Hout, Hin.
    + injection Heq as _ ->. specialize (Hprocs r). rewrite Hp in Hprocs.
      inversion Hprocs as [| | | |o' k' Ho _|]; subst. eapply Ho. reflexivity.
Qed.

Lemma nan_inv_steps (x0 x : net unit) : nan_inv x0 -> steps x0 x -> nan_inv x.
Proof.
  intros H0 Hsteps. induction Hsteps as [x Hs|y z _ IH Hstep].
  - eapply nan_inv_same; eauto.
  - eapply nan_inv_step; eauto.
Qed.

(** In the loop rank 0 sends, or it waits for a negative rank. *)
Lemma prints_nan_root_loop (g : float * float * Z -> proc unit) comm_sz a0 b0 n0
    (m : nat) : forall e,
  Z.of_nat m <= e ->
  prints_nan (g (a0, b0, n0)) ->
  prints_nan (bind (bcast_loop m 0 comm_sz (2 ^ e) (2 ^ e ÷ 2) a0 b0 n0) g).
Proof.
  induction m as [|m IH]; intros e He Hg; cbn [bcast_loop bind]; [exact Hg|].
  rewrite !(halve_pow2 e) by lia.
  pose proof (pow2_pos (e - 1) ltac:(lia)) as Hc.
  destruct (role_of 0 comm_sz (2 ^ e) (2 ^ (e - 1))) as [[| |]|]; cbn [bind].
  - do 3 constructor. apply IH; [lia|exact Hg].
  - unfold recv_double. cbn [bind]. apply prints_nan_waits. lia.
  - apply IH; [lia|exact Hg].
  - constructor.
Qed.

(** A sum that starts from a NaN ends as a NaN. *)
Lemma prints_nan_Reduce_loop (a0 b0 : float) (n0 : Z) (m : nat) : forall source,
  prints_nan (bind (Reduce_loop m source nan)
                   (fun total_int =>
                      printf (out_trapezoids n0)
                             (printf (out_estimate a0 b0 total_int) (Ret tt)))).
Proof.
  induction m as [|m IH]; intros source; cbn [Reduce_loop bind].
  - constructor; [discriminate|]. constructor; [|constructor].
    intros a b e [= _ _ <-]. reflexivity.
  - unfold recv_double. cbn [bind]. apply prints_nan_recv.
    intros [x|z]; [|constructor]. rewrite add_nan_l. apply IH.
Qed.

Lemma nan_inv_start (s : scanned) (comm_sz : Z) a b n total_int a0 b0 :
  fscanf s (a 0) (b 0) (n 0) = (a0, b0, 0) ->
  nan_inv (main_net log (file_with s) comm_sz a b n total_int).
Proof.
  intros Hv. split; [|split].
  - intros r. cbn [procs main_net].
    destruct (Z.eq_dec r 0) as [->|Hr];
      [|now apply silent_prints_nan, silent_main].
    unfold main.
    destruct (Get_input_cases comm_sz) as [(count & _ & _ & ->)|[_ ->]];
      [|constructor].
    rewrite Get_input_from_root, Hv. cbn [bind].
    constructor; [discriminate|]. constructor; [discriminate|].
    assert (Hg : prints_nan (main_after_input 0 comm_sz a0 b0 0 (total_int 0))).
    { unfold main_after_input, Reduce. rewrite Z.eqb_refl. cbn [negb].
      fold (local_estimate 0 comm_sz a0 b0 0). rewrite local_estimate_zero.
      apply prints_nan_Reduce_loop. }
    destruct (Z_le_gt_dec count 0) as [H0|H0].
    + replace (Z.to_nat count) with 0%nat by lia. exact Hg.
    + apply prints_nan_root_loop; [lia|exact Hg].
  - intros s0 r _. reflexivity.
  - intros r a' b' e [].
Qed.

(** X8.  The program does not reject [n = 0].  When the file gives [n = 0],
    whatever [a] and [b] are, [h = (b - a)/n] is a quotient by zero, the
    estimate [Trap] returns at every rank is a NaN, and in every execution,
    for every group size and whatever count line 113 gives, an estimate that
    is printed is a NaN. *)
Theorem zero_trapezoids_give_nan (s : scanned) (comm_sz : Z) a b n total_int a0 b0 :
  1 <= comm_sz ->
  fscanf s (a 0) (b 0) (n 0) = (a0, b0, 0) ->
  (forall r, local_estimate r comm_sz a0 b0 0 = nan) /\
  forall y r a' b' e,
    steps (main_net log (file_with s) comm_sz a b n total_int) y ->
    In (r, out_estimate a' b' e) (out y) -> e = nan.
Proof.
  intros Hn Hv. split; [intros r; apply local_estimate_zero|].
  intros y r a' b' e Hy Hin.
  pose proof (nan_inv_steps _ y (nan_inv_start s comm_sz a b n total_int a0 b0 Hv) Hy)
    as (_ & _ & Hout).
  exact (Hout r a' b' e Hin).
Qed.

End Program.

(** * Examples

    The theorems above at concrete inputs, with [nearest_log] for the [log] of
    libm. *)

(** A count that is known is the only count. *)
Lemma count_is (log : float -> float) (comm_sz c : Z) :
  Get_input_count log comm_sz = Some c ->
  forall count, Get_input_count log comm_sz = Some count -> count = c.
Proof. intros H count H'. congruence. Qed.

(** ** The operands of the loop *)

(** C7 in a group of three: the count is 2 and the operands are (4, 2) and
    (2, 1). *)
Lemma modulus_operands_positive_witness :
  Get_input_count nearest_log 3 = Some 2 /\ 2 <= 30 /\
  (forall file my_rank a b n,
      Get_input nearest_log file my_rank 3 a b n =
      (' (a, b, n) <- (if my_rank =? 0 then read_input file my_rank a b n
                       else Ret (a, b, n)) ;;
       bcast_over [(4, 2); (2, 1)] my_rank 3 a b n)) /\
  Forall (fun dc => 2 <= fst dc /\ 1 <= snd dc) [(4, 2); (2, 1)] /\
  last [(4, 2); (2, 1)] (0, 0) = (2, 1).
Proof.
  assert (Hc : Get_input_count nearest_log 3 = Some 2) by reflexivity.
  assert (Hle : 2 <= 30) by lia.
  split; [exact Hc|]. split; [exact Hle|].
  pose proof (modulus_operands_positive nearest_log 3 2 Hc Hle) as (H1 & H2 & H3 & _).
  split; [exact H1|]. split; [exact H2|]. apply H3. lia.
Defined.

(** C7 fails in a group of [2 ^ 30 + 1]: the count is 31, [pow(2, count)] is
    not an [int], and the conversion of line 115 is undefined at every rank;
    [Get_input] is not the loop run with any operands. *)
Lemma divisor_overflows_int :
  let comm_sz := 2 ^ 30 + 1 in
  Get_input_count nearest_log comm_sz = Some 31 /\
  Get_input_divisor 31 = None /\
  ~ in_int (2 ^ 31) /\
  (forall file my_rank a b n,
      Get_input nearest_log file my_rank comm_sz a b n = Undefined int_conversion) /\
  ~ (exists operands, forall file a b n,
        Get_input nearest_log file 0 comm_sz a b n =
        (' (a, b, n) <- (if 0 =? 0 then read_input file 0 a b n else Ret (a, b, n)) ;;
         bcast_over operands 0 comm_sz a b n)).
Proof.
  cbv zeta.
  assert (Hc : Get_input_count nearest_log (2 ^ 30 + 1) = Some 31) by reflexivity.
  assert (Hu : forall file my_rank a b n,
             Get_input nearest_log file my_rank (2 ^ 30 + 1) a b n =
             Undefined int_conversion).
  { intros. unfold Get_input. rewrite Hc. reflexivity. }
  split; [exact Hc|]. split; [reflexivity|]. split; [unfold in_int; lia|].
  split; [exact Hu|].
  intros [operands H]. specialize (H file_absent 0%float 0%float 0).
  rewrite Hu in H. discriminate H.
Qed.

(** ** Who prints *)

(** C9 on a run of four processes over [0, 1] with four trapezoids: the four
    lines of the run all come from rank 0. *)
Lemma only_root_prints_witness :
  let x0 := main_net nearest_log (file_with (scanned_abn 0 1 4)) 4
                     (fun _ => 0%float) (fun _ => 0%float) (fun _ => 0)
                     (fun _ => 0%float) in
  let x := schedule 40 x0 in
  steps x0 x /\
  out x = [(0, out_I_am 0); (0, out_input_values 0 1 4);
           (0, out_trapezoids 4); (0, out_estimate 0 1 0.34375)] /\
  (forall r o, In (r, o) (out x) -> r = 0).
Proof.
  intros x0 x.
  assert (Hsteps : steps x0 x).
  { apply schedule_sound. intros s d. reflexivity. }
  split; [exact Hsteps|]. split; [vm_compute; reflexivity|].
  exact (proj1 (only_root_prints nearest_log _ _ _ _ _ _ x Hsteps)).
Defined.

(** ** The broadcast *)

(** In a group of three the broadcast never completes.  Rank 2 receives the
    values from rank 0 in the first iteration and then takes the receive branch
    again, naming rank 1, which sends nothing to it: in no execution do all
    three processes return from [Get_input].  Under the synchronous schedule
    ranks 0 and 1 return with the values of the file and rank 2 is left
    waiting for rank 1, with no step possible. *)
Lemma broadcast_blocks_at_three (s : scanned) (a b : Z -> float) (n : Z -> Z) :
  let x0 := Get_input_net nearest_log (file_with s) 3 a b n in
  let x := schedule 20 x0 in
  (forall y, steps x0 y -> ~ finished y) /\
  steps x0 x /\
  (forall y, ~ step x y) /\
  result (procs x 0) = Some (fscanf s (a 0) (b 0) (n 0)) /\
  result (procs x 1) = Some (fscanf s (a 0) (b 0) (n 0)) /\
  waiting_on (procs x 2) = Some 1.
Proof.
  intros x0 x. split; [|split; [|split]].
  - intros y Hy. apply (starved_not_finished 1 2).
    + unfold in_group. rewrite (steps_size _ _ Hy). cbn. lia.
    + apply (starved_forever 1 2 x0); [lia| |exact Hy].
      split; [reflexivity|]. split.
      * vm_compute. repeat (constructor; try lia; intros [?|?]).
      * vm_compute. repeat (constructor; intros [?|?]).
  - apply schedule_sound, Get_input_net_quiet.
  - apply all_blocked_terminal. destruct s; reflexivity.
  - destruct s; repeat split; reflexivity.
Qed.

(** In a group of [2 ^ 29] the broadcast never completes either.  The count
    is 30: rank 0 prints its two lines and then waits for a message from rank
    [-(2 ^ 29)], in every execution. *)
Lemma broadcast_blocks_at_two_to_29 (s : scanned) (a b : Z -> float) (n : Z -> Z) :
  forall y, steps (Get_input_net nearest_log (file_with s) (2 ^ 29) a b n) y ->
            ~ finished y.
Proof.
  intros y Hy. apply (waits_outside_not_finished 0).
  - unfold in_group. rewrite (steps_size _ _ Hy). cbn. lia.
  - apply (waits_outside_forever 0 (Get_input_net nearest_log (file_with s) (2 ^ 29) a b n));
      [|exact Hy].
    split; [|reflexivity].
    cbn [procs Get_input_net]. unfold Get_input.
    replace (Get_input_count nearest_log (2 ^ 29)) with (Some 30) by reflexivity.
    replace (Get_input_divisor 30) with (Some (2 ^ 30)) by reflexivity.
    destruct (Get_input_from_root_receives s 30 (2 ^ 29) (a 0) (b 0) (n 0)
                ltac:(lia) eq_refl) as [k ->].
    destruct (fscanf s (a 0) (b 0) (n 0)) as [[a' b'] n'].
    do 2 constructor. constructor. reflexivity.
Qed.

(** C1 in a group of four reading [0 1 4]: the count is 2. *)
Lemma broadcast_from_rank_zero_witness :
  let a := fun r : Z => double_of_int (10 + r) in
  let b := fun r : Z => double_of_int (20 + r) in
  let n := fun r : Z => 30 + r in
  let x0 := Get_input_net nearest_log (file_with (scanned_abn 0 1 4)) 4 a b n in
  1 <= 4 /\
  (forall count, Get_input_count nearest_log 4 = Some count -> exact_count 4 <= count) /\
  (forall y r v, steps x0 y -> in_group y r -> procs y r = Ret v ->
                 v = (0%float, 1%float, 4)) /\
  (forall t, 0 <= t <= 30 -> 4 = 2 ^ t ->
     Get_input_count nearest_log 4 = Some t ->
     (forall file r a' b' n',
         Get_input nearest_log file r 4 a' b' n' =
         Get_input_from t (2 ^ t) file r 4 a' b' n') /\
     exists y, steps x0 y /\ finished y /\
               forall r, in_group y r -> procs y r = Ret (0%float, 1%float, 4)).
Proof.
  intros a b n x0.
  assert (H4 : 1 <= 4) by lia.
  assert (Hcover : forall count, Get_input_count nearest_log 4 = Some count ->
                                 exact_count 4 <= count).
  { intros count H. rewrite (count_is nearest_log 4 2 eq_refl count H).
    vm_compute. discriminate. }
  split; [exact H4|]. split; [exact Hcover|].
  exact (broadcast_from_rank_zero nearest_log (scanned_abn 0 1 4) 4 a b n H4 Hcover).
Defined.

(** C1 fails as stated.  No rank but 0 can be the root: in a group of two
    reading [0 1 4], where the variables of rank 1 held 1, 2 and 3, the
    broadcast completes and both ranks hold (0, 1, 4), not what rank 1 had.
    In a group of three the broadcast does not complete in any execution; nor
    does it in a group of [2 ^ 29], where the count is 30. *)
Lemma broadcast_claim_fails :
  (let a := fun r : Z => if r =? 0 then 7%float else 1%float in
   let b := fun r : Z => if r =? 0 then 9%float else 2%float in
   let n := fun r : Z => if r =? 0 then 5 else 3 in
   let x0 := Get_input_net nearest_log (file_with (scanned_abn 0 1 4)) 2 a b n in
   let x := schedule 20 x0 in
   steps x0 x /\ finished x /\
   result (procs x 0) = Some (0%float, 1%float, 4) /\
   result (procs x 1) = Some (0%float, 1%float, 4) /\
   result (procs x 0) <> Some (a 1, b 1, n 1)) /\
  (forall y,
      steps (Get_input_net nearest_log (file_with (scanned_abn 0 1 4)) 3
                           (fun _ => 0%float) (fun _ => 0%float) (fun _ => 0)) y ->
      ~ finished y) /\
  (Get_input_count nearest_log (2 ^ 29) = Some 30 /\
   forall y,
      steps (Get_input_net nearest_log (file_with (scanned_abn 0 1 4)) (2 ^ 29)
                           (fun _ => 0%float) (fun _ => 0%float) (fun _ => 0)) y ->
      ~ finished y).
Proof.
  split; [|split; [|split; [reflexivity|apply broadcast_blocks_at_two_to_29]]].
  - intros a b n x0 x. split; [apply schedule_sound, Get_input_net_quiet|].
    split; [|split; [reflexivity|split; [reflexivity|]]].
    + intros r Hr. unfold in_group in Hr.
      assert (Hsz : size x = 2) by reflexivity. rewrite Hsz in Hr.
      assert (Hcases : r = 0 \/ r = 1) by lia.
      destruct Hcases as [Hc|Hc]; subst r; eexists; vm_compute; reflexivity.
    + intros Heq.
      apply (f_equal (fun o => match o with Some (_, _, z) => z | None => 0 end)) in Heq.
      vm_compute in Heq. discriminate Heq.
  - apply broadcast_blocks_at_three.
Qed.


(** X1 with six processes: the count is 3. *)
Lemma Get_input_strands_a_rank_witness :
  1 <= 6 /\ (forall t, 0 <= t -> 6 <> 2 ^ t) /\
  (forall count, Get_input_count nearest_log 6 = Some count -> exact_count 6 <= count) /\
  exists d, 0 < d < 6 /\
    forall file a b n y,
      steps (Get_input_net nearest_log file 6 a b n) y -> result (procs y d) = None.
Proof.
  assert (H6 : 1 <= 6) by lia.
  assert (Hcover : forall count, Get_input_count nearest_log 6 = Some count ->
                                 exact_count 6 <= count).
  { intros count H. rewrite (count_is nearest_log 6 3 eq_refl count H).
    vm_compute. discriminate. }
  split; [exact H6|]. split; [exact six_not_power_of_two|]. split; [exact Hcover|].
  exact (Get_input_strands_a_rank nearest_log 6 H6 six_not_power_of_two Hcover).
Defined.

(** ** The whole program *)

(** X3 for rank 2 of 3, the rank that the broadcast strands. *)
Lemma main_names_ranks_of_the_group_witness :
  0 <= 2 < 3 /\
  Get_input_count nearest_log 3 = Some 2 /\ 2 <= exact_count 3 /\ 2 <= 30 /\
  peers_valid 2 3 (main nearest_log (file_with (scanned_abn 0 1 4)) 2 3 0 0 0 0).
Proof.
  assert (H : 0 <= 2 < 3) by lia.
  assert (Hc : Get_input_count nearest_log 3 = Some 2) by reflexivity.
  assert (Hbound : 2 <= exact_count 3) by (vm_compute; discriminate).
  assert (Hle : 2 <= 30) by lia.
  split; [exact H|]. split; [exact Hc|]. split; [exact Hbound|]. split; [exact Hle|].
  exact (main_names_ranks_of_the_group nearest_log _ 2 3 2 _ _ _ _ H Hc Hbound Hle).
Defined.

(** X5 with three processes, at the end of the schedule. *)
Lemma main_output_is_a_prefix_witness :
  let a := fun r : Z => double_of_int (10 + r) in
  let b := fun r : Z => double_of_int (20 + r) in
  let n := fun r : Z => 30 + r in
  let total_int := fun r : Z => double_of_int (40 + r) in
  let x0 := main_net nearest_log (file_with (scanned_abn 0 1 4)) 3 a b n total_int in
  let y := schedule 40 x0 in
  let lines := [out_I_am 0; out_input_values 0 1 4; out_trapezoids 4;
                out_estimate 0 1 0.1484375] in
  1 <= 3 /\
  (forall count, Get_input_count nearest_log 3 = Some count -> exact_count 3 <= count) /\
  steps x0 y /\
  (exists printed pending,
      out y = map (fun o => (0, o)) printed /\ printed ++ pending = lines) /\
  (finished y -> out y = map (fun o => (0, o)) lines).
Proof.
  intros a b n total_int x0 y lines.
  assert (H3 : 1 <= 3) by lia.
  assert (Hcover : forall count, Get_input_count nearest_log 3 = Some count ->
                                 exact_count 3 <= count).
  { intros count H. rewrite (count_is nearest_log 3 2 eq_refl count H).
    vm_compute. discriminate. }
  assert (Hy : steps x0 y).
  { apply (schedule_sound 40 x0). intros s d. reflexivity. }
  split; [exact H3|]. split; [exact Hcover|]. split; [exact Hy|].
  exact (main_output_is_a_prefix nearest_log (scanned_abn 0 1 4) 3 a b n total_int y
           H3 Hcover Hy).
Defined.

(** X6 with six processes, at the end of the schedule. *)
Lemma no_result_unless_power_of_two_witness :
  let a := fun r : Z => double_of_int (10 + r) in
  let b := fun r : Z => double_of_int (20 + r) in
  let n := fun r : Z => 30 + r in
  let total_int := fun r : Z => double_of_int (40 + r) in
  let x0 := main_net nearest_log (file_with (scanned_abn 0 1 4)) 6 a b n total_int in
  let y := schedule 40 x0 in
  1 <= 6 /\ (forall t, 0 <= t -> 6 <> 2 ^ t) /\
  (forall count, Get_input_count nearest_log 6 = Some count -> exact_count 6 <= count) /\
  steps x0 y /\
  forall r o, In (r, o) (out y) -> is_result o = false.
Proof.
  intros a b n total_int x0 y.
  assert (H6 : 1 <= 6) by lia.
  assert (Hcover : forall count, Get_input_count nearest_log 6 = Some count ->
                                 exact_count 6 <= count).
  { intros count H. rewrite (count_is nearest_log 6 3 eq_refl count H).
    vm_compute. discriminate. }
  assert (Hy : steps x0 y).
  { apply (schedule_sound 40 x0). intros s d. reflexivity. }
  split; [exact H6|]. split; [exact six_not_power_of_two|]. split; [exact Hcover|].
  split; [exact Hy|].
  exact (no_result_unless_power_of_two nearest_log (scanned_abn 0 1 4) 6 a b n total_int y
           H6 six_not_power_of_two Hcover Hy).
Defined.

(** X7 with four processes reading [0 1 4]: the count is 2. *)
Lemma main_completes_pow2_witness :
  let a := fun r : Z => double_of_int (10 + r) in
  let b := fun r : Z => double_of_int (20 + r) in
  let n := fun r : Z => 30 + r in
  let total_int := fun r : Z => double_of_int (40 + r) in
  let x0 := main_net nearest_log (file_with (scanned_abn 0 1 4)) 4 a b n total_int in
  0 <= 2 <= 30 /\ Get_input_count nearest_log (2 ^ 2) = Some 2 /\
  exists (bound : nat) (f : net unit),
    steps x0 f /\ finished f /\
    out f = [(0, out_I_am 0); (0, out_input_values 0 1 4);
             (0, out_trapezoids 4); (0, out_estimate 0 1 0.34375)] /\
    forall k y, run k x0 y -> (k <= bound)%nat /\ run (bound - k) y f.
Proof.
  intros a b n total_int x0.
  assert (H2 : 0 <= 2 <= 30) by lia.
  assert (Hc : Get_input_count nearest_log (2 ^ 2) = Some 2) by reflexivity.
  split; [exact H2|]. split; [exact Hc|].
  exact (main_completes_pow2 nearest_log (scanned_abn 0 1 4) 2 a b n total_int H2 Hc).
Defined.

(** X8 with four processes on the input [0 1 0], at the end of the schedule:
    the estimate is printed, and it is a NaN. *)
Lemma zero_trapezoids_give_nan_witness :
  let a := fun r : Z => double_of_int (10 + r) in
  let b := fun r : Z => double_of_int (20 + r) in
  let n := fun r : Z => 30 + r in
  let total_int := fun r : Z => double_of_int (40 + r) in
  let x0 := main_net nearest_log (file_with (scanned_abn 0 1 0)) 4 a b n total_int in
  let y := schedule 40 x0 in
  1 <= 4 /\ steps x0 y /\ In (0, out_estimate 0 1 nan) (out y) /\
  (forall r, local_estimate r 4 0 1 0 = nan) /\
  forall y r a' b' e, steps x0 y -> In (r, out_estimate a' b' e) (out y) -> e = nan.
Proof.
  intros a b n total_int x0 y.
  assert (H4 : 1 <= 4) by lia.
  split; [exact H4|]. split; [apply (schedule_sound 40 x0); intros s d; reflexivity|].
  split; [vm_compute; auto 6|].
  exact (zero_trapezoids_give_nan nearest_log (scanned_abn 0 1 0) 4 a b n total_int 0 1
           H4 eq_refl).
Defined.
